(** * Tsuro: board, rule checker and referee

    A shallow embedding of the core of the Tsuro implementation
    (Common/tiles.py, Common/board_position.py, Common/board_state.py,
    Common/board_constraint.py, Common/board.py, Common/rules.py and
    Admin/referee.py) together with the properties of its specification,
    and of the code around it: the strategies (Player/first_s.py,
    Player/second-s.py, Player/third_s.py), [chunks] of Common/util.py,
    the brackets of Admin/bracket_strategy.py and
    [translate_color_to_pids] of Admin/administrator.py.

    Conventions of the embedding:
    - a Python function that returns a [Result] and may also raise is a
      function into [Res]: [Ok v] is [ok(v)], [Error msg] is [error(msg)]
      and [Raise e] is an exception that leaves the function;
    - interpolated values are left out of error messages, the fixed text
      is kept; the strategies and the bracket strategy interpolate the
      numbers that their messages give;
    - pyrsistent maps are [gmap]s, Python sets are [gset]s;
    - a mutable object ([Board], [Referee], the list of observers) is
      threaded through the functions that change it. *)

From Stdlib Require Import ZArith Lia.
From stdpp Require Import base decidable option list list_monad sorting gmap strings
  pretty.

Local Open Scope Z_scope.
#[local] Set Warnings "-clear-no-such-hyp".

(** ** Results and exceptions (Common/result.py) *)

Inductive Exn : Type :=
| ValueError
| KeyError
| AssertionError
| AttributeError
| IndexError
| StopIteration
| ResultMisuseException
| Diverges. (* the budget of a [while True] loop of the model ran out *)

Inductive Res (A : Type) : Type :=
| Ok (a : A)
| Error (msg : string)
| Raise (e : Exn).

Arguments Ok {A} a.
Arguments Error {A} msg.
Arguments Raise {A} e.

#[global] Instance Exn_eq_dec : EqDecision Exn.
Proof. solve_decision. Defined.

#[global] Instance Res_eq_dec {A} `{EqDecision A} : EqDecision (Res A).
Proof. solve_decision. Defined.

Definition is_error {A} (r : Res A) : bool :=
  match r with Error _ => true | _ => false end.

Definition is_ok {A} (r : Res A) : bool :=
  match r with Ok _ => true | _ => false end.

#[global] Instance Res_ret : MRet Res := fun A a => Ok a.
#[global] Instance Res_bind : MBind Res := fun A B f m =>
  match m with
  | Ok a => f a
  | Error msg => Error msg
  | Raise e => Raise e
  end.

(** ** Colors (Common/color.py) *)

Inductive ColorString : Type := white | black | red | green | blue.

Definition AllColors : list ColorString := [white; black; red; green; blue].

#[global] Instance ColorString_eq_dec : EqDecision ColorString.
Proof. solve_decision. Defined.

Definition color_index (c : ColorString) : nat :=
  match c with white => 0 | black => 1 | red => 2 | green => 3 | blue => 4 end%nat.

Definition index_color (n : nat) : ColorString :=
  match n with
  | 0 => white | 1 => black | 2 => red | 3 => green | _ => blue
  end%nat.

#[global] Instance ColorString_countable : Countable ColorString.
Proof.
  apply (inj_countable' color_index index_color).
  intros []; reflexivity.
Defined.

(** ** Python's [sorted], [min]/[max] on tuples and comparison of tuples and lists *)

Section Sorting.
Context {A : Type} (leb : A -> A -> bool).

Fixpoint insert_sorted (x : A) (l : list A) : list A :=
  match l with
  | [] => [x]
  | y :: l' => if leb x y then x :: l else y :: insert_sorted x l'
  end.

Fixpoint sorted (l : list A) : list A :=
  match l with
  | [] => []
  | x :: l' => insert_sorted x (sorted l')
  end.
End Sorting.

Definition tuple_leb (a b : Z * Z) : bool :=
  (a.1 <? b.1) || ((a.1 =? b.1) && (a.2 <=? b.2)).

Definition tuple_ltb (a b : Z * Z) : bool :=
  (a.1 <? b.1) || ((a.1 =? b.1) && (a.2 <? b.2)).

Fixpoint edges_leb (l1 l2 : list (Z * Z)) : bool :=
  match l1, l2 with
  | [], _ => true
  | _ :: _, [] => false
  | a :: l1', b :: l2' =>
      if tuple_ltb a b then true
      else if tuple_ltb b a then false
      else edges_leb l1' l2'
  end.

(** [flatten] of Common/util.py on a list of 2-tuples *)
Definition flatten (nested : list (Z * Z)) : list Z :=
  nested ≫= (fun e => [e.1; e.2]).

(** [chunks] of Common/util.py: [range(0, len(lst), num)] raises ValueError
    for a step of zero and is empty for a negative step; for a positive
    step the loop runs at most [len(lst)] times *)
Fixpoint chunks_loop {A} (fuel : nat) (lst : list A) (num idx : nat)
  : list (list A) :=
  match fuel with
  | O => []
  | S fuel =>
      if decide (idx < length lst)%nat then
        take num (drop idx lst) :: chunks_loop fuel lst num (idx + num)
      else []
  end.

Definition chunks {A} (lst : list A) (num : Z) : Res (list (list A)) :=
  if decide (num = 0) then Raise ValueError
  else if decide (num < 0) then Ok []
  else Ok (chunks_loop (length lst) lst (Z.to_nat num) 0).

(** ** Ports and tiles (Common/tiles.py) *)

Definition PortID := Z.

Module Port.
Definition TopLeft : PortID := 0.
Definition TopRight : PortID := 1.
Definition RightTop : PortID := 2.
Definition RightBottom : PortID := 3.
Definition BottomRight : PortID := 4.
Definition BottomLeft : PortID := 5.
Definition LeftBottom : PortID := 6.
Definition LeftTop : PortID := 7.

Definition all : list PortID :=
  [TopLeft; TopRight; RightTop; RightBottom;
   BottomRight; BottomLeft; LeftBottom; LeftTop].

Definition get_adjoining_port (port : PortID) : Res PortID :=
  if decide (port = TopLeft) then Ok BottomLeft
  else if decide (port = TopRight) then Ok BottomRight
  else if decide (port = RightTop) then Ok LeftTop
  else if decide (port = RightBottom) then Ok LeftBottom
  else if decide (port = LeftBottom) then Ok RightBottom
  else if decide (port = LeftTop) then Ok RightTop
  else if decide (port = BottomLeft) then Ok TopLeft
  else if decide (port = BottomRight) then Ok TopRight
  else Raise ValueError.
End Port.

Module Tile.
Record t : Type := mk { edges : list (PortID * PortID) }.

#[global] Instance eq_dec : EqDecision t.
Proof. solve_decision. Defined.

(** [Tile.__init__]: the two assertions, then the normalised edge list *)
Definition new (es : list (PortID * PortID)) : Res t :=
  if decide (length es = 4%nat) then
    if decide (sorted Z.leb (flatten es) = [0; 1; 2; 3; 4; 5; 6; 7]) then
      Ok (mk (sorted tuple_leb
                    (map (fun x => (Z.min x.1 x.2, Z.max x.1 x.2)) es)))
    else Raise AssertionError
  else Raise AssertionError.

Definition rotate (self : t) : Res t :=
  new (map (fun e => ((e.1 + 2) mod 8, (e.2 + 2) mod 8)) (edges self)).

(** the [for _ in range(n)] loop of [all_rotations] *)
Fixpoint all_rotations_loop (n : nat) (til : t) (ret : list t)
  : Res (list t) :=
  match n with
  | O => Ok ret
  | S n' =>
      til' ← rotate til;
      all_rotations_loop n' til' (ret ++ [til])
  end.

Definition all_rotations (self : t) : Res (list t) :=
  all_rotations_loop 4 self [].

Fixpoint get_port_connected_to_loop (es : list (PortID * PortID))
    (port : PortID) : Res PortID :=
  match es with
  | [] => Raise ValueError
  | (port1, port2) :: es' =>
      if decide (port1 = port) then Ok port2
      else if decide (port2 = port) then Ok port1
      else get_port_connected_to_loop es' port
  end.

Definition get_port_connected_to (self : t) (port : PortID) : Res PortID :=
  get_port_connected_to_loop (edges self) port.

(** the [for _ in range(3)] loop of [_to_key] *)
Fixpoint to_key_loop (n : nat) (tmp : t)
    (rotations : list (list (PortID * PortID)))
  : Res (list (list (PortID * PortID))) :=
  match n with
  | O => Ok rotations
  | S n' =>
      tmp' ← rotate tmp;
      to_key_loop n' tmp' (rotations ++ [edges tmp'])
  end.

(** [_to_key]: the key is the sorted list of the four edge lists; the
    source prints it with [str], which is injective on such lists *)
Definition to_key (self : t) : Res (list (list (PortID * PortID))) :=
  rotations ← to_key_loop 3 self [edges self];
  Ok (sorted edges_leb rotations).

(** [Tile.__eq__] *)
Definition eq (t1 t2 : t) : Res bool :=
  k1 ← to_key t1;
  k2 ← to_key t2;
  Ok (bool_decide (k1 = k2)).

(** what [Tile.__init__] guarantees of every tile object *)
Definition valid (self : t) : Prop := new (edges self) = Ok self.

#[global] Instance valid_dec self : Decision (valid self).
Proof. unfold valid. apply _. Defined.
End Tile.

(** *** The tiles of the game and their patterns (Common/tiles.py) *)

(** the recursive generator [_generate_tsuro_edges]; every call drops
    two ports, so that as many calls as there are ports are enough *)
Fixpoint generate_tsuro_edges_loop (fuel : nat) (remaining_ports : list PortID)
  : list (list (PortID * PortID)) :=
  match remaining_ports with
  | [] => [[]]
  | starting_port :: rest =>
      match fuel with
      | O => []
      | S fuel =>
          mjoin (imap (fun ending_port_idx ending_port =>
                         (fun rest_paired => (starting_port, ending_port) :: rest_paired)
                           <$> generate_tsuro_edges_loop fuel
                                 (take ending_port_idx rest
                                  ++ drop (S ending_port_idx) rest))
                      rest)
      end
  end.

Definition _generate_tsuro_edges (remaining_ports : list PortID)
  : list (list (PortID * PortID)) :=
  generate_tsuro_edges_loop (length remaining_ports) remaining_ports.

(** [set.add] on a set of tiles, whose members are told apart by
    [Tile.__eq__]: a tile equal to a member is not added *)
Fixpoint tile_set_add (members : list Tile.t) (tile : Tile.t) : Res (list Tile.t) :=
  match members with
  | [] => Ok [tile]
  | member :: members' =>
      same ← Tile.eq member tile;
      if (same : bool) then Ok members
      else (rest ← tile_set_add members' tile; Ok (member :: rest))
  end.

Fixpoint tile_set_of (members : list Tile.t) (edge_lists : list (list (PortID * PortID)))
  : Res (list Tile.t) :=
  match edge_lists with
  | [] => Ok members
  | x :: edge_lists' =>
      tile ← Tile.new x;
      members ← tile_set_add members tile;
      tile_set_of members edge_lists'
  end.

(** [make_tiles]: the members of the set, in the order in which they were
    added; the order in which [list(set(..))] lists them is Python's *)
Definition make_tiles : Res (list Tile.t) :=
  tile_set_of [] (_generate_tsuro_edges Port.all).

Definition NetworkPortID : Type := string.

Definition PORT_MAPPINGS : list (NetworkPortID * PortID) :=
  [("A", Port.TopLeft); ("B", Port.TopRight); ("C", Port.RightTop);
   ("D", Port.RightBottom); ("E", Port.BottomRight); ("F", Port.BottomLeft);
   ("G", Port.LeftBottom); ("H", Port.LeftTop)]%string.

Fixpoint network_port_id_to_port_id_loop (mappings : list (NetworkPortID * PortID))
    (port : NetworkPortID) : Res PortID :=
  match mappings with
  | [] => Raise ValueError
  | (network_port, port_id) :: mappings' =>
      if decide (network_port = port) then Ok port_id
      else network_port_id_to_port_id_loop mappings' port
  end.

Definition network_port_id_to_port_id (port : NetworkPortID) : Res PortID :=
  network_port_id_to_port_id_loop PORT_MAPPINGS port.

Fixpoint port_id_to_network_port_id_loop (mappings : list (NetworkPortID * PortID))
    (port : PortID) : Res NetworkPortID :=
  match mappings with
  | [] => Raise ValueError
  | (network_port, port_id) :: mappings' =>
      if decide (port_id = port) then Ok network_port
      else port_id_to_network_port_id_loop mappings' port
  end.

Definition port_id_to_network_port_id (port : PortID) : Res NetworkPortID :=
  port_id_to_network_port_id_loop PORT_MAPPINGS port.

(** the comprehension of [_json_tile_to_tile] *)
Fixpoint json_edges_to_edges (json_edges : list (NetworkPortID * NetworkPortID))
  : Res (list (PortID * PortID)) :=
  match json_edges with
  | [] => Ok []
  | (start, end_) :: json_edges' =>
      port1 ← network_port_id_to_port_id start;
      port2 ← network_port_id_to_port_id end_;
      edges ← json_edges_to_edges json_edges';
      Ok ((port1, port2) :: edges)
  end.

(** [_json_tile_to_tile] on the value of the key [edges] of a JSON tile *)
Definition _json_tile_to_tile (json_edges : list (NetworkPortID * NetworkPortID))
  : Res Tile.t :=
  edges ← json_edges_to_edges json_edges;
  Tile.new edges.

Section TileIndex.
(** the tiles that the lines of [Static/tsuro-tiles-index.json] stand for,
    in the order of the file; the file is not part of the sources *)
Context (static_tiles : list Tile.t).










End TileIndex.

(** ** Board positions (Common/board_position.py) *)

Definition MIN_BOARD_COORDINATE : Z := 0.
Definition MAX_BOARD_COORDINATE : Z := 9.

Module BoardPosition.
Record t : Type := mk { x : Z; y : Z }.

#[global] Instance eq_dec : EqDecision t.
Proof. solve_decision. Defined.

#[global] Instance countable : Countable t.
Proof.
  apply (inj_countable' (fun p => (x p, y p)) (fun c => mk c.1 c.2)).
  intros []; reflexivity.
Defined.

(** [BoardPosition.__init__] *)
Definition new (x y : Z) : Res t :=
  if decide (MIN_BOARD_COORDINATE <= x <= 9 /\ MIN_BOARD_COORDINATE <= y <= 9)
  then Ok (mk x y)
  else Raise ValueError.

Definition is_corner (self : t) : bool :=
  (bool_decide (x self = MIN_BOARD_COORDINATE)
   && (bool_decide (y self = MIN_BOARD_COORDINATE)
       || bool_decide (y self = MAX_BOARD_COORDINATE)))
  || (bool_decide (x self = MAX_BOARD_COORDINATE)
      && (bool_decide (y self = MIN_BOARD_COORDINATE)
          || bool_decide (y self = MAX_BOARD_COORDINATE))).

Definition is_edge (self : t) : bool :=
  bool_decide (x self ∈ [MIN_BOARD_COORDINATE; MAX_BOARD_COORDINATE])
  || bool_decide (y self ∈ [MIN_BOARD_COORDINATE; MAX_BOARD_COORDINATE]).

(** what [BoardPosition.__init__] guarantees of every position object *)
Definition valid (self : t) : Prop := new (x self) (y self) = Ok self.

#[global] Instance valid_dec self : Decision (valid self).
Proof. unfold valid. apply _. Defined.
End BoardPosition.

(** ** Moves (Common/moves.py) *)

Module InitialMove.
Record t : Type := mk {
  pos : BoardPosition.t;
  tile : Tile.t;
  port : PortID;
  player : ColorString
}.

(** the dataclass constructor with its [__post_init__]: a value that is
    an instance of [Tile] or of [BoardPosition] is one that its
    constructor built; the player is one of [AllColors] by typing *)
Definition new (pos : BoardPosition.t) (tile : Tile.t) (port : PortID)
    (player : ColorString) : Res t :=
  if decide (~ Tile.valid tile) then Raise ValueError
  else if decide (~ BoardPosition.valid pos) then Raise ValueError
  else if decide (port ∉ Port.all) then Raise ValueError
  else Ok (mk pos tile port player).
End InitialMove.

Module IntermediateMove.
Record t : Type := mk {
  tile : Tile.t;
  player : ColorString
}.

(** the dataclass constructor with its [__post_init__] *)
Definition new (tile : Tile.t) (player : ColorString) : Res t :=
  if decide (~ Tile.valid tile) then Raise ValueError
  else Ok (mk tile player).
End IntermediateMove.

(** ** Immutable board states (Common/board_state.py) *)

Module BoardState.
Record t : Type := mk {
  board : gmap BoardPosition.t Tile.t;
  live_players : gmap ColorString (BoardPosition.t * PortID)
}.

#[global] Instance eq_dec : EqDecision t.
Proof. solve_decision. Defined.

(** [BoardState.__init__] *)
Definition new : t := mk ∅ ∅.

Definition get_tile (self : t) (pos : BoardPosition.t) : option Tile.t :=
  board self !! pos.

Definition get_position_of_player (self : t) (player : ColorString)
  : Res (BoardPosition.t * PortID) :=
  match live_players self !! player with
  | Some pp => Ok pp
  | None => Error "player is not on the board"
  end.

Definition calculate_adjacent_position_of_player (self : t)
    (player : ColorString) : Res (option BoardPosition.t) :=
  match live_players self !! player with
  | None => Error "player is not a live player"
  | Some _ =>
      match get_position_of_player self player with
      | Error msg => Error msg
      | Raise e => Raise e
      | Ok (current_pos, current_port) =>
          if decide (current_port ∈ [Port.TopLeft; Port.TopRight]) then
            if decide (BoardPosition.y current_pos - 1 >= 0) then
              p ← BoardPosition.new (BoardPosition.x current_pos)
                                    (BoardPosition.y current_pos - 1);
              Ok (Some p)
            else Ok None
          else if decide (current_port ∈ [Port.RightTop; Port.RightBottom]) then
            if decide (BoardPosition.x current_pos + 1 <= MAX_BOARD_COORDINATE) then
              p ← BoardPosition.new (BoardPosition.x current_pos + 1)
                                    (BoardPosition.y current_pos);
              Ok (Some p)
            else Ok None
          else if decide (current_port ∈ [Port.BottomLeft; Port.BottomRight]) then
            if decide (BoardPosition.y current_pos + 1 <= MAX_BOARD_COORDINATE) then
              p ← BoardPosition.new (BoardPosition.x current_pos)
                                    (BoardPosition.y current_pos + 1);
              Ok (Some p)
            else Ok None
          else if decide (current_port ∈ [Port.LeftBottom; Port.LeftTop]) then
            if decide (BoardPosition.x current_pos - 1 >= MIN_BOARD_COORDINATE) then
              p ← BoardPosition.new (BoardPosition.x current_pos - 1)
                                    (BoardPosition.y current_pos);
              Ok (Some p)
            else Ok None
          else Error "could not match current_port to a direction"
      end
  end.

(** one conjunct [coordinate test and self.get_tile(BoardPosition(..)) is not None]
    of [surrounding_positions_are_empty]; [and] does not build the position
    when the coordinate test fails *)
Definition tile_present_at (self : t) (in_range : bool) (x y : Z) : Res bool :=
  if in_range then
    p ← BoardPosition.new x y;
    Ok (bool_decide (get_tile self p <> None))
  else Ok false.

Definition surrounding_positions_are_empty (self : t) (pos : BoardPosition.t)
  : Res bool :=
  let x := BoardPosition.x pos in
  let y := BoardPosition.y pos in
  c1 ← tile_present_at self (bool_decide (y - 1 >= MIN_BOARD_COORDINATE)) x (y - 1);
  if c1 : bool then Ok false else
  c2 ← tile_present_at self (bool_decide (x - 1 >= MIN_BOARD_COORDINATE)) (x - 1) y;
  if c2 : bool then Ok false else
  c3 ← tile_present_at self (bool_decide (y + 1 <= MAX_BOARD_COORDINATE)) x (y + 1);
  if c3 : bool then Ok false else
  c4 ← tile_present_at self (bool_decide (x + 1 <= MAX_BOARD_COORDINATE)) (x + 1) y;
  if c4 : bool then Ok false else
  Ok true.

Definition port_faces_interior (self : t) (pos : BoardPosition.t)
    (port : PortID) : bool :=
  if bool_decide (BoardPosition.x pos = MIN_BOARD_COORDINATE)
     && bool_decide (port ∈ [Port.LeftTop; Port.LeftBottom]) then false
  else if bool_decide (BoardPosition.y pos = MIN_BOARD_COORDINATE)
     && bool_decide (port ∈ [Port.TopLeft; Port.TopRight]) then false
  else if bool_decide (BoardPosition.x pos = MAX_BOARD_COORDINATE)
     && bool_decide (port ∈ [Port.RightBottom; Port.RightTop]) then false
  else if bool_decide (BoardPosition.y pos = MAX_BOARD_COORDINATE)
     && bool_decide (port ∈ [Port.BottomRight; Port.BottomLeft]) then false
  else true.

Definition with_change (self : t)
    (added_tile_pos : option (Tile.t * BoardPosition.t))
    (new_live_players : option (gmap ColorString (BoardPosition.t * PortID)))
  : t :=
  let new_board :=
    match added_tile_pos with
    | Some (tile, pos) => <[pos := tile]> (board self)
    | None => board self
    end in
  let new_live_players :=
    match new_live_players with
    | None => live_players self
    | Some lp => lp
    end in
  {| live_players := new_live_players; board := new_board |}.

Definition with_tile (self : t) (tile : Tile.t) (pos : BoardPosition.t) : t :=
  with_change self (Some (tile, pos)) None.

Definition with_live_players (self : t)
    (new_live_players : gmap ColorString (BoardPosition.t * PortID)) : t :=
  with_change self None (Some new_live_players).
End BoardState.

(** ** Physical constraints (Common/board_constraint.py) *)

Module PhysicalConstraintChecker.
Definition is_valid_initial_position (board_state : BoardState.t)
    (pos : BoardPosition.t) : Res unit :=
  if decide (BoardState.get_tile board_state pos <> None) then
    Error "cannot place tile at position since there is already a tile at that position"
  else if negb (BoardPosition.is_edge pos) then
    Error "cannot make an initial move at position since it is not on the edge"
  else
    match BoardState.surrounding_positions_are_empty board_state pos with
    | Raise e => Raise e
    | Error msg => Error msg
    | Ok false =>
        Error "cannot make an initial move at position since the surrounding tiles are not all empty"
    | Ok true => Ok tt
    end.

Definition is_valid_initial_port (board_state : BoardState.t)
    (pos : BoardPosition.t) (port : PortID) : Res unit :=
  match is_valid_initial_position board_state pos with
  | Error msg => Error msg
  | Raise e => Raise e
  | Ok _ =>
      if negb (BoardState.port_faces_interior board_state pos port) then
        Error "cannot make an initial move at position, port since it does not face the interior of the board"
      else Ok tt
  end.
End PhysicalConstraintChecker.

(** ** Board observers (Common/board_observer.py) *)

Module LoggingObserver.
Record t : Type := mk {
  entered_loop : list ColorString;
  exited_board : list ColorString
}.

Definition new : t := mk [] [].

Definition player_entered_loop (self : t) (player : ColorString) : t :=
  mk (entered_loop self ++ [player]) (exited_board self).

Definition player_exited_board (self : t) (player : ColorString) : t :=
  mk (entered_loop self) (exited_board self ++ [player]).
End LoggingObserver.

(** ** The mutable board (Common/board.py)

    A [Board] object is its current board state and its list of observers.
    The observers are [LoggingObserver]s (the base [BoardObserver] ignores
    every event); an observer object is identified by its index in the
    list, which is how [remove_observer] finds it again.  [validate_types]
    is the identity unless the test environment switches it on. *)

Module Board.
Record t : Type := mk {
  _board_state : BoardState.t;
  _observers : list LoggingObserver.t
}.

(** the budget of the [while True] loop of [_move_player_along_path]:
    one iteration for each (position, port) pair of the grid and the
    iteration that meets a pair again *)
Definition PATH_BUDGET : nat := 10 * 10 * 8 + 1.

Definition set_board_state (self : t) (board_state : BoardState.t) : t :=
  mk board_state (_observers self).

(** [atomic]: [deepcopy] of a board state is the board state itself *)
Definition atomic {A : Type} (func : t -> A -> Res unit * t)
    (self : t) (arg : A) : Res unit * t :=
  let copied_board_state := _board_state self in
  let '(ret, self) := func self arg in
  if is_error ret then (ret, set_board_state self copied_board_state)
  else (ret, self).

(** [Board.__init__] *)
Definition new (board_state : option BoardState.t) : t :=
  mk (default BoardState.new board_state) [].

Definition live_players (self : t) : gmap ColorString (BoardPosition.t * PortID) :=
  BoardState.live_players (_board_state self).

Definition add_observer (self : t) (observer : LoggingObserver.t) : t :=
  mk (_board_state self) (_observers self ++ [observer]).

Definition remove_observer (self : t) (observer : nat) : t :=
  mk (_board_state self) (delete observer (_observers self)).

Definition get_board_state (self : t) : BoardState.t := _board_state self.

Definition validate_initial_move (self : t) (move : InitialMove.t) : Res unit :=
  if decide (BoardState.live_players (_board_state self) !! InitialMove.player move <> None)
  then Error "cannot place player since the player is already on the board"
  else
    match PhysicalConstraintChecker.is_valid_initial_position
            (_board_state self) (InitialMove.pos move) with
    | Error msg => Error msg
    | Raise e => Raise e
    | Ok _ =>
        match PhysicalConstraintChecker.is_valid_initial_port
                (_board_state self) (InitialMove.pos move) (InitialMove.port move) with
        | Error msg => Error msg
        | Raise e => Raise e
        | Ok _ => Ok tt
        end
    end.

Definition remove_player (self : t) (player : ColorString) : Res unit * t :=
  match BoardState.live_players (_board_state self) !! player with
  | None => (Raise KeyError, self) (* [PMap.remove] of a missing key *)
  | Some _ =>
      (Ok tt,
       set_board_state self
         (BoardState.with_live_players (_board_state self)
            (delete player (BoardState.live_players (_board_state self)))))
  end.

(** the body of the [while True] loop of [_move_player_along_path] *)
Fixpoint move_player_along_path_loop (budget : nat)
    (seen_pos_port : gset (BoardPosition.t * PortID))
    (self : t) (player : ColorString) : Res bool * t :=
  match budget with
  | O => (Raise Diverges, self)
  | S budget =>
      match BoardState.get_position_of_player (_board_state self) player with
      | Error msg => (Error ("failed to move player along path: " +:+ msg), self)
      | Raise e => (Raise e, self)
      | Ok (pos, port) =>
          if decide ((pos, port) ∈ seen_pos_port) then
            (Ok true,
             mk (_board_state self)
                ((fun observer => LoggingObserver.player_entered_loop observer player)
                   <$> _observers self))
          else
            let seen_pos_port := seen_pos_port ∪ {[ (pos, port) ]} in
            match BoardState.calculate_adjacent_position_of_player
                    (_board_state self) player with
            | Error _ =>
                (* the message is built from [r.error()] of the ok result [r] *)
                (Raise ResultMisuseException, self)
            | Raise e => (Raise e, self)
            | Ok None => (Ok true, self)
            | Ok (Some next_pos) =>
                match BoardState.get_tile (_board_state self) next_pos with
                | None => (Ok false, self)
                | Some next_tile =>
                    match Port.get_adjoining_port port with
                    | Error msg => (Error msg, self)
                    | Raise e => (Raise e, self)
                    | Ok next_port =>
                        match Tile.get_port_connected_to next_tile next_port with
                        | Error msg => (Error msg, self)
                        | Raise e => (Raise e, self)
                        | Ok next_next_port =>
                            move_player_along_path_loop budget seen_pos_port
                              (set_board_state self
                                 (BoardState.with_live_players (_board_state self)
                                    (<[player := (next_pos, next_next_port)]>
                                       (BoardState.live_players (_board_state self)))))
                              player
                        end
                    end
                end
            end
      end
  end.

Definition _move_player_along_path (self : t) (player : ColorString)
  : Res bool * t :=
  move_player_along_path_loop PATH_BUDGET ∅ self player.

(** the first [for] loop of [_move_all_players_along_paths] *)
Fixpoint move_all_players_loop (players : list ColorString)
    (to_remove : list ColorString) (self : t)
  : Res (list ColorString) * t :=
  match players with
  | [] => (Ok to_remove, self)
  | player :: players =>
      match _move_player_along_path self player with
      | (Error msg, self) => (Error msg, self)
      | (Raise e, self) => (Raise e, self)
      | (Ok v, self) =>
          move_all_players_loop players
            (if v then to_remove ++ [player] else to_remove) self
      end
  end.

(** the second [for] loop of [_move_all_players_along_paths] *)
Fixpoint remove_players_loop (to_remove : list ColorString) (self : t)
  : Res unit * t :=
  match to_remove with
  | [] => (Ok tt, self)
  | player :: to_remove =>
      match remove_player self player with
      | (Ok _, self) =>
          remove_players_loop to_remove
            (mk (_board_state self)
                ((fun observer => LoggingObserver.player_exited_board observer player)
                   <$> _observers self))
      | (r, self) => (r, self)
      end
  end.

(** the players are visited in the order of the keys of the live-player
    map at the start of the pass *)
Definition _move_all_players_along_paths (self : t) : Res unit * t :=
  match move_all_players_loop
          (map_to_list (BoardState.live_players (_board_state self))).*1 [] self with
  | (Error msg, self) => (Error msg, self)
  | (Raise e, self) => (Raise e, self)
  | (Ok to_remove, self) => remove_players_loop to_remove self
  end.

Definition initial_move_with_scissors : t -> InitialMove.t -> Res unit * t :=
  atomic (fun self move =>
    let self :=
      set_board_state self
        (BoardState.with_change (_board_state self)
           (Some (InitialMove.tile move, InitialMove.pos move))
           (Some (<[InitialMove.player move :=
                      (InitialMove.pos move, InitialMove.port move)]>
                    (BoardState.live_players (_board_state self))))) in
    _move_all_players_along_paths self).

Definition initial_move : t -> InitialMove.t -> Res unit * t :=
  atomic (fun self move =>
    match validate_initial_move self move with
    | Error msg => (Error msg, self)
    | Raise e => (Raise e, self)
    | Ok _ => initial_move_with_scissors self move
    end).

Definition validate_intermediate_move (self : t) (move : IntermediateMove.t)
  : Res unit :=
  if decide (BoardState.live_players (_board_state self)
               !! IntermediateMove.player move = None)
  then Error "cannot place a tile for player since they are not alive"
  else Ok tt.

(** the loop [for player in temp_logging_observer.entered_loop] of
    [intermediate_move]; [remove_player] is not guarded there *)
Fixpoint remove_looped_players (players : list ColorString) (self : t)
  : Res unit * t :=
  match players with
  | [] => (Ok tt, self)
  | player :: players =>
      match remove_player self player with
      | (Ok _, self) => remove_looped_players players self
      | (r, self) => (r, self)
      end
  end.

Definition intermediate_move : t -> IntermediateMove.t -> Res unit * t :=
  atomic (fun self move =>
    match validate_intermediate_move self move with
    | Error msg => (Error msg, self)
    | Raise e => (Raise e, self)
    | Ok _ =>
        match BoardState.calculate_adjacent_position_of_player
                (_board_state self) (IntermediateMove.player move) with
        | Error msg => (Error ("cannot place tile for player: " +:+ msg), self)
        | Raise e => (Raise e, self)
        | Ok None =>
            (Error "cannot place tile for player since it would go off the edge of the board (this should never happen!)", self)
        | Ok (Some pos) =>
            if decide (BoardState.get_tile (_board_state self) pos <> None) then
              (Error "cannot place for player since it would be on top of an existing tile (this shouldnever happen!)", self)
            else
              let orig_board_state := _board_state self in
              let temp_logging_observer := length (_observers self) in
              let self := add_observer self LoggingObserver.new in
              let self :=
                set_board_state self
                  (BoardState.with_tile (_board_state self)
                     (IntermediateMove.tile move) pos) in
              match _move_all_players_along_paths self with
              | (Error msg, self) => (Error msg, self)
              | (Raise e, self) => (Raise e, self)
              | (Ok _, self) =>
                  let entered_loop :=
                    LoggingObserver.entered_loop
                      (default LoggingObserver.new
                         (_observers self !! temp_logging_observer)) in
                  match entered_loop with
                  | [] => (Ok tt, remove_observer self temp_logging_observer)
                  | _ :: _ =>
                      match remove_looped_players entered_loop
                              (set_board_state self orig_board_state) with
                      | (Ok _, self) =>
                          (Ok tt, remove_observer self temp_logging_observer)
                      | (r, self) => (r, self)
                      end
                  end
              end
        end
    end).

Definition place_tile_at_index_with_scissors
  : t -> Tile.t * BoardPosition.t -> Res unit * t :=
  atomic (fun self '(tile, pos) =>
    let self :=
      set_board_state self
        (BoardState.with_tile (_board_state self) tile pos) in
    _move_all_players_along_paths self).
(** the loop of [create_board_from_initial_placements] *)
Fixpoint initial_placements_loop (initial_placements : list InitialMove.t)
    (board : t) : Res t :=
  match initial_placements with
  | [] => Ok board
  | move :: initial_placements =>
      match initial_move board move with
      | (Error msg, _) =>
          Error ("failed to create board from set of initial placements: " +:+ msg)
      | (Raise e, _) => Raise e
      | (Ok _, board) => initial_placements_loop initial_placements board
      end
  end.

Definition create_board_from_initial_placements
    (initial_placements : list InitialMove.t) : Res t :=
  initial_placements_loop initial_placements (new None).

(** the loop of [create_board_from_moves] *)
Fixpoint moves_loop (moves : list IntermediateMove.t) (board : t) : Res t :=
  match moves with
  | [] => Ok board
  | move :: moves =>
      match intermediate_move board move with
      | (Error msg, _) => Error ("failed to create board from moves: " +:+ msg)
      | (Raise e, _) => Raise e
      | (Ok _, board) => moves_loop moves board
      end
  end.

Definition create_board_from_moves (initial_placements : list InitialMove.t)
    (moves : list IntermediateMove.t) : Res t :=
  match create_board_from_initial_placements initial_placements with
  | Error msg => Error msg
  | Raise e => Raise e
  | Ok board => moves_loop moves board
  end.
End Board.

(** ** The rule checker (Common/rules.py) *)

Definition EXPECTED_TILE_COUNT_INITIAL_MOVE : nat := 3.
Definition EXPECTED_TILE_COUNT_INTERMEDIATE_MOVE : nat := 2.
Definition LOOP_ERROR : string := "loopy move when this does not create a loop".
Definition SUICIDE_ERROR : string := "suicidal move when this does not cause a suicide".

Module RuleChecker.
(** [tile not in tile_choices]: list membership compares with [Tile.__eq__] *)
Fixpoint tile_in (tile : Tile.t) (tile_choices : list Tile.t) : Res bool :=
  match tile_choices with
  | [] => Ok false
  | choice :: tile_choices =>
      same ← Tile.eq choice tile;
      if same : bool then Ok true else tile_in tile tile_choices
  end.

Definition check_valid_move_params (tile_choices : list Tile.t)
    (tile : Tile.t) (expected : nat) : Res unit :=
  if decide (length tile_choices <> expected) then
    Error "cannot validate move with the given number of tile choices"
  else
    found ← tile_in tile tile_choices;
    if negb found then
      Error "tile is not in the list of tiles the player was given"
    else Ok tt.

Definition validate_initial_move (board_state : BoardState.t)
    (tile_choices : list Tile.t) (move : InitialMove.t) : Res unit :=
  match check_valid_move_params tile_choices (InitialMove.tile move)
          EXPECTED_TILE_COUNT_INITIAL_MOVE with
  | Error msg => Error msg
  | Raise e => Raise e
  | Ok _ =>
      let board := Board.new (Some board_state) in
      Board.validate_initial_move board move
  end.

Definition move_creates_loop (board_state : BoardState.t)
    (move : IntermediateMove.t) : Res bool :=
  let logging_observer := 0%nat in
  let board := Board.new (Some board_state) in
  let board := Board.add_observer board LoggingObserver.new in
  match Board.intermediate_move board move with
  | (Error msg, _) => Error msg
  | (Raise e, _) => Raise e
  | (Ok _, board) =>
      Ok (0 <? length (LoggingObserver.entered_loop
                         (default LoggingObserver.new
                            (Board._observers board !! logging_observer))))%nat
  end.

Definition is_move_suicidal (board_state : BoardState.t)
    (move : IntermediateMove.t) : Res bool :=
  let logging_observer := 0%nat in
  if decide (BoardState.live_players board_state
               !! IntermediateMove.player move = None) then
    Error "player is not alive thus the move cannot be suicidal"
  else
    let board := Board.new (Some board_state) in
    let board := Board.add_observer board LoggingObserver.new in
    match Board.intermediate_move board move with
    | (Error msg, _) => Error msg
    | (Raise e, _) => Raise e
    | (Ok _, board) =>
        Ok (bool_decide (Board.live_players board
                           !! IntermediateMove.player move = None)
            && (length (LoggingObserver.entered_loop
                          (default LoggingObserver.new
                             (Board._observers board !! logging_observer))) <=? 0)%nat)
    end.

Definition is_move_illegal (board_state : BoardState.t)
    (move : IntermediateMove.t) : Res bool :=
  match is_move_suicidal board_state move with
  | Error msg => Error msg
  | Raise e => Raise e
  | Ok true => Ok true
  | Ok false => move_creates_loop board_state move
  end.

Section is_legal_for_condition.
Context (legality_check : BoardState.t -> IntermediateMove.t -> Res bool)
        (board_state : BoardState.t) (move : IntermediateMove.t)
        (error_message : string).

(** the inner loop over the rotations of one tile choice; the
    constructor of [IntermediateMove] cannot fail on a tile that
    [rotate] returned *)
Fixpoint rotated_choices_loop (rotations : list Tile.t) : Res unit :=
  match rotations with
  | [] => Ok tt
  | rotated_tile_choice :: rotations =>
      match legality_check board_state
              (IntermediateMove.mk rotated_tile_choice
                 (IntermediateMove.player move)) with
      | Error msg => Error msg
      | Raise e => Raise e
      | Ok false => Error ("player chose a " +:+ error_message)
      | Ok true => rotated_choices_loop rotations
      end
  end.

(** the outer loop over the tile choices *)
Fixpoint tile_choices_loop (tile_choices : list Tile.t) : Res unit :=
  match tile_choices with
  | [] => Ok tt
  | tile_choice :: tile_choices =>
      rotations ← Tile.all_rotations tile_choice;
      _ ← rotated_choices_loop rotations;
      tile_choices_loop tile_choices
  end.

Definition is_legal_for_condition (tile_choices : list Tile.t) : Res unit :=
  match legality_check board_state move with
  | Error msg => Error msg
  | Raise e => Raise e
  | Ok true => tile_choices_loop tile_choices
  | Ok false => Ok tt
  end.
End is_legal_for_condition.

Definition validate_move (board_state : BoardState.t)
    (tile_choices : list Tile.t) (move : IntermediateMove.t) : Res unit :=
  match check_valid_move_params tile_choices (IntermediateMove.tile move)
          EXPECTED_TILE_COUNT_INTERMEDIATE_MOVE with
  | Error msg => Error msg
  | Raise e => Raise e
  | Ok _ =>
      let board := Board.new (Some board_state) in
      match Board.validate_intermediate_move board move with
      | Error msg => Error msg
      | Raise e => Raise e
      | Ok _ =>
          match is_legal_for_condition move_creates_loop board_state move
                  LOOP_ERROR tile_choices with
          | Error msg => Error msg
          | Raise e => Raise e
          | Ok _ =>
              match is_legal_for_condition is_move_suicidal board_state move
                      SUICIDE_ERROR tile_choices with
              | Error msg => Error msg
              | Raise e => Raise e
              | Ok _ => Ok tt
              end
          end
      end
  end.
End RuleChecker.

(** ** Strategies (Player/first_s.py, Player/second-s.py, Player/third_s.py) *)

(** Python's [range(lo, hi)] *)
Definition range (lo hi : Z) : list Z := seqZ lo (hi - lo).

Module FirstS.
(** the loop of [_find_valid_port] *)
Fixpoint find_valid_port_loop (board_state : BoardState.t) (pos : BoardPosition.t)
    (ports : list PortID) : Res PortID :=
  match ports with
  | [] => Error "No valid ports on given tile."
  | port :: ports =>
      match PhysicalConstraintChecker.is_valid_initial_port board_state pos port with
      | Ok _ => Ok port
      | Error _ => find_valid_port_loop board_state pos ports
      | Raise e => Raise e
      end
  end.

Definition _find_valid_port (board_state : BoardState.t) (pos : BoardPosition.t)
  : Res PortID :=
  find_valid_port_loop board_state pos Port.all.

Definition _find_valid_move (board_state : BoardState.t) (pos : BoardPosition.t)
  : Res (BoardPosition.t * PortID) :=
  match PhysicalConstraintChecker.is_valid_initial_position board_state pos with
  | Error msg => Error msg
  | Raise e => Raise e
  | Ok _ =>
      match _find_valid_port board_state pos with
      | Error msg => Error msg
      | Raise e => Raise e
      | Ok port => Ok (pos, port)
      end
  end.

(** one of the four [for] loops of [generate_first_move] over the cells of
    a side of the board: the first valid move, or [None] when the loop
    ends without one *)
Fixpoint side_loop (board_state : BoardState.t) (cells : list (Z * Z))
  : Res (option (BoardPosition.t * PortID)) :=
  match cells with
  | [] => Ok None
  | (x, y) :: cells =>
      pos ← BoardPosition.new x y;
      match _find_valid_move board_state pos with
      | Ok move => Ok (Some move)
      | Error _ => side_loop board_state cells
      | Raise e => Raise e
      end
  end.

Definition generate_first_move (tiles : list Tile.t) (board_state : BoardState.t)
  : Res (BoardPosition.t * Tile.t * PortID) :=
  if decide (length tiles <> EXPECTED_TILE_COUNT_INITIAL_MOVE) then
    Error ("Strategy.generate_first_move given " +:+ pretty (length tiles)
           +:+ " (expected " +:+ pretty EXPECTED_TILE_COUNT_INITIAL_MOVE +:+ ")")
  else
    match tiles !! 2%nat with
    | None => Raise IndexError
    | Some tile =>
        let top :=
          (fun x => (x, MIN_BOARD_COORDINATE))
            <$> range (MIN_BOARD_COORDINATE + 1) (MAX_BOARD_COORDINATE + 1) in
        let right :=
          (fun y => (MAX_BOARD_COORDINATE, y))
            <$> range MIN_BOARD_COORDINATE (MAX_BOARD_COORDINATE + 1) in
        let bottom :=
          (fun x => (x, MAX_BOARD_COORDINATE))
            <$> reverse (range MIN_BOARD_COORDINATE (MAX_BOARD_COORDINATE + 1)) in
        let left :=
          (fun y => (MIN_BOARD_COORDINATE, y))
            <$> reverse (range MIN_BOARD_COORDINATE (MAX_BOARD_COORDINATE + 1)) in
        r_move ← side_loop board_state top;
        match r_move with
        | Some (pos, port) => Ok (pos, tile, port)
        | None =>
            r_move ← side_loop board_state right;
            match r_move with
            | Some (pos, port) => Ok (pos, tile, port)
            | None =>
                r_move ← side_loop board_state bottom;
                match r_move with
                | Some (pos, port) => Ok (pos, tile, port)
                | None =>
                    r_move ← side_loop board_state left;
                    match r_move with
                    | Some (pos, port) => Ok (pos, tile, port)
                    | None => Error "Failed to find a valid initial move!"
                    end
                end
            end
        end
    end.

Definition generate_move (tiles : list Tile.t) (board_state : BoardState.t)
  : Res Tile.t :=
  if decide (length tiles <> EXPECTED_TILE_COUNT_INTERMEDIATE_MOVE) then
    Error ("Strategy.generate_move given " +:+ pretty (length tiles)
           +:+ " (expected " +:+ pretty EXPECTED_TILE_COUNT_INTERMEDIATE_MOVE +:+ ")")
  else
    match tiles !! 0%nat with
    | None => Raise IndexError
    | Some tile => Ok tile
    end.
End FirstS.

(** the two nested loops that [SecondS.generate_move] and
    [ThirdS.generate_move] share: the first rotation of a tile that
    [is_move_illegal] calls legal; [color] is the attribute [self.color],
    which [set_color] sets *)
Fixpoint first_legal_rotation (color : option ColorString)
    (board_state : BoardState.t) (rotations : list Tile.t) : Res (option Tile.t) :=
  match rotations with
  | [] => Ok None
  | rot_tile :: rotations =>
      match color with
      | None => Raise AttributeError
      | Some player =>
          move ← IntermediateMove.new rot_tile player;
          match RuleChecker.is_move_illegal board_state move with
          | Raise e => Raise e
          | Ok false => Ok (Some rot_tile)
          | Ok true | Error _ => first_legal_rotation color board_state rotations
          end
      end
  end.

Fixpoint first_legal_tile (color : option ColorString)
    (board_state : BoardState.t) (tiles : list Tile.t) : Res (option Tile.t) :=
  match tiles with
  | [] => Ok None
  | tile :: tiles =>
      rotations ← Tile.all_rotations tile;
      found ← first_legal_rotation color board_state rotations;
      match found with
      | Some rot_tile => Ok (Some rot_tile)
      | None => first_legal_tile color board_state tiles
      end
  end.

Module SecondS.
(** [generate_first_move] is inherited from [FirstS] *)
Definition generate_first_move := FirstS.generate_first_move.

Definition generate_move (color : option ColorString) (tiles : list Tile.t)
    (board_state : BoardState.t) : Res Tile.t :=
  if decide (length tiles <> EXPECTED_TILE_COUNT_INTERMEDIATE_MOVE) then
    Error ("Strategy.generate_move given " +:+ pretty (length tiles)
           +:+ " (expected " +:+ pretty EXPECTED_TILE_COUNT_INTERMEDIATE_MOVE +:+ ")")
  else
    found ← first_legal_tile color board_state tiles;
    match found with
    | Some rot_tile => Ok rot_tile
    | None =>
        match tiles !! 0%nat with
        | None => Raise IndexError
        | Some tile => Ok tile
        end
    end.
End SecondS.

Module ThirdS.
Definition _find_valid_port (board_state : BoardState.t) (pos : BoardPosition.t)
  : Res PortID :=
  FirstS.find_valid_port_loop board_state pos
    (take 8 ([Port.TopLeft] ++ reverse Port.all)).

Definition _find_valid_move (board_state : BoardState.t) (pos : BoardPosition.t)
  : Res (BoardPosition.t * PortID) :=
  match PhysicalConstraintChecker.is_valid_initial_position board_state pos with
  | Error msg => Error msg
  | Raise e => Raise e
  | Ok _ =>
      match _find_valid_port board_state pos with
      | Error msg => Error msg
      | Raise e => Raise e
      | Ok port => Ok (pos, port)
      end
  end.

(** the loop of [_first_legal_posn_on_vertical_side] and of
    [_first_legal_posn_on_horizontal_side], over the cells of the side *)
Fixpoint side_loop (board_state : BoardState.t) (tile : Tile.t)
    (cells : list (Z * Z)) : Res (option (BoardPosition.t * Tile.t * PortID)) :=
  match cells with
  | [] => Ok None
  | (x, y) :: cells =>
      pos ← BoardPosition.new x y;
      match _find_valid_move board_state pos with
      | Ok (pos, port) => Ok (Some (pos, tile, port))
      | Error _ => side_loop board_state tile cells
      | Raise e => Raise e
      end
  end.

Definition _first_legal_posn_on_vertical_side (x : Z) (posn_range_y : list Z)
    (board_state : BoardState.t) (tile : Tile.t)
  : Res (option (BoardPosition.t * Tile.t * PortID)) :=
  side_loop board_state tile ((fun y => (x, y)) <$> posn_range_y).

Definition _first_legal_posn_on_horizontal_side (y : Z) (posn_range_x : list Z)
    (board_state : BoardState.t) (tile : Tile.t)
  : Res (option (BoardPosition.t * Tile.t * PortID)) :=
  side_loop board_state tile ((fun x => (x, y)) <$> posn_range_x).

Definition generate_first_move (tiles : list Tile.t) (board_state : BoardState.t)
  : Res (BoardPosition.t * Tile.t * PortID) :=
  match tiles !! 2%nat with
  | None => Raise IndexError
  | Some tile =>
      move ← _first_legal_posn_on_vertical_side MIN_BOARD_COORDINATE
                (range (MIN_BOARD_COORDINATE + 1) MAX_BOARD_COORDINATE)
                board_state tile;
      move ← match move with
             | Some _ => Ok move
             | None =>
                 _first_legal_posn_on_horizontal_side MAX_BOARD_COORDINATE
                   (range MIN_BOARD_COORDINATE (MAX_BOARD_COORDINATE + 1))
                   board_state tile
             end;
      move ← match move with
             | Some _ => Ok move
             | None =>
                 _first_legal_posn_on_vertical_side MAX_BOARD_COORDINATE
                   (reverse (range MIN_BOARD_COORDINATE MAX_BOARD_COORDINATE))
                   board_state tile
             end;
      move ← match move with
             | Some _ => Ok move
             | None =>
                 _first_legal_posn_on_horizontal_side MIN_BOARD_COORDINATE
                   (reverse (range (MIN_BOARD_COORDINATE + 1) MAX_BOARD_COORDINATE))
                   board_state tile
             end;
      match move with
      | Some move => Ok move
      | None => Error "Failed to find a valid initial move!"
      end
  end.

Definition generate_move (color : option ColorString) (tiles : list Tile.t)
    (board_state : BoardState.t) : Res Tile.t :=
  found ← first_legal_tile color board_state (reverse tiles);
  match found with
  | Some rot_tile => Ok rot_tile
  | None =>
      match tiles !! 1%nat with
      | None => Raise IndexError
      | Some tile => Ok tile
      end
  end.
End ThirdS.

(** ** Board states as objects

    [BoardState] objects live in a store and are named by references, so
    that "the old object is unchanged" can be said.  The two maps held by
    an object are pyrsistent maps, which are values. *)

Module BoardStateObject.
Abbreviation store := (list BoardState.t) (only parsing).
Abbreviation ref := nat (only parsing).

(** [BoardState()] *)
Definition new (σ : store) : ref * store :=
  (length σ, σ ++ [BoardState.new]).

Definition get_tile (σ : store) (self : ref) (pos : BoardPosition.t)
  : option (option Tile.t) :=
  s ← σ !! self;
  Some (BoardState.get_tile s pos).

Definition live_players (σ : store) (self : ref)
  : option (gmap ColorString (BoardPosition.t * PortID)) :=
  s ← σ !! self;
  Some (BoardState.live_players s).

(** the assignments [board_state._live_players = ..] and
    [board_state._board = ..] *)
Definition set_live_players (σ : store) (r : ref)
    (v : gmap ColorString (BoardPosition.t * PortID)) : store :=
  alter (fun s => BoardState.mk (BoardState.board s) v) r σ.

Definition set_board (σ : store) (r : ref)
    (v : gmap BoardPosition.t Tile.t) : store :=
  alter (fun s => BoardState.mk v (BoardState.live_players s)) r σ.

Definition with_change (σ : store) (self : ref)
    (added_tile_pos : option (Tile.t * BoardPosition.t))
    (new_live_players : option (gmap ColorString (BoardPosition.t * PortID)))
  : option (ref * store) :=
  s ← σ !! self;
  let new_board :=
    match added_tile_pos with
    | Some (tile, pos) => <[pos := tile]> (BoardState.board s)
    | None => BoardState.board s
    end in
  let new_live_players :=
    match new_live_players with
    | None => BoardState.live_players s
    | Some lp => lp
    end in
  let '(board_state, σ) := new σ in
  let σ := set_live_players σ board_state new_live_players in
  let σ := set_board σ board_state new_board in
  Some (board_state, σ).

Definition with_tile (σ : store) (self : ref) (tile : Tile.t)
    (pos : BoardPosition.t) : option (ref * store) :=
  with_change σ self (Some (tile, pos)) None.

Definition with_live_players (σ : store) (self : ref)
    (new_live_players : gmap ColorString (BoardPosition.t * PortID))
  : option (ref * store) :=
  with_change σ self None (Some new_live_players).
End BoardStateObject.

(** ** The referee (Admin/referee.py)

    The players are outside the program.  What the referee sees of a call
    to a player, made through [silenced_object] and
    [_handle_player_timeout], is a [Reply]; the calls read and change a
    world the referee knows nothing about.  No referee observer is
    registered. *)

Inductive Reply (A : Type) : Type :=
| Answer (a : A)         (* the call returned [ok(a)] *)
| Failure (msg : string) (* it returned [error(msg)]: also an exception or a
                            timeout turned into an error by the wrapper *)
| Escaped                (* an exception passed the wrapper and was caught by
                            [_handle_player_timeout] *)
| NoResult.              (* it returned something that is not a [Result] of
                            the expected shape *)

Arguments Answer {A} a.
Arguments Failure {A} msg.
Arguments Escaped {A}.
Arguments NoResult {A}.

Definition GameResult : Type := list (gset ColorString) * gset ColorString.

Module TileIterator.
(** an iterator of tiles: what it yields at each call of [next], and how
    many tiles were drawn so far *)
Record t : Type := mk {
  source : nat -> option Tile.t;
  drawn : nat
}.

Definition next (self : t) : Res Tile.t * t :=
  match source self (drawn self) with
  | Some tile => (Ok tile, mk (source self) (S (drawn self)))
  | None => (Raise StopIteration, self)
  end.
End TileIterator.

(** a [RuleChecker] object has no fields; it is told from another one by
    its identity *)
Inductive RuleCheckerObject : Type := RuleCheckerAt (identity : nat).

Module Referee.
Section Referee.
Context {Player : Type} `{EqDecision Player}.
Context {World : Type}.
Context (player_set_color :
           Player -> ColorString -> World -> Reply unit * World).
Context (player_set_players :
           Player -> list ColorString -> World -> Reply unit * World).
Context (player_generate_first_move :
           Player -> list Tile.t -> BoardState.t -> World ->
           Reply (BoardPosition.t * Tile.t * PortID) * World).
Context (player_generate_move :
           Player -> list Tile.t -> BoardState.t -> World ->
           Reply Tile.t * World).

Record t : Type := mk {
  _players : list (ColorString * Player);
  _rule_checker : option RuleCheckerObject;
  _tile_iterator : option TileIterator.t;
  _leaderboard : list (gset ColorString);
  _cheaters : gset ColorString
}.

(** [Referee.__init__] *)
Definition new : t := mk [] None None [] ∅.

Definition add_cheater (self : t) (color : ColorString) : t :=
  mk (_players self) (_rule_checker self) (_tile_iterator self)
     (_leaderboard self) (_cheaters self ∪ {[ color ]}).

Definition set_players_field (self : t) (players : list (ColorString * Player)) : t :=
  mk players (_rule_checker self) (_tile_iterator self)
     (_leaderboard self) (_cheaters self).

Definition set_leaderboard (self : t) (leaderboard : list (gset ColorString)) : t :=
  mk (_players self) (_rule_checker self) (_tile_iterator self)
     leaderboard (_cheaters self).

Definition set_players (self : t) (players : list Player)
  : Res (list ColorString) * t :=
  if decide (_players self <> []) then
    (Error "players have already been set for this game.", self)
  else if decide (length players < 3 \/ 5 < length players)%nat then
    (Error "there must be between 3 and 5 players.", self)
  else if decide (length (remove_dups players) <> length players) then
    (Error "the given set of players contains duplicates (or players that do not implement __hash__, __eq__)", self)
  else
    let assigned_colors := take (length players) AllColors in
    (Ok assigned_colors, set_players_field self (zip assigned_colors players)).

Definition set_rule_checker (self : t) (rule_checker : RuleCheckerObject) : t :=
  mk (_players self) (Some rule_checker) (_tile_iterator self)
     (_leaderboard self) (_cheaters self).

Definition set_tile_iterator (self : t) (tile_iterator : TileIterator.t) : t :=
  mk (_players self) (_rule_checker self) (Some tile_iterator)
     (_leaderboard self) (_cheaters self).

(** [_handle_player_timeout]: the effect on the referee of a call whose
    outcome is [reply]; the value handed back is [reply], [None] when the
    exception escaped *)
Definition _handle_player_timeout {A} (self : t) (color : ColorString)
    (reply : Reply A) : t :=
  match reply with
  | Escaped => add_cheater self color
  | _ => self
  end.

(** the loop of [_initialize_players]; [others] is
    [list(set(self._players.keys()) - {color})] *)
Fixpoint initialize_players_loop (items : list (ColorString * Player))
    (self : t) (w : World) : t * World :=
  match items with
  | [] => (self, w)
  | (color, player) :: items =>
      let '(reply, w) := player_set_color player color w in
      let self := _handle_player_timeout self color reply in
      let others :=
        elements (list_to_set (_players self).*1 ∖ {[ color ]} : gset ColorString) in
      let '(reply, w) := player_set_players player others w in
      let self := _handle_player_timeout self color reply in
      initialize_players_loop items self w
  end.

Definition _initialize_players (self : t) (w : World) : t * World :=
  initialize_players_loop (_players self) self w.

Definition _generate_game_result (self : t) (board : Board.t)
  : Res GameResult * t :=
  let self :=
    set_leaderboard self (_leaderboard self ++ [dom (Board.live_players board)]) in
  let leaderboard :=
    filter (fun x : gset ColorString => x <> ∅) (reverse (_leaderboard self)) in
  (Ok (leaderboard, _cheaters self), self).

(** the loop of [_remove_cheaters] *)
Fixpoint remove_cheaters_loop (cheaters : list ColorString)
    (self : t) (board : Board.t) : Res unit * t * Board.t :=
  match cheaters with
  | [] => (Ok tt, self, board)
  | player :: cheaters =>
      let self :=
        set_players_field self
          (filter (fun item : ColorString * Player => item.1 <> player)
                  (_players self)) in
      match Board.live_players board !! player with
      | Some _ =>
          match Board.remove_player board player with
          | (Ok _, board) => remove_cheaters_loop cheaters self board
          | (r, board) => (r, self, board)
          end
      | None => remove_cheaters_loop cheaters self board
      end
  end.

Definition _remove_cheaters (self : t) (board : Board.t)
  : Res unit * t * Board.t :=
  remove_cheaters_loop (elements (_cheaters self)) self board.

(** the comprehension [next(self._tile_iterator) for _ in range(n)] *)
Fixpoint get_tiles_loop (num_tiles : nat) (it : TileIterator.t)
  : Res (list Tile.t) * TileIterator.t :=
  match num_tiles with
  | O => (Ok [], it)
  | S num_tiles =>
      match TileIterator.next it with
      | (Ok tile, it) =>
          match get_tiles_loop num_tiles it with
          | (Ok tiles, it) => (Ok (tile :: tiles), it)
          | (r, it) => (r, it)
          end
      | (Error msg, it) => (Error msg, it)
      | (Raise e, it) => (Raise e, it)
      end
  end.

Definition _get_tiles (self : t) (num_tiles : nat) : Res (list Tile.t) * t :=
  match _tile_iterator self with
  | None => (Raise ValueError, self)
  | Some it =>
      let '(r, it) := get_tiles_loop num_tiles it in
      (r, mk (_players self) (_rule_checker self) (Some it)
             (_leaderboard self) (_cheaters self))
  end.

Definition _confirm_all_components (self : t) : Res unit :=
  if decide (_players self = []) then Error "must add players to this referee"
  else if decide (_rule_checker self = None) then
    Error "must add a rule checker to this referee"
  else if decide (_tile_iterator self = None) then
    Error "must add a tile iterator to this referee"
  else Ok tt.

Definition _get_check_initial_move (self : t) (board : Board.t)
    (color : ColorString) (player : Player) (tiles : list Tile.t) (w : World)
  : Res InitialMove.t * t * World :=
  let '(reply, w) :=
    player_generate_first_move player tiles (Board.get_board_state board) w in
  let self := _handle_player_timeout self color reply in
  match reply with
  | Escaped | NoResult => (Raise AttributeError, self, w)
  | Failure msg => (Error msg, add_cheater self color, w)
  | Answer (pos, tile, port) =>
      match InitialMove.new pos tile port color with
      | Error msg => (Error msg, self, w)
      | Raise e => (Raise e, self, w)
      | Ok initial_move =>
          match RuleChecker.validate_initial_move
                  (Board.get_board_state board) tiles initial_move with
          | Error _ =>
              (* [r_initial_move.error()] of the ok result [r_initial_move] *)
              (Raise ResultMisuseException, add_cheater self color, w)
          | Raise e => (Raise e, self, w)
          | Ok _ => (Ok initial_move, self, w)
          end
      end
  end.

(** the loop of [_run_game_initial_turns] *)
Fixpoint initial_turns_loop (items : list (ColorString * Player))
    (self : t) (board : Board.t) (w : World)
  : Res unit * t * Board.t * World :=
  match items with
  | [] => (Ok tt, self, board, w)
  | (color, player) :: items =>
      match _get_tiles self 3 with
      | (Error msg, self) => (Error msg, self, board, w)
      | (Raise e, self) => (Raise e, self, board, w)
      | (Ok tiles, self) =>
          match _get_check_initial_move self board color player tiles w with
          | (Raise e, self, w) => (Raise e, self, board, w)
          | (Error _, self, w) => initial_turns_loop items self board w
          | (Ok initial_move, self, w) =>
              match Board.initial_move board initial_move with
              | (Error msg, board) => (Error msg, self, board, w)
              | (Raise e, board) => (Raise e, self, board, w)
              | (Ok _, board) => initial_turns_loop items self board w
              end
          end
      end
  end.

Definition _run_game_initial_turns (self : t) (board : Board.t) (w : World)
  : Res unit * t * Board.t * World :=
  match _confirm_all_components self with
  | Error msg => (Error msg, self, board, w)
  | Raise e => (Raise e, self, board, w)
  | Ok _ =>
      match initial_turns_loop (_players self) self board w with
      | (Ok _, self, board, w) =>
          let '(r, self, board) := _remove_cheaters self board in
          (r, self, board, w)
      | r => r
      end
  end.

Definition _get_check_intermediate_move (self : t) (color : ColorString)
    (board : Board.t) (tiles : list Tile.t) (player : Player) (w : World)
  : Res IntermediateMove.t * t * World :=
  let '(reply, w) :=
    player_generate_move player tiles (Board.get_board_state board) w in
  let self := _handle_player_timeout self color reply in
  match reply with
  | Escaped | NoResult => (Raise AttributeError, self, w)
  | Failure msg => (Error msg, add_cheater self color, w)
  | Answer tile =>
      match IntermediateMove.new tile color with
      | Error msg => (Error msg, self, w)
      | Raise e => (Raise e, self, w)
      | Ok intermediate_move =>
          match RuleChecker.validate_move (Board.get_board_state board) tiles
                  intermediate_move with
          | Error msg => (Error msg, add_cheater self color, w)
          | Raise e => (Raise e, self, w)
          | Ok _ => (Ok intermediate_move, self, w)
          end
      end
  end.

(** the loop of [_run_game_single_round] *)
Fixpoint single_round_loop (items : list (ColorString * Player))
    (self : t) (board : Board.t) (w : World)
  : Res unit * t * Board.t * World :=
  match items with
  | [] => (Ok tt, self, board, w)
  | (color, player) :: items =>
      match Board.live_players board !! color with
      | None => single_round_loop items self board w
      | Some _ =>
          match _get_tiles self 2 with
          | (Error msg, self) => (Error msg, self, board, w)
          | (Raise e, self) => (Raise e, self, board, w)
          | (Ok tiles, self) =>
              match _get_check_intermediate_move self color board tiles player w with
              | (Raise e, self, w) => (Raise e, self, board, w)
              | (Error _, self, w) => single_round_loop items self board w
              | (Ok intermediate_move, self, w) =>
                  match Board.intermediate_move board intermediate_move with
                  | (Error msg, board) => (Error msg, self, board, w)
                  | (Raise e, board) => (Raise e, self, board, w)
                  | (Ok _, board) => single_round_loop items self board w
                  end
              end
          end
      end
  end.

(** [self._leaderboard[-1].add(killed_player)] *)
Definition leaderboard_last_add (leaderboard : list (gset ColorString))
    (killed_player : ColorString) : Res (list (gset ColorString)) :=
  match last leaderboard with
  | None => Raise IndexError
  | Some tier =>
      Ok (<[(length leaderboard - 1)%nat := tier ∪ {[ killed_player ]}]> leaderboard)
  end.

(** the loop of [_handle_players_lost_in_round] *)
Fixpoint players_lost_loop (killed : list ColorString) (self : t) : Res unit * t :=
  match killed with
  | [] => (Ok tt, self)
  | killed_player :: killed =>
      match leaderboard_last_add (_leaderboard self) killed_player with
      | Error msg => (Error msg, self)
      | Raise e => (Raise e, self)
      | Ok leaderboard =>
          let self := set_leaderboard self leaderboard in
          if decide (killed_player ∈ (_players self).*1) then
            let self :=
              set_players_field self
                (filter (fun item : ColorString * Player => item.1 <> killed_player)
                        (_players self)) in
            players_lost_loop killed self
          else (Raise KeyError, self)
      end
  end.

Definition _handle_players_lost_in_round (self : t) (board : Board.t)
    (alive_at_start_of_round alive_at_end_of_round : gset ColorString)
  : Res unit * t * Board.t :=
  match players_lost_loop
          (elements (alive_at_start_of_round ∖ alive_at_end_of_round ∖ _cheaters self))
          self with
  | (Ok _, self) => _remove_cheaters self board
  | (r, self) => (r, self, board)
  end.

Definition _run_game_single_round (self : t) (board : Board.t) (w : World)
  : Res unit * t * Board.t * World :=
  match _confirm_all_components self with
  | Error msg => (Error msg, self, board, w)
  | Raise e => (Raise e, self, board, w)
  | Ok _ =>
      let alive_at_start_of_round : gset ColorString := dom (Board.live_players board) in
      match single_round_loop (_players self) self board w with
      | (Ok _, self, board, w) =>
          let alive_at_end_of_round : gset ColorString := dom (Board.live_players board) in
          let self := set_leaderboard self (_leaderboard self ++ [∅]) in
          let '(r, self, board) :=
            _handle_players_lost_in_round self board
              alive_at_start_of_round alive_at_end_of_round in
          (r, self, board, w)
      | r => r
      end
  end.

(** the [while True] loop of [run_game], with a budget of rounds *)
Fixpoint rounds_loop (budget : nat) (self : t) (board : Board.t) (w : World)
  : Res unit * t * Board.t * World :=
  match budget with
  | O => (Raise Diverges, self, board, w)
  | S budget =>
      if decide (size (Board.live_players board) <= 1)%nat then
        (Ok tt, self, board, w)
      else
        match _run_game_single_round self board w with
        | (Ok _, self, board, w) => rounds_loop budget self board w
        | r => r
        end
  end.

Definition run_game (budget : nat) (self : t) (w : World)
  : Res GameResult * t * World :=
  if decide (_players self = []) then
    (Error "must add players to this referee", self, w)
  else if decide (_rule_checker self = None) then
    (Error "must add a rule checker to this referee", self, w)
  else if decide (_tile_iterator self = None) then
    (Error "must add a tile iterator to this referee", self, w)
  else
    let '(self, w) := _initialize_players self w in
    let board := Board.new None in
    match _run_game_initial_turns self board w with
    | (Error msg, self, _, w) => (Error msg, self, w)
    | (Raise e, self, _, w) => (Raise e, self, w)
    | (Ok _, self, board, w) =>
        match rounds_loop budget self board w with
        | (Error msg, self, _, w) => (Error msg, self, w)
        | (Raise e, self, _, w) => (Raise e, self, w)
        | (Ok _, self, board, w) =>
            let '(r, self) := _generate_game_result self board in
            (r, self, w)
        end
    end.
End Referee.
End Referee.

(** ** Brackets of a tournament (Admin/bracket_strategy.py) *)

Definition PlayerID : Type := string.
Definition PlayerAge : Type := Z.

(** a Python [set] of frozen sets, as the list of its elements in the
    order in which they were added; [add] of an element that is in the set
    changes nothing *)
Definition set_add (b : gset PlayerID) (buckets : list (gset PlayerID))
  : list (gset PlayerID) :=
  if decide (b ∈ buckets) then buckets else buckets ++ [b].

Module SimpleBracketStrategy.
(** [frozenset([pid for pid, _ in players[:num]])] *)
Definition _take_players (players : list (PlayerID * PlayerAge)) (num : nat)
  : gset PlayerID :=
  list_to_set ((take num players).*1).

(** the [while] loop of [_bucket_players]; [idx] and [players_to_take] are
    never negative, and under the test of the loop [len(players) - idx] is
    not either.  An iteration moves [idx] on, so that the loop runs at most
    [len(players)] times before its test fails. *)
Fixpoint bucket_players_loop (fuel : nat) (players : list (PlayerID * PlayerAge))
    (idx : nat) (buckets : list (gset PlayerID)) : Res (list (gset PlayerID)) :=
  match fuel with
  | O => Raise Diverges
  | S fuel =>
      if decide (idx < length players)%nat then
        if decide (5 < length players - idx)%nat then
          let players_to_take := (5 `min` (length players - idx - 3))%nat in
          bucket_players_loop fuel players (idx + players_to_take)
            (set_add (_take_players (take players_to_take (drop idx players))
                                    players_to_take) buckets)
        else if decide (0 < length players - idx)%nat then
          let players_to_take := length players in
          bucket_players_loop fuel players (idx + players_to_take)
            (set_add (_take_players (take players_to_take (drop idx players))
                                    players_to_take) buckets)
        else Ok buckets
      else Ok buckets
  end.

Definition _bucket_players (players : list (PlayerID * PlayerAge))
  : Res (list (gset PlayerID)) :=
  bucket_players_loop (S (length players)) players 0 [].

(** [live_players] is the set of the players, as the list of its elements
    in the order in which [sorted] iterates over the set; [sorted] is
    stable *)
Definition bucket_players (live_players : list (PlayerID * PlayerAge))
  : Res (list (gset PlayerID)) :=
  if decide (length live_players < 3)%nat then
    Error ("cannot create a Tsuro tournament with less than 3 players (tried "
           +:+ pretty (length live_players) +:+ ")")
  else
    let sorted_players :=
      sorted (fun a b : PlayerID * PlayerAge => a.2 <=? b.2) live_players in
    buckets ← _bucket_players sorted_players;
    Ok buckets.
End SimpleBracketStrategy.

(** ** Results of a tournament (Admin/administrator.py) *)

Definition TournamentResult : Type := list (gset PlayerID) * gset PlayerID.

(** the loop of the local function [color_to_pid] over [enumerate(colors)] *)
Fixpoint color_to_pid_loop (player_ids : list PlayerID) (colors : list ColorString)
    (idx : nat) (color : ColorString) : Res PlayerID :=
  match colors with
  | [] => Raise ValueError
  | other_color :: colors =>
      if decide (other_color = color) then
        match player_ids !! idx with
        | Some pid => Ok pid
        | None => Raise IndexError
        end
      else color_to_pid_loop player_ids colors (S idx) color
  end.

Definition color_to_pid (player_ids : list PlayerID) (colors : list ColorString)
    (color : ColorString) : Res PlayerID :=
  color_to_pid_loop player_ids colors 0 color.

(** [set(color_to_pid(color) for color in item)], over the elements of the
    set in the order in which it is iterated *)
Fixpoint pids_of_loop (player_ids : list PlayerID) (colors : list ColorString)
    (item : list ColorString) (acc : gset PlayerID) : Res (gset PlayerID) :=
  match item with
  | [] => Ok acc
  | color :: item =>
      pid ← color_to_pid player_ids colors color;
      pids_of_loop player_ids colors item (acc ∪ {[ pid ]})
  end.

Definition pids_of (player_ids : list PlayerID) (colors : list ColorString)
    (item : gset ColorString) : Res (gset PlayerID) :=
  pids_of_loop player_ids colors (elements item) ∅.

(** the loop [for item in winners] *)
Fixpoint new_winners_loop (player_ids : list PlayerID) (colors : list ColorString)
    (winners : list (gset ColorString)) (new_winners : list (gset PlayerID))
  : Res (list (gset PlayerID)) :=
  match winners with
  | [] => Ok new_winners
  | item :: winners =>
      new_item ← pids_of player_ids colors item;
      new_winners_loop player_ids colors winners (new_winners ++ [new_item])
  end.

Definition translate_color_to_pids (game_result : GameResult)
    (player_ids : list PlayerID) (colors : list ColorString) : Res TournamentResult :=
  if decide (length player_ids <> length colors) then Raise AssertionError
  else
    let '(winners, cheaters) := game_result in
    new_cheaters ← pids_of player_ids colors cheaters;
    new_winners ← new_winners_loop player_ids colors winners [];
    Ok (new_winners, new_cheaters).

(** * Properties *)

(** ** Sorting *)

Section SortingFacts.
Context {A : Type} (leb : A -> A -> bool).

Lemma insert_sorted_Permutation x l : insert_sorted leb x l ≡ₚ x :: l.
Proof.
  induction l as [|y l IH]; simpl; [done|].
  destruct (leb x y); [done|].
  rewrite IH. apply Permutation_swap.
Qed.

Lemma sorted_Permutation l : sorted leb l ≡ₚ l.
Proof.
  induction l as [|x l IH]; simpl; [done|].
  rewrite insert_sorted_Permutation. by rewrite IH.
Qed.
End SortingFacts.

(** ** Tiles: every valid tile is one of finitely many edge lists *)

Definition port_range : list Z := [0; 1; 2; 3; 4; 5; 6; 7].

(** [all_port_lists n prefix P]: [P] holds of every duplicate-free list of
    ports that extends the duplicate-free [prefix] by [n] ports *)
Fixpoint all_port_lists (n : nat) (prefix : list Z) (P : list Z -> bool) : bool :=
  match n with
  | O => P prefix
  | S n' =>
      forallb (fun v => if existsb (Z.eqb v) prefix then true
                        else all_port_lists n' (prefix ++ [v]) P) port_range
  end.

Lemma all_port_lists_sound n prefix P :
  all_port_lists n prefix P = true ->
  forall suffix, length suffix = n -> Forall (fun v => v ∈ port_range) suffix ->
    NoDup (prefix ++ suffix) -> P (prefix ++ suffix) = true.
Proof.
  revert prefix. induction n as [|n IH]; intros prefix Hall suffix Hlen Hin Hnd.
  - destruct suffix; [|done]. by rewrite app_nil_r.
  - destruct suffix as [|v suffix]; [done|]. cbn [all_port_lists] in Hall.
    rewrite forallb_forall in Hall.
    apply Forall_cons in Hin as [Hv Hin].
    specialize (Hall v). rewrite <- list_elem_of_In in Hall.
    specialize (Hall Hv).
    assert (existsb (Z.eqb v) prefix = false) as Hfresh.
    { apply not_true_is_false. rewrite existsb_exists.
      intros (w & Hw & Heq). apply Z.eqb_eq in Heq. subst w.
      apply list_elem_of_In in Hw.
      apply NoDup_app in Hnd as (_ & Hnd & _).
      apply (Hnd v Hw). left. }
    rewrite Hfresh in Hall.
    specialize (IH (prefix ++ [v]) Hall suffix).
    rewrite <- app_assoc in IH. simpl in IH.
    apply IH; [simpl in Hlen; lia|done|done].
Qed.

Fixpoint unflatten (l : list Z) : list (Z * Z) :=
  match l with
  | a :: b :: l' => (a, b) :: unflatten l'
  | _ => []
  end.

Lemma unflatten_flatten es : unflatten (flatten es) = es.
Proof.
  induction es as [|[a b] es IH]; [done|].
  change (flatten ((a, b) :: es)) with (a :: b :: flatten es).
  simpl. by rewrite IH.
Qed.

Definition validb (t : Tile.t) : bool := bool_decide (Tile.new (Tile.edges t) = Ok t).

Lemma valid_flatten t :
  Tile.valid t ->
  length (flatten (Tile.edges t)) = 8%nat /\
  Forall (fun v => v ∈ port_range) (flatten (Tile.edges t)) /\
  NoDup (flatten (Tile.edges t)).
Proof.
  unfold Tile.valid, Tile.new. intros Hv.
  destruct (decide (length (Tile.edges t) = 4%nat)) as [Hlen|]; [|done].
  destruct (decide (sorted Z.leb (flatten (Tile.edges t)) = [0; 1; 2; 3; 4; 5; 6; 7]))
    as [Hs|]; [|done].
  pose proof (sorted_Permutation Z.leb (flatten (Tile.edges t))) as Hp.
  rewrite Hs in Hp.
  split; [by rewrite <- Hp|]. split.
  - apply Forall_forall. intros v Hv'. by rewrite <- Hp in Hv'.
  - rewrite <- Hp. apply (bool_decide_unpack _). by vm_compute.
Qed.

(** a decidable property of tiles holds of every valid tile as soon as it
    holds of the valid tiles among the enumerated edge lists *)
Lemma tile_forall (P : Tile.t -> bool) :
  all_port_lists 8 []
    (fun f => if validb (Tile.mk (unflatten f)) then P (Tile.mk (unflatten f))
              else true) = true ->
  forall t, Tile.valid t -> P t = true.
Proof.
  intros Hall t Hv.
  destruct (valid_flatten t Hv) as (Hlen & Hin & Hnd).
  pose proof (all_port_lists_sound 8 [] _ Hall (flatten (Tile.edges t)) Hlen Hin Hnd) as HP.
  simpl in HP. rewrite unflatten_flatten in HP.
  destruct t as [es]. simpl in HP.
  unfold validb in HP. rewrite bool_decide_true in HP by exact Hv. exact HP.
Qed.

(** the laws of tiles that the rest of the development uses, as one
    decidable property: rotating a tile gives a valid tile with the same
    key, four rotations give the tile back, two rotations with the same
    edge list force the tile to be its own half turn, and every port is
    connected to a port *)
Definition rotations_of (t : Tile.t) : option (Tile.t * Tile.t * Tile.t * Tile.t) :=
  match Tile.rotate t with
  | Ok t1 =>
      match Tile.rotate t1 with
      | Ok t2 =>
          match Tile.rotate t2 with
          | Ok t3 =>
              match Tile.rotate t3 with
              | Ok t4 => Some (t1, t2, t3, t4)
              | _ => None
              end
          | _ => None
          end
      | _ => None
      end
  | _ => None
  end.

Definition tile_lawsb (t : Tile.t) : bool :=
  match rotations_of t with
  | Some (t1, t2, t3, t4) =>
      validb t1 && validb t2 && validb t3 && bool_decide (t4 = t)
      && bool_decide (Tile.eq t t1 = Ok true)
      && bool_decide (Tile.eq t t2 = Ok true)
      && bool_decide (Tile.eq t t3 = Ok true)
      && (bool_decide (t2 = t)
          || (bool_decide (t1 <> t) && bool_decide (t3 <> t)
              && bool_decide (t1 <> t2) && bool_decide (t1 <> t3)
              && bool_decide (t2 <> t3)))
      && forallb (fun p =>
                    match Tile.get_port_connected_to t p with
                    | Ok q => bool_decide (q ∈ port_range)
                    | _ => false
                    end) port_range
  | None => false
  end.

Lemma tile_laws t : Tile.valid t -> tile_lawsb t = true.
Proof. apply tile_forall. vm_compute. reflexivity. Qed.

Lemma validb_valid t : validb t = true -> Tile.valid t.
Proof. unfold validb. intros H. by apply bool_decide_eq_true in H. Qed.

Lemma rotate_valid t :
  Tile.valid t -> exists t', Tile.rotate t = Ok t' /\ Tile.valid t'.
Proof.
  intros Hv. pose proof (tile_laws t Hv) as H.
  unfold tile_lawsb, rotations_of in H.
  destruct (Tile.rotate t) as [t1| |]; [|done..].
  destruct (Tile.rotate t1) as [t2| |]; [|done..].
  destruct (Tile.rotate t2) as [t3| |]; [|done..].
  destruct (Tile.rotate t3) as [t4| |]; [|done..].
  exists t1. split; [done|]. apply validb_valid.
  repeat (apply andb_true_iff in H as [H ?]). done.
Qed.

(** ** C4: rotation invariance of tiles *)


(** the tile whose four edges each join the two ports of one side *)
Definition side_tile : Tile.t := Tile.mk [(0, 1); (2, 3); (4, 5); (6, 7)].

(** a tile without any symmetry *)
Definition crooked_tile : Tile.t := Tile.mk [(0, 7); (1, 2); (3, 5); (4, 6)].




(** ** Positions *)

Lemma BoardPosition_new_Ok x y :
  0 <= x <= 9 -> 0 <= y <= 9 ->
  BoardPosition.new x y = Ok (BoardPosition.mk x y).
Proof.
  intros Hx Hy. unfold BoardPosition.new, MIN_BOARD_COORDINATE.
  by rewrite decide_True by lia.
Qed.

Lemma BoardPosition_new_inv x y p :
  BoardPosition.new x y = Ok p ->
  p = BoardPosition.mk x y /\ 0 <= x <= 9 /\ 0 <= y <= 9.
Proof.
  unfold BoardPosition.new, MIN_BOARD_COORDINATE.
  destruct (decide _) as [H|]; [|done]. intros [= <-]. split; [done|lia].
Qed.

Lemma BoardPosition_valid_iff p :
  BoardPosition.valid p <->
  0 <= BoardPosition.x p <= 9 /\ 0 <= BoardPosition.y p <= 9.
Proof.
  unfold BoardPosition.valid. split.
  - intros H. apply BoardPosition_new_inv in H. tauto.
  - intros [Hx Hy]. rewrite BoardPosition_new_Ok by done. by destruct p.
Qed.

(** ** C5: validation of an initial move *)

(** [q] is a cell of the board next to [pos] in one of the four cardinal
    directions *)
Definition cardinal_neighbor (pos q : BoardPosition.t) : Prop :=
  BoardPosition.valid q /\
  ((BoardPosition.x q = BoardPosition.x pos /\
    (BoardPosition.y q = BoardPosition.y pos - 1 \/
     BoardPosition.y q = BoardPosition.y pos + 1)) \/
   (BoardPosition.y q = BoardPosition.y pos /\
    (BoardPosition.x q = BoardPosition.x pos - 1 \/
     BoardPosition.x q = BoardPosition.x pos + 1))).

Definition neighbors_all_empty (st : BoardState.t) (pos : BoardPosition.t) : Prop :=
  forall q, cardinal_neighbor pos q -> BoardState.board st !! q = None.

Definition on_board_edge (pos : BoardPosition.t) : Prop :=
  BoardPosition.x pos = 0 \/ BoardPosition.x pos = 9 \/
  BoardPosition.y pos = 0 \/ BoardPosition.y pos = 9.

(** the port lies on a side of the tile that is on the rim of the board *)
Definition port_faces_rim (pos : BoardPosition.t) (port : PortID) : Prop :=
  (BoardPosition.x pos = 0 /\ (port = Port.LeftTop \/ port = Port.LeftBottom)) \/
  (BoardPosition.y pos = 0 /\ (port = Port.TopLeft \/ port = Port.TopRight)) \/
  (BoardPosition.x pos = 9 /\ (port = Port.RightBottom \/ port = Port.RightTop)) \/
  (BoardPosition.y pos = 9 /\ (port = Port.BottomRight \/ port = Port.BottomLeft)).

Lemma tile_present_at_spec st (c : bool) x y :
  (c = true -> 0 <= x <= 9 /\ 0 <= y <= 9) ->
  BoardState.tile_present_at st c x y =
  Ok (c && bool_decide (BoardState.board st !! BoardPosition.mk x y <> None)).
Proof.
  intros Hc. unfold BoardState.tile_present_at. destruct c; [|done].
  destruct (Hc eq_refl). by rewrite BoardPosition_new_Ok.
Qed.

Lemma neighbor_check_false st (c : bool) x y :
  c && bool_decide (BoardState.board st !! BoardPosition.mk x y <> None) = false ->
  c = true -> BoardState.board st !! BoardPosition.mk x y = None.
Proof.
  intros H ->. simpl in H. apply bool_decide_eq_false in H.
  destruct (BoardState.board st !! _); [|done]. by destruct H.
Qed.

Lemma neighbor_check_true st (c : bool) x y :
  c && bool_decide (BoardState.board st !! BoardPosition.mk x y <> None) = true ->
  c = true /\ BoardState.board st !! BoardPosition.mk x y <> None.
Proof.
  intros [-> H]%andb_true_iff. by apply bool_decide_eq_true in H.
Qed.

Lemma surrounding_positions_are_empty_spec st pos :
  BoardPosition.valid pos ->
  exists e, BoardState.surrounding_positions_are_empty st pos = Ok e /\
    (e = true <-> neighbors_all_empty st pos).
Proof.
  intros Hv. apply BoardPosition_valid_iff in Hv. destruct pos as [x y].
  simpl in Hv. unfold BoardState.surrounding_positions_are_empty,
    MIN_BOARD_COORDINATE, MAX_BOARD_COORDINATE, neighbors_all_empty,
    cardinal_neighbor. simpl.
  rewrite !tile_present_at_spec by (intros ?%bool_decide_eq_true; lia).
  simpl.
  destruct (_ && _) eqn:C1 at 1; simpl.
  { apply neighbor_check_true in C1 as [E T]. apply bool_decide_eq_true in E.
    eexists; split; [done|]. split; [done|]. intros Hq. exfalso. apply T, Hq.
    rewrite BoardPosition_valid_iff. simpl. lia. }
  destruct (_ && _) eqn:C2 at 1; simpl.
  { apply neighbor_check_true in C2 as [E T]. apply bool_decide_eq_true in E.
    eexists; split; [done|]. split; [done|]. intros Hq. exfalso. apply T, Hq.
    rewrite BoardPosition_valid_iff. simpl. lia. }
  destruct (_ && _) eqn:C3 at 1; simpl.
  { apply neighbor_check_true in C3 as [E T]. apply bool_decide_eq_true in E.
    eexists; split; [done|]. split; [done|]. intros Hq. exfalso. apply T, Hq.
    rewrite BoardPosition_valid_iff. simpl. lia. }
  destruct (_ && _) eqn:C4 at 1; simpl.
  { apply neighbor_check_true in C4 as [E T]. apply bool_decide_eq_true in E.
    eexists; split; [done|]. split; [done|]. intros Hq. exfalso. apply T, Hq.
    rewrite BoardPosition_valid_iff. simpl. lia. }
  eexists; split; [done|]. split; [|done]. intros _ [qx qy] [Hqv Hq].
  apply BoardPosition_valid_iff in Hqv. simpl in *.
  destruct Hq as [[-> [->| ->]]|[-> [->| ->]]].
  - apply (neighbor_check_false _ _ _ _ C1). apply bool_decide_eq_true. lia.
  - apply (neighbor_check_false _ _ _ _ C3). apply bool_decide_eq_true. lia.
  - apply (neighbor_check_false _ _ _ _ C2). apply bool_decide_eq_true. lia.
  - apply (neighbor_check_false _ _ _ _ C4). apply bool_decide_eq_true. lia.
Qed.

Lemma is_edge_spec pos : BoardPosition.is_edge pos = true <-> on_board_edge pos.
Proof.
  unfold BoardPosition.is_edge, on_board_edge, MIN_BOARD_COORDINATE,
    MAX_BOARD_COORDINATE.
  rewrite orb_true_iff, !bool_decide_eq_true, !elem_of_cons, !elem_of_nil.
  tauto.
Qed.

Lemma port_faces_interior_spec st pos port :
  BoardState.port_faces_interior st pos port = false <-> port_faces_rim pos port.
Proof.
  unfold BoardState.port_faces_interior, port_faces_rim, MIN_BOARD_COORDINATE,
    MAX_BOARD_COORDINATE.
  do 4 (destruct (_ && _) eqn:? at 1; [
    match goal with
    | E : _ && _ = true |- _ =>
        apply andb_true_iff in E as [?%bool_decide_eq_true E];
        apply bool_decide_eq_true in E;
        rewrite !elem_of_cons, elem_of_nil in E; split; [tauto|done]
    end|]).
  repeat match goal with
         | E : _ && _ = false |- _ =>
             apply andb_false_iff in E;
             rewrite !bool_decide_eq_false, !elem_of_cons, elem_of_nil in E
         end.
  split; [done|]. tauto.
Qed.

(** the conditions under which C5 says an initial move is refused *)
Definition C5_listed_conditions (b : Board.t) (m : InitialMove.t) : Prop :=
  is_Some (Board.live_players b !! InitialMove.player m) \/
  is_Some (BoardState.board (Board._board_state b) !! InitialMove.pos m) \/
  ~ on_board_edge (InitialMove.pos m) \/
  ~ neighbors_all_empty (Board._board_state b) (InitialMove.pos m).

(** a first move into the top left corner of the empty board, on a port of
    the top side *)
Definition corner_move : InitialMove.t :=
  InitialMove.mk (BoardPosition.mk 0 0) side_tile Port.TopLeft white.

(** C5, as stated, fails: on the empty board [corner_move] is refused
    although none of the four listed conditions holds; its port does not
    face the interior of the board. *)
Lemma C5_outward_port_refused :
  is_error (Board.validate_initial_move (Board.new None) corner_move) = true /\
  ~ C5_listed_conditions (Board.new None) corner_move.
Proof.
  split; [reflexivity|].
  unfold C5_listed_conditions.
  intros [[? H]|[[? H]|[H|H]]].
  - by vm_compute in H.
  - by vm_compute in H.
  - apply H. by left.
  - apply H. intros q _. apply lookup_empty.
Qed.

(** when [Board.validate_initial_move] returns an error *)
Lemma validate_initial_move_cases (b : Board.t) (m : InitialMove.t) :
  BoardPosition.valid (InitialMove.pos m) ->
  (is_error (Board.validate_initial_move b m) = true <->
   C5_listed_conditions b m \/
   port_faces_rim (InitialMove.pos m) (InitialMove.port m)) /\
  (~ (C5_listed_conditions b m \/
      port_faces_rim (InitialMove.pos m) (InitialMove.port m)) ->
   Board.validate_initial_move b m = Ok tt).
Proof.
  intros Hv. unfold C5_listed_conditions, Board.validate_initial_move,
    Board.live_players.
  set (st := Board._board_state b). set (pos := InitialMove.pos m).
  set (port := InitialMove.port m).
  destruct (decide (BoardState.live_players st !! InitialMove.player m <> None))
    as [Hlive|Hlive].
  { assert (is_Some (BoardState.live_players st !! InitialMove.player m))
      by (by apply not_eq_None_Some). simpl. split; [tauto|]. tauto. }
  assert (~ is_Some (BoardState.live_players st !! InitialMove.player m)) as Hnl.
  { intros ?%not_eq_None_Some. done. }
  unfold PhysicalConstraintChecker.is_valid_initial_port,
    PhysicalConstraintChecker.is_valid_initial_position, BoardState.get_tile.
  destruct (decide (BoardState.board st !! pos <> None)) as [Hocc|Hocc].
  { assert (is_Some (BoardState.board st !! pos)) by (by apply not_eq_None_Some).
    simpl. split; [tauto|]. tauto. }
  assert (~ is_Some (BoardState.board st !! pos)) as Hno.
  { intros ?%not_eq_None_Some. done. }
  destruct (BoardPosition.is_edge pos) eqn:Hedge; simpl.
  2: { assert (~ on_board_edge pos) by (rewrite <- is_edge_spec; congruence).
       split; [tauto|]. tauto. }
  apply is_edge_spec in Hedge.
  destruct (surrounding_positions_are_empty_spec st pos Hv) as (e & -> & He).
  destruct e; simpl.
  2: { assert (~ neighbors_all_empty st pos) by (rewrite <- He; congruence).
       split; [tauto|]. tauto. }
  assert (neighbors_all_empty st pos) as Hne by (by apply He).
  destruct (BoardState.port_faces_interior st pos port) eqn:Hport; simpl.
  - assert (~ port_faces_rim pos port)
      by (rewrite <- (port_faces_interior_spec st); congruence).
    split; [|done]. split; [done|]. tauto.
  - apply port_faces_interior_spec in Hport. split; [tauto|]. tauto.
Qed.


(** C5, amended: [Board.validate_initial_move] returns an error if and
    only if the agent is already live, or the target cell holds a tile, or
    the target is not on the edge of the board, or one of its four cardinal
    neighbors holds a tile, or the chosen port does not face the interior
    of the board; otherwise it returns ok. *)
Theorem C5_validate_initial_move (b : Board.t) (m : InitialMove.t) :
  BoardPosition.valid (InitialMove.pos m) ->
  (is_error (Board.validate_initial_move b m) = true <->
   C5_listed_conditions b m \/
   port_faces_rim (InitialMove.pos m) (InitialMove.port m)) /\
  (~ (C5_listed_conditions b m \/
      port_faces_rim (InitialMove.pos m) (InitialMove.port m)) ->
   Board.validate_initial_move b m = Ok tt).
Proof. apply validate_initial_move_cases. Qed.

Lemma C5_validate_initial_move_witness :
  BoardPosition.valid (InitialMove.pos corner_move) /\
  (is_error (Board.validate_initial_move (Board.new None) corner_move) = true <->
   C5_listed_conditions (Board.new None) corner_move \/
   port_faces_rim (InitialMove.pos corner_move) (InitialMove.port corner_move)).
Proof.
  split; [reflexivity|].
  apply (C5_validate_initial_move (Board.new None) corner_move). reflexivity.
Defined.

(** ** C1: a rejected move leaves the board as it was *)

Lemma atomic_error {A} (func : Board.t -> A -> Res unit * Board.t) self arg msg self' :
  Board.atomic func self arg = (Error msg, self') ->
  Board._board_state self' = Board._board_state self.
Proof.
  unfold Board.atomic. destruct (func self arg) as [ret self1].
  destruct ret; simpl; [done| |done]. by intros [= _ <-].
Qed.

Lemma atomic_not_error {A} (func : Board.t -> A -> Res unit * Board.t) self arg :
  is_error (func self arg).1 = false ->
  Board.atomic func self arg = func self arg.
Proof.
  unfold Board.atomic. destruct (func self arg) as [ret self1]. simpl.
  by intros ->.
Qed.

(** the three operations of a [Board] that apply a move *)
Inductive MoveOperation : Type :=
| InitialMoveOp (move : InitialMove.t)
| IntermediateMoveOp (move : IntermediateMove.t)
| PlaceTileOp (tile : Tile.t) (pos : BoardPosition.t).

Definition apply_operation (b : Board.t) (op : MoveOperation) : Res unit * Board.t :=
  match op with
  | InitialMoveOp move => Board.initial_move b move
  | IntermediateMoveOp move => Board.intermediate_move b move
  | PlaceTileOp tile pos => Board.place_tile_at_index_with_scissors b (tile, pos)
  end.

(** C1: when [initial_move], [intermediate_move] or
    [place_tile_at_index_with_scissors] returns an error, the tile map and
    the live-agent map of the board are what they were before the call. *)
Theorem C1_rejected_move_leaves_board (b b' : Board.t) (op : MoveOperation) (msg : string) :
  apply_operation b op = (Error msg, b') ->
  BoardState.board (Board._board_state b') = BoardState.board (Board._board_state b) /\
  BoardState.live_players (Board._board_state b')
    = BoardState.live_players (Board._board_state b).
Proof.
  intros H.
  assert (Board._board_state b' = Board._board_state b) as ->; [|done].
  destruct op; unfold apply_operation in H.
  - unfold Board.initial_move in H. by apply atomic_error in H.
  - unfold Board.intermediate_move in H. by apply atomic_error in H.
  - unfold Board.place_tile_at_index_with_scissors in H. by apply atomic_error in H.
Qed.

(** a move of an agent that is not on the board, here the empty one *)
Lemma C1_rejected_move_leaves_board_witness :
  exists b' msg,
    apply_operation (Board.new None)
      (IntermediateMoveOp (IntermediateMove.mk side_tile white)) = (Error msg, b') /\
    BoardState.board (Board._board_state b') = ∅ /\
    BoardState.live_players (Board._board_state b') = ∅.
Proof.
  eexists _, _. split; [reflexivity|].
  eapply (C1_rejected_move_leaves_board (Board.new None) _
            (IntermediateMoveOp (IntermediateMove.mk side_tile white))).
  reflexivity.
Defined.

(** ** C7: board states are never mutated *)




(** ** C9: setting a referee up *)

Lemma remove_dups_length_le {A} `{EqDecision A} (l : list A) :
  (length (remove_dups l) <= length l)%nat.
Proof.
  induction l as [|x l IH]; simpl; [done|].
  destruct (decide_rel elem_of x l); simpl; lia.
Qed.

Lemma remove_dups_length_iff {A} `{EqDecision A} (l : list A) :
  length (remove_dups l) = length l <-> NoDup l.
Proof.
  induction l as [|x l IH]; simpl.
  - split; [intros _; apply NoDup_nil_2|done].
  - rewrite NoDup_cons. pose proof (remove_dups_length_le l).
    destruct (decide_rel elem_of x l); simpl.
    + split; [lia|tauto].
    + rewrite <- IH. split; [intros [=]; done|intros [_ ->]; done].
Qed.

Definition first_tiles : TileIterator.t := TileIterator.mk (fun _ => Some side_tile) 0.
Definition other_tiles : TileIterator.t := TileIterator.mk (fun _ => Some crooked_tile) 0.

(** C9, as stated, fails: a second [set_rule_checker] and a second
    [set_tile_iterator] are not refused, they replace what was set. *)
Lemma C9_checker_and_tiles_set_twice :
  let r1 := Referee.set_tile_iterator
              (Referee.set_rule_checker (Referee.new (Player := nat)) (RuleCheckerAt 0))
              first_tiles in
  let r2 := Referee.set_tile_iterator
              (Referee.set_rule_checker r1 (RuleCheckerAt 1)) other_tiles in
  Referee._rule_checker r1 = Some (RuleCheckerAt 0) /\
  Referee._tile_iterator r1 = Some first_tiles /\
  Referee._rule_checker r2 = Some (RuleCheckerAt 1) /\
  Referee._tile_iterator r2 = Some other_tiles /\
  Referee._rule_checker r2 <> Referee._rule_checker r1 /\
  Referee._tile_iterator r2 <> Referee._tile_iterator r1.
Proof.
  simpl. do 4 (split; [reflexivity|]). split; [discriminate|].
  intros [= H]. apply (f_equal (fun f => f 0%nat)) in H. discriminate H.
Qed.

Section RefereeSetup.
Context {Player : Type} `{EqDecision Player} {World : Type}.
Context (player_set_color :
           Player -> ColorString -> World -> Reply unit * World).
Context (player_set_players :
           Player -> list ColorString -> World -> Reply unit * World).
Context (player_generate_first_move :
           Player -> list Tile.t -> BoardState.t -> World ->
           Reply (BoardPosition.t * Tile.t * PortID) * World).
Context (player_generate_move :
           Player -> list Tile.t -> BoardState.t -> World ->
           Reply Tile.t * World).

Abbreviation run_game :=
  (Referee.run_game player_set_color player_set_players
     player_generate_first_move player_generate_move).

(** the roster is refused: it was set before, or it has fewer than 3 or
    more than 5 agents, or an agent occurs twice in it *)
Definition roster_refused (r : @Referee.t Player) (players : list Player) : Prop :=
  Referee._players r <> [] \/ (length players < 3)%nat \/
  (5 < length players)%nat \/ ~ NoDup players.

Definition not_set_up (r : @Referee.t Player) : Prop :=
  Referee._players r = [] \/ Referee._rule_checker r = None \/
  Referee._tile_iterator r = None.

(** C9, amended: [set_players] returns an error and changes nothing when
    the roster was already set, has fewer than 3 or more than 5 agents or
    contains duplicates, so the roster is set at most once; otherwise it
    assigns the first colors to the agents.  [set_rule_checker] and
    [set_tile_iterator] never fail and replace what was set before.
    [run_game] returns an error, without any call to an agent and
    without any change of the referee, when the roster, the rule checker
    or the tile source is missing. *)
Theorem C9_setup_contract (r : @Referee.t Player) (players : list Player)
    (rc : RuleCheckerObject) (it : TileIterator.t) (budget : nat) (w : World) :
  (roster_refused r players ->
   exists msg, Referee.set_players r players = (Error msg, r)) /\
  (~ roster_refused r players ->
   exists r',
     Referee.set_players r players = (Ok (take (length players) AllColors), r') /\
     (Referee._players r').*1 = take (length players) AllColors /\
     (Referee._players r').*2 = players /\
     forall players', exists msg,
       Referee.set_players r' players' = (Error msg, r')) /\
  Referee._rule_checker (Referee.set_rule_checker r rc) = Some rc /\
  Referee._tile_iterator (Referee.set_tile_iterator r it) = Some it /\
  (not_set_up r -> exists msg, run_game budget r w = (Error msg, r, w)).
Proof.
  split; [|split; [|split; [done|split; [done|]]]].
  - unfold roster_refused, Referee.set_players. intros Href.
    destruct (decide (Referee._players r <> [])); [by eexists|].
    destruct (decide (length players < 3 \/ 5 < length players)%nat); [by eexists|].
    destruct (decide (length (remove_dups players) <> length players)); [by eexists|].
    exfalso. rewrite <- remove_dups_length_iff in Href.
    destruct Href as [?|[?|[?|?]]]; [done|lia|lia|done].
  - unfold roster_refused, Referee.set_players. intros Href.
    destruct (decide (Referee._players r <> [])); [tauto|].
    destruct (decide (length players < 3 \/ 5 < length players)%nat); [tauto|].
    destruct (decide (length (remove_dups players) <> length players)) as [Hd|Hd].
    { rewrite <- remove_dups_length_iff in Href. tauto. }
    eexists. split; [done|]. simpl.
    assert (length (take (length players) AllColors) = length players) as Hlen.
    { rewrite length_take. simpl. lia. }
    split; [by apply fst_zip; rewrite Hlen|].
    split; [by apply snd_zip; rewrite Hlen|].
    intros players'. eexists.
    rewrite decide_True; [done|]. simpl.
    destruct players as [|p players]; [simpl in *; lia|]. done.
  - unfold not_set_up, Referee.run_game. intros Hns.
    destruct (decide (Referee._players r = [])); [by eexists|].
    destruct (decide (Referee._rule_checker r = None)); [by eexists|].
    destruct (decide (Referee._tile_iterator r = None)); [by eexists|].
    tauto.
Qed.
End RefereeSetup.

(** ** Path resolution and observers

    What a board does to its state never depends on its observers; the
    observers only receive the events.  [log_add el ex] is an observer
    after it was told that the agents [el] entered a loop and that the
    agents [ex] left the board. *)

Definition log_add (el ex : list ColorString) (o : LoggingObserver.t)
  : LoggingObserver.t :=
  LoggingObserver.mk (LoggingObserver.entered_loop o ++ el)
                     (LoggingObserver.exited_board o ++ ex).

Lemma log_add_nil (obs : list LoggingObserver.t) : log_add [] [] <$> obs = obs.
Proof.
  rewrite <- (list_fmap_id obs) at 2. apply list_fmap_ext.
  intros _ [el ex] _. unfold log_add. simpl. by rewrite !app_nil_r.
Qed.

Lemma log_add_comp el1 ex1 el2 ex2 (obs : list LoggingObserver.t) :
  log_add el2 ex2 <$> (log_add el1 ex1 <$> obs)
  = log_add (el1 ++ el2) (ex1 ++ ex2) <$> obs.
Proof.
  rewrite <- list_fmap_compose. apply list_fmap_ext.
  intros _ [el ex] _. unfold log_add. simpl. by rewrite !app_assoc.
Qed.

Lemma entered_loop_fmap p (obs : list LoggingObserver.t) :
  (fun o => LoggingObserver.player_entered_loop o p) <$> obs = log_add [p] [] <$> obs.
Proof.
  apply list_fmap_ext. intros _ [el ex] _.
  unfold log_add, LoggingObserver.player_entered_loop. simpl. by rewrite app_nil_r.
Qed.

Lemma exited_board_fmap p (obs : list LoggingObserver.t) :
  (fun o => LoggingObserver.player_exited_board o p) <$> obs = log_add [] [p] <$> obs.
Proof.
  apply list_fmap_ext. intros _ [el ex] _.
  unfold log_add, LoggingObserver.player_exited_board. simpl. by rewrite app_nil_r.
Qed.

Lemma get_adjoining_port_not_error port msg :
  Port.get_adjoining_port port <> Error msg.
Proof. unfold Port.get_adjoining_port. repeat case_decide; done. Qed.

Lemma get_port_connected_to_not_error t port msg :
  Tile.get_port_connected_to t port <> Error msg.
Proof.
  unfold Tile.get_port_connected_to. induction (Tile.edges t) as [|[a c] es IH];
    simpl; [done|]. repeat case_decide; done.
Qed.

(** one run of the loop of [_move_player_along_path]: the outcome and the
    new state do not depend on the observers; the tile map and the set of
    live agents stay, only the moving agent changes place; the observers
    hear of at most one event, a loop of the moving agent *)
Lemma move_player_loop_spec budget : forall seen st p,
  exists r st' el,
    (forall obs,
       Board.move_player_along_path_loop budget seen (Board.mk st obs) p
       = (r, Board.mk st' (log_add el [] <$> obs))) /\
    BoardState.board st' = BoardState.board st /\
    dom (BoardState.live_players st') = dom (BoardState.live_players st) /\
    (forall q, q <> p ->
       BoardState.live_players st' !! q = BoardState.live_players st !! q) /\
    (el = [] \/ (el = [p] /\ r = Ok true /\ is_Some (BoardState.live_players st !! p))) /\
    (is_Some (BoardState.live_players st !! p) -> is_error r = false).
Proof.
  induction budget as [|budget IH]; intros seen st p.
  { exists (Raise Diverges), st, []. split; [|repeat split; auto].
    intros obs. simpl. by rewrite log_add_nil. }
  cbn [Board.move_player_along_path_loop Board._board_state Board._observers].
  unfold BoardState.get_position_of_player.
  destruct (BoardState.live_players st !! p) as [[pos port]|] eqn:Hp.
  2: { eexists _, st, []. split; [intros obs; by rewrite log_add_nil|].
       repeat split; auto. by intros [? ?]. }
  destruct (decide ((pos, port) ∈ seen)).
  { eexists (Ok true), st, [p]. split; [intros obs; by rewrite entered_loop_fmap|].
    repeat split; auto. }
  destruct (BoardState.calculate_adjacent_position_of_player st p) as [[next_pos|]| |].
  2-4: eexists _, st, []; (split; [intros obs; by rewrite log_add_nil|]);
       repeat split; auto.
  unfold BoardState.get_tile.
  destruct (BoardState.board st !! next_pos) as [next_tile|].
  2: { eexists _, st, []. split; [intros obs; by rewrite log_add_nil|].
       repeat split; auto. }
  destruct (Port.get_adjoining_port port) as [next_port|msg|] eqn:Hadj.
  2: { by apply get_adjoining_port_not_error in Hadj. }
  2: { eexists _, st, []. split; [intros obs; by rewrite log_add_nil|].
       repeat split; auto. }
  destruct (Tile.get_port_connected_to next_tile next_port) as [nnp|msg|] eqn:Hcon.
  2: { by apply get_port_connected_to_not_error in Hcon. }
  2: { eexists _, st, []. split; [intros obs; by rewrite log_add_nil|].
       repeat split; auto. }
  set (st1 := BoardState.with_live_players st
                (<[p := (next_pos, nnp)]> (BoardState.live_players st))).
  destruct (IH (seen ∪ {[(pos, port)]}) st1 p)
    as (r & st' & el & Hrun & Hboard & Hdom & Hother & Hel & Herr).
  assert (BoardState.live_players st1 !! p = Some (next_pos, nnp)) as Hp1.
  { unfold st1. simpl. apply lookup_insert_eq. }
  exists r, st', el. split; [intros obs; apply Hrun|].
  split; [by rewrite Hboard|]. split.
  { rewrite Hdom. unfold st1. simpl. rewrite dom_insert_L.
    apply subseteq_union_1_L, singleton_subseteq_l, elem_of_dom. eauto. }
  split.
  { intros q Hq. rewrite Hother by done. unfold st1. simpl.
    by rewrite lookup_insert_ne. }
  split.
  { destruct Hel as [->|(-> & -> & _)]; [by left|right; eauto]. }
  intros _. apply Herr. rewrite Hp1. eauto.
Qed.

Lemma move_all_players_loop_spec players : forall acc st,
  (forall p, p ∈ players -> is_Some (BoardState.live_players st !! p)) ->
  exists r st' el,
    (forall obs,
       Board.move_all_players_loop players acc (Board.mk st obs)
       = (r, Board.mk st' (log_add el [] <$> obs))) /\
    BoardState.board st' = BoardState.board st /\
    dom (BoardState.live_players st') = dom (BoardState.live_players st) /\
    (forall q, q ∉ players ->
       BoardState.live_players st' !! q = BoardState.live_players st !! q) /\
    el `sublist_of` players /\
    is_error r = false /\
    (forall rm, r = Ok rm ->
       exists rm', rm = acc ++ rm' /\ rm' `sublist_of` players /\ el `sublist_of` rm').
Proof.
  induction players as [|p players IH]; intros acc st Hlive.
  { exists (Ok acc), st, []. split; [intros obs; simpl; by rewrite log_add_nil|].
    repeat split; auto. intros rm [= <-]. exists []. by rewrite app_nil_r. }
  cbn [Board.move_all_players_loop]. unfold Board._move_player_along_path.
  destruct (move_player_loop_spec Board.PATH_BUDGET ∅ st p)
    as (r1 & st1 & el1 & Hrun1 & Hboard1 & Hdom1 & Hother1 & Hel1 & Herr1).
  specialize (Herr1 (Hlive p ltac:(left))).
  destruct r1 as [v|msg|e]; [|done|].
  2: { exists (Raise e), st1, el1.
       split; [intros obs; by rewrite Hrun1|].
       repeat split; auto.
       - intros q Hq. apply Hother1. intros ->. apply Hq. left.
       - destruct Hel1 as [->|(-> & _)]; [apply sublist_nil_l|].
         apply sublist_skip, sublist_nil_l.
       - done. }
  destruct (IH (if v then acc ++ [p] else acc) st1)
    as (r & st' & el & Hrun & Hboard & Hdom & Hother & Hel & Herr & Hrm).
  { intros q Hq. apply elem_of_dom. rewrite Hdom1. apply elem_of_dom, Hlive.
    by right. }
  exists r, st', (el1 ++ el).
  split.
  { intros obs. rewrite Hrun1, Hrun. by rewrite log_add_comp. }
  split; [congruence|]. split; [congruence|]. split.
  { intros q Hq. rewrite Hother, Hother1; [done| |].
    - intros ->. apply Hq. left.
    - intros ?. apply Hq. by right. }
  assert (el1 = [] \/ (el1 = [p] /\ v = true)) as Hel1'.
  { destruct Hel1 as [->|(-> & [= ->] & _)]; auto. }
  split.
  { destruct Hel1' as [->|[-> _]]; simpl; [by apply sublist_cons|by apply sublist_skip]. }
  split; [done|].
  intros rm Hr. destruct (Hrm rm Hr) as (rm' & -> & Hsub & Helsub).
  exists ((if v then [p] else []) ++ rm'). split; [|split].
  - destruct v; simpl; [by rewrite <- app_assoc|done].
  - destruct v; simpl; [by apply sublist_skip|by apply sublist_cons].
  - destruct Hel1' as [->|[-> ->]]; simpl; [|by apply sublist_skip].
    destruct v; simpl; [by apply sublist_cons|done].
Qed.

(** the loops that take agents off the board: the agents of the list are
    no longer live afterwards, nothing else changes *)
Lemma remove_players_loop_spec l : forall st,
  exists r st' ex,
    (forall obs,
       Board.remove_players_loop l (Board.mk st obs)
       = (r, Board.mk st' (log_add [] ex <$> obs))) /\
    BoardState.board st' = BoardState.board st /\
    BoardState.live_players st' ⊆ BoardState.live_players st /\
    is_error r = false /\
    (r = Ok tt ->
     BoardState.live_players st'
     = filter (fun kv => kv.1 ∉ l) (BoardState.live_players st)) /\
    (NoDup l -> (forall p, p ∈ l -> is_Some (BoardState.live_players st !! p)) ->
     r = Ok tt).
Proof.
  induction l as [|p l IH]; intros st.
  { exists (Ok tt), st, []. split; [intros obs; simpl; by rewrite log_add_nil|].
    repeat split; auto. intros _. symmetry. apply map_filter_id.
    intros ?? _. simpl. apply not_elem_of_nil. }
  cbn [Board.remove_players_loop]. unfold Board.remove_player.
  cbn [Board._board_state].
  destruct (BoardState.live_players st !! p) as [pp|] eqn:Hp.
  2: { exists (Raise KeyError), st, [].
       split; [intros obs; simpl; by rewrite log_add_nil|].
       repeat split; auto; [done|].
       intros _ Hl. destruct (Hl p ltac:(left)) as [? ?]. congruence. }
  set (st1 := BoardState.with_live_players st (delete p (BoardState.live_players st))).
  destruct (IH st1) as (r & st' & ex & Hrun & Hboard & Hsub & Herr & Hok & Hnd).
  exists r, st', (p :: ex). split.
  { intros obs. unfold Board.set_board_state. cbn [Board._board_state Board._observers].
    rewrite exited_board_fmap, Hrun. by rewrite log_add_comp. }
  split; [done|]. split.
  { etrans; [exact Hsub|]. unfold st1. simpl. apply delete_subseteq. }
  split; [done|]. split.
  - intros Hr. rewrite (Hok Hr). unfold st1. simpl.
    apply map_eq. intros q. apply option_eq. intros v.
    rewrite !map_lookup_filter_Some. simpl. rewrite lookup_delete_Some.
    rewrite not_elem_of_cons. naive_solver.
  - intros [Hnotin Hnd']%NoDup_cons Hl. apply Hnd; [done|].
    intros q Hq. unfold st1. simpl. rewrite lookup_delete_ne.
    + apply Hl. by right.
    + intros ->. done.
Qed.

Lemma remove_looped_players_spec l : forall st,
  exists r st',
    (forall obs,
       Board.remove_looped_players l (Board.mk st obs) = (r, Board.mk st' obs)) /\
    BoardState.board st' = BoardState.board st /\
    BoardState.live_players st' ⊆ BoardState.live_players st /\
    is_error r = false /\
    (r = Ok tt ->
     BoardState.live_players st'
     = filter (fun kv => kv.1 ∉ l) (BoardState.live_players st)) /\
    (NoDup l -> (forall p, p ∈ l -> is_Some (BoardState.live_players st !! p)) ->
     r = Ok tt).
Proof.
  induction l as [|p l IH]; intros st.
  { exists (Ok tt), st. split; [done|].
    repeat split; auto. intros _. symmetry. apply map_filter_id.
    intros ?? _. simpl. apply not_elem_of_nil. }
  cbn [Board.remove_looped_players]. unfold Board.remove_player.
  cbn [Board._board_state].
  destruct (BoardState.live_players st !! p) as [pp|] eqn:Hp.
  2: { exists (Raise KeyError), st. split; [done|].
       repeat split; auto; [done|].
       intros _ Hl. destruct (Hl p ltac:(left)) as [? ?]. congruence. }
  set (st1 := BoardState.with_live_players st (delete p (BoardState.live_players st))).
  destruct (IH st1) as (r & st' & Hrun & Hboard & Hsub & Herr & Hok & Hnd).
  exists r, st'. split.
  { intros obs. unfold Board.set_board_state. cbn [Board._board_state Board._observers].
    by rewrite Hrun. }
  split; [done|]. split.
  { etrans; [exact Hsub|]. unfold st1. simpl. apply delete_subseteq. }
  split; [done|]. split.
  - intros Hr. rewrite (Hok Hr). unfold st1. simpl.
    apply map_eq. intros q. apply option_eq. intros v.
    rewrite !map_lookup_filter_Some. simpl. rewrite lookup_delete_Some.
    rewrite not_elem_of_cons. naive_solver.
  - intros [Hnotin Hnd']%NoDup_cons Hl. apply Hnd; [done|].
    intros q Hq. unfold st1. simpl. rewrite lookup_delete_ne.
    + apply Hl. by right.
    + intros ->. done.
Qed.

Lemma live_players_keys (st : BoardState.t) p :
  p ∈ (map_to_list (BoardState.live_players st)).*1
  <-> is_Some (BoardState.live_players st !! p).
Proof.
  rewrite list_elem_of_fmap. split.
  - intros ([q v] & -> & Hin). apply elem_of_map_to_list in Hin. eauto.
  - intros [v Hv]. exists (p, v). split; [done|]. by apply elem_of_map_to_list.
Qed.

(** one pass of path resolution *)
Lemma move_all_players_along_paths_spec st :
  exists r st' el ex,
    (forall obs,
       Board._move_all_players_along_paths (Board.mk st obs)
       = (r, Board.mk st' (log_add el ex <$> obs))) /\
    BoardState.board st' = BoardState.board st /\
    dom (BoardState.live_players st') ⊆ dom (BoardState.live_players st) /\
    is_error r = false /\
    NoDup el /\
    (forall p, p ∈ el -> is_Some (BoardState.live_players st !! p)) /\
    (forall obs rm b1,
       Board.move_all_players_loop
         (map_to_list (BoardState.live_players st)).*1 [] (Board.mk st obs)
       = (Ok rm, b1) -> r = Ok tt).
Proof.
  unfold Board._move_all_players_along_paths. cbn [Board._board_state].
  set (players := (map_to_list (BoardState.live_players st)).*1).
  assert (NoDup players) as Hnd by apply NoDup_fst_map_to_list.
  destruct (move_all_players_loop_spec players [] st)
    as (r1 & st1 & el & Hrun1 & Hboard1 & Hdom1 & _ & Hel & Herr1 & Hrm).
  { intros p. apply live_players_keys. }
  assert (NoDup el) as Hndel by (by apply (sublist_NoDup _ players)).
  assert (forall p, p ∈ el -> is_Some (BoardState.live_players st !! p)) as Hlive.
  { intros p Hp. apply live_players_keys. by eapply elem_of_sublist. }
  destruct r1 as [rm|msg|e]; [|done|].
  2: { exists (Raise e), st1, el, []. split; [intros obs; by rewrite Hrun1|].
       split; [done|]. split; [by rewrite Hdom1|]. repeat split; auto.
       intros obs rm b1. rewrite Hrun1. done. }
  destruct (Hrm rm eq_refl) as (rm' & -> & Hsub & Helsub). simpl in *.
  destruct (remove_players_loop_spec rm' st1)
    as (r2 & st2 & ex & Hrun2 & Hboard2 & Hsub2 & Herr2 & _ & Hok2).
  assert (r2 = Ok tt) as ->.
  { apply Hok2; [by apply (sublist_NoDup _ players)|].
    intros p Hp. apply elem_of_dom. rewrite Hdom1.
    apply elem_of_dom, live_players_keys. by eapply elem_of_sublist. }
  exists (Ok tt), st2, el, ex. split.
  { intros obs. rewrite Hrun1, Hrun2. rewrite log_add_comp.
    by rewrite app_nil_r. }
  split; [congruence|]. split.
  { rewrite <- Hdom1. by apply subseteq_dom. }
  repeat split; auto.
Qed.

(** ** Intermediate moves

    [target_cell st player] is the outcome of the checks that
    [intermediate_move] makes before it places the tile: the cell that the
    tile goes to, or the error that is returned.  It does not depend on the
    tile. *)

Definition target_cell (st : BoardState.t) (player : ColorString)
  : Res BoardPosition.t :=
  if decide (BoardState.live_players st !! player = None) then
    Error "cannot place a tile for player since they are not alive"
  else
    match BoardState.calculate_adjacent_position_of_player st player with
    | Error msg => Error ("cannot place tile for player: " +:+ msg)
    | Raise e => Raise e
    | Ok None =>
        Error "cannot place tile for player since it would go off the edge of the board (this should never happen!)"
    | Ok (Some pos) =>
        if decide (BoardState.get_tile st pos <> None) then
          Error "cannot place for player since it would be on top of an existing tile (this shouldnever happen!)"
        else Ok pos
    end.

Lemma target_cell_Ok st player pos :
  target_cell st player = Ok pos ->
  is_Some (BoardState.live_players st !! player) /\
  BoardState.calculate_adjacent_position_of_player st player = Ok (Some pos) /\
  BoardState.board st !! pos = None.
Proof.
  unfold target_cell, BoardState.get_tile.
  destruct (decide (BoardState.live_players st !! player = None)) as [|Hl]; [done|].
  destruct (BoardState.calculate_adjacent_position_of_player st player)
    as [[pos'|]| |]; try done.
  destruct (decide (BoardState.board st !! pos' <> None)) as [|Hn]; [done|].
  intros [= ->]. split; [by apply not_eq_None_Some|]. split; [done|].
  by destruct (BoardState.board st !! pos); [destruct Hn|].
Qed.

Lemma intermediate_move_rejected st m msg obs :
  target_cell st (IntermediateMove.player m) = Error msg ->
  Board.intermediate_move (Board.mk st obs) m = (Error msg, Board.mk st obs).
Proof.
  unfold target_cell, Board.intermediate_move, Board.atomic,
    Board.validate_intermediate_move. cbn [Board._board_state].
  destruct (decide (BoardState.live_players st !! IntermediateMove.player m = None)).
  { by intros [= <-]. }
  destruct (BoardState.calculate_adjacent_position_of_player st
              (IntermediateMove.player m)) as [[pos|]| |]; try done.
  - destruct (decide (BoardState.get_tile st pos <> None)); [|done]. by intros [= <-].
  - by intros [= <-].
  - by intros [= <-].
Qed.

Lemma intermediate_move_raised st m e obs :
  target_cell st (IntermediateMove.player m) = Raise e ->
  Board.intermediate_move (Board.mk st obs) m = (Raise e, Board.mk st obs).
Proof.
  unfold target_cell, Board.intermediate_move, Board.atomic,
    Board.validate_intermediate_move. cbn [Board._board_state].
  destruct (decide (BoardState.live_players st !! IntermediateMove.player m = None));
    [done|].
  destruct (BoardState.calculate_adjacent_position_of_player st
              (IntermediateMove.player m)) as [[pos|]| |]; try done.
  - destruct (decide (BoardState.get_tile st pos <> None)); done.
  - by intros [= <-].
Qed.

(** an intermediate move whose checks passed: the tile goes to [pos] and
    the paths are resolved; [el] are the agents found in a loop and [ex] the
    agents taken off the board during the pass.  Without loop the resolved
    state is kept; with a loop the state before the move comes back and the
    agents of [el] are taken off it. *)
Lemma intermediate_move_spec st m pos :
  target_cell st (IntermediateMove.player m) = Ok pos ->
  exists r st' el ex (leftover : bool),
    (forall obs,
       Board.intermediate_move (Board.mk st obs) m
       = (r, Board.mk st'
               ((log_add el ex <$> obs)
                ++ if leftover then [log_add el ex LoggingObserver.new] else []))) /\
    is_error r = false /\
    (r = Ok tt ->
     leftover = false /\
     ((el = [] /\
       BoardState.board st' = <[pos := IntermediateMove.tile m]> (BoardState.board st) /\
       dom (BoardState.live_players st') ⊆ dom (BoardState.live_players st)) \/
      (el <> [] /\
       BoardState.board st' = BoardState.board st /\
       BoardState.live_players st'
       = filter (fun kv => kv.1 ∉ el) (BoardState.live_players st)))) /\
    (forall obs rm b1,
       Board.move_all_players_loop
         (map_to_list (BoardState.live_players st)).*1 []
         (Board.mk (BoardState.with_tile st (IntermediateMove.tile m) pos) obs)
       = (Ok rm, b1) -> r = Ok tt).
Proof.
  intros Htc. pose proof (target_cell_Ok _ _ _ Htc) as (Hlive & Hadj & Hfree).
  unfold Board.intermediate_move, Board.atomic, Board.validate_intermediate_move,
    Board.add_observer, Board.set_board_state, Board.remove_observer.
  cbn [Board._board_state Board._observers].
  rewrite decide_False by (by apply not_eq_None_Some).
  rewrite Hadj.
  destruct (decide (BoardState.get_tile st pos <> None)) as [Hn|_].
  { exfalso. apply Hn. exact Hfree. }
  set (st0 := BoardState.with_tile st (IntermediateMove.tile m) pos).
  destruct (move_all_players_along_paths_spec st0)
    as (r1 & st1 & el & ex & Hrun1 & Hboard1 & Hdom1 & Herr1 & Hndel & Hel & Hok1).
  assert (forall obs : list LoggingObserver.t,
            ((log_add el ex <$> obs) ++ [log_add el ex LoggingObserver.new])
              !! length obs = Some (log_add el ex LoggingObserver.new)) as Htemp.
  { intros obs. rewrite lookup_app_r by (by rewrite length_fmap).
    rewrite length_fmap. by replace (length obs - length obs)%nat with 0%nat by lia. }
  assert (forall obs : list LoggingObserver.t,
            delete (length obs)
              ((log_add el ex <$> obs) ++ [log_add el ex LoggingObserver.new])
            = log_add el ex <$> obs) as Hdel.
  { intros obs. rewrite <- (length_fmap (log_add el ex) obs).
    rewrite delete_middle. by rewrite app_nil_r. }
  destruct r1 as [[]|msg|e]; [|done|].
  2: { exists (Raise e), st1, el, ex, true. split.
       { intros obs. rewrite Hrun1. simpl. by rewrite fmap_app. }
       split; [done|]. split; [done|].
       intros obs rm b1 Hloop. by specialize (Hok1 _ _ _ Hloop). }
  destruct el as [|p el].
  { exists (Ok tt), st1, [], ex, false. split.
    { intros obs. rewrite Hrun1. rewrite fmap_app. simpl.
      rewrite Htemp. simpl. by rewrite Hdel, app_nil_r. }
    split; [done|]. split; [|done].
    intros _. split; [done|]. left. split; [done|]. split; [by rewrite Hboard1|done]. }
  destruct (remove_looped_players_spec (p :: el) st)
    as (r2 & st2 & Hrun2 & Hboard2 & Hsub2 & Herr2 & Hfil2 & Hok2).
  assert (r2 = Ok tt) as ->.
  { apply Hok2; [done|]. intros q Hq. by apply Hel. }
  exists (Ok tt), st2, (p :: el), ex, false. split.
  { intros obs. rewrite Hrun1. rewrite fmap_app.
    cbn [Board._board_state Board._observers fmap list_fmap app].
    rewrite Htemp. cbn [default LoggingObserver.entered_loop log_add
                        LoggingObserver.new app].
    rewrite Hrun2. cbn [Board._board_state Board._observers is_error].
    by rewrite Hdel, app_nil_r. }
  split; [done|]. split; [|done].
  intros _. split; [done|]. right. split; [done|]. split; [done|by apply Hfil2].
Qed.

(** ** C3 and C6: loops and suicides *)



Lemma target_cell_of_ok b m r b' :
  Board.intermediate_move b m = (r, b') -> is_ok r = true ->
  exists pos, target_cell (Board._board_state b) (IntermediateMove.player m) = Ok pos.
Proof.
  destruct b as [st obs]. cbn [Board._board_state]. intros Hrun Hok.
  destruct (target_cell st (IntermediateMove.player m)) as [pos|msg|e] eqn:Htc.
  - by exists pos.
  - rewrite (intermediate_move_rejected _ _ _ _ Htc) in Hrun.
    injection Hrun as <- _. done.
  - rewrite (intermediate_move_raised _ _ _ _ Htc) in Hrun.
    injection Hrun as <- _. done.
Qed.

(** three tiles around the cell (0, 2); the agent on the last one comes
    back to where it stands when a fourth tile of the same kind closes the
    track *)
Definition bend_tile : Tile.t := Tile.mk [(0, 7); (1, 2); (3, 4); (5, 6)].

Definition loop_ready_state : BoardState.t :=
  BoardState.mk
    (<[BoardPosition.mk 0 1 := bend_tile]>
       (<[BoardPosition.mk 1 1 := bend_tile]>
          (<[BoardPosition.mk 1 2 := bend_tile]> ∅)))
    (<[green := (BoardPosition.mk 1 2, Port.LeftTop)]> ∅).





(** an agent in the top left corner that a tile of side links sends back
    and off the board *)
Definition corner_tile : Tile.t := Tile.mk [(0, 3); (1, 2); (4, 5); (6, 7)].

Definition corner_state : BoardState.t :=
  BoardState.mk (<[BoardPosition.mk 0 0 := corner_tile]> ∅)
                (<[white := (BoardPosition.mk 0 0, Port.RightTop)]> ∅).


(** ** C10: path following terminates *)

Definition all_positions : list BoardPosition.t :=
  x ← seqZ 0 10; y ← seqZ 0 10; [BoardPosition.mk x y].

Definition all_pairs : list (BoardPosition.t * PortID) :=
  pos ← all_positions; port ← port_range; [(pos, port)].

Lemma all_pairs_length : length all_pairs = 800%nat.
Proof. vm_compute. reflexivity. Qed.

Lemma elem_of_all_pairs pos port :
  BoardPosition.valid pos -> port ∈ port_range -> (pos, port) ∈ all_pairs.
Proof.
  intros Hv Hport. apply BoardPosition_valid_iff in Hv. destruct pos as [x y].
  simpl in Hv. unfold all_pairs, all_positions.
  apply list_elem_of_bind. exists (BoardPosition.mk x y). split.
  - apply list_elem_of_bind. exists port. split; [apply list_elem_of_singleton; done|done].
  - apply list_elem_of_bind. exists x. split; [|apply elem_of_seqZ; lia].
    apply list_elem_of_bind. exists y. split; [|apply elem_of_seqZ; lia].
    by apply list_elem_of_singleton.
Qed.

Lemma seen_size_bound (seen : gset (BoardPosition.t * PortID)) :
  (forall x, x ∈ seen -> x ∈ all_pairs) -> (size seen <= 800)%nat.
Proof.
  intros Hsub. change (size seen) with (length (elements seen)).
  rewrite <- all_pairs_length. apply submseteq_length, NoDup_submseteq.
  - apply NoDup_elements.
  - intros x Hx. apply Hsub. by apply elem_of_elements.
Qed.

(** the agent named stands on a cell of the 10x10 grid *)
Definition on_grid (st : BoardState.t) (player : ColorString) : Prop :=
  forall pos port,
    BoardState.live_players st !! player = Some (pos, port) ->
    BoardPosition.valid pos.

Lemma calculate_adjacent_Some st player pos port next :
  BoardState.live_players st !! player = Some (pos, port) ->
  BoardState.calculate_adjacent_position_of_player st player = Ok (Some next) ->
  port ∈ port_range /\ BoardPosition.valid next /\
  ((BoardPosition.x next = BoardPosition.x pos /\
    (BoardPosition.y next = BoardPosition.y pos - 1 \/
     BoardPosition.y next = BoardPosition.y pos + 1)) \/
   (BoardPosition.y next = BoardPosition.y pos /\
    (BoardPosition.x next = BoardPosition.x pos - 1 \/
     BoardPosition.x next = BoardPosition.x pos + 1))).
Proof.
  intros Hp. unfold BoardState.calculate_adjacent_position_of_player,
    BoardState.get_position_of_player. rewrite Hp.
  assert (forall x y (k : Res (option BoardPosition.t)),
    (p ← BoardPosition.new x y; Ok (Some p)) = Ok (Some next) ->
    BoardPosition.valid next /\ next = BoardPosition.mk x y) as Hnew.
  { intros x y _. destruct (BoardPosition.new x y) as [q| |] eqn:Hq; try done.
    intros [= ->]. apply BoardPosition_new_inv in Hq as (-> & Hx & Hy).
    split; [|done]. by apply BoardPosition_valid_iff. }
  unfold Port.TopLeft, Port.TopRight, Port.RightTop, Port.RightBottom,
    Port.BottomLeft, Port.BottomRight, Port.LeftBottom, Port.LeftTop, port_range.
  repeat case_decide; try done; intros Hres;
    apply (Hnew _ _ (Ok None)) in Hres as [Hv ->];
    (split; [set_solver|]); (split; [done|]); simpl; lia.
Qed.

Lemma move_player_loop_terminates budget : forall seen st obs player,
  on_grid st player ->
  (forall x, x ∈ seen -> x ∈ all_pairs) ->
  (800 < budget + size seen)%nat ->
  (Board.move_player_along_path_loop budget seen (Board.mk st obs) player).1
  <> Raise Diverges.
Proof.
  induction budget as [|budget IH]; intros seen st obs player Hgrid Hseen Hbudget.
  { pose proof (seen_size_bound seen Hseen). lia. }
  cbn [Board.move_player_along_path_loop Board._board_state Board._observers].
  unfold BoardState.get_position_of_player.
  destruct (BoardState.live_players st !! player) as [[pos port]|] eqn:Hp; [|done].
  destruct (decide ((pos, port) ∈ seen)) as [|Hfresh]; [done|].
  destruct (BoardState.calculate_adjacent_position_of_player st player)
    as [[next_pos|]| |e] eqn:Hadj; try done.
  2: { simpl. intros [= ->].
       unfold BoardState.calculate_adjacent_position_of_player,
         BoardState.get_position_of_player, BoardPosition.new in Hadj.
       rewrite Hp in Hadj. repeat case_decide; done. }
  destruct (calculate_adjacent_Some _ _ _ _ _ Hp Hadj) as (Hport & Hnext & _).
  destruct (BoardState.get_tile st next_pos) as [next_tile|]; [|done].
  destruct (Port.get_adjoining_port port) as [next_port| |e] eqn:Hadjoin; [|done|].
  2: { simpl. intros [= ->]. unfold Port.get_adjoining_port in Hadjoin.
       repeat case_decide; done. }
  destruct (Tile.get_port_connected_to next_tile next_port)
    as [nnp| |e] eqn:Hcon; [|done|].
  2: { simpl. intros [= ->]. unfold Tile.get_port_connected_to in Hcon.
       induction (Tile.edges next_tile) as [|[a c] es IHes]; simpl in Hcon; [done|].
       repeat case_decide; try done; by apply IHes. }
  unfold Board.set_board_state. cbn [Board._board_state Board._observers].
  apply IH.
  - intros pos' port'. simpl. rewrite lookup_insert_eq. by intros [= <- _].
  - intros x [Hx| ->%elem_of_singleton]%elem_of_union; [by apply Hseen|].
    apply elem_of_all_pairs; [by eapply Hgrid|done].
  - rewrite size_union by set_solver. rewrite size_singleton. lia.
Qed.

(** a run that ended within its budget ends the same way with a larger one *)
Lemma move_player_loop_more_budget budget : forall seen b player r b' budget',
  Board.move_player_along_path_loop budget seen b player = (r, b') ->
  r <> Raise Diverges ->
  (budget <= budget')%nat ->
  Board.move_player_along_path_loop budget' seen b player = (r, b').
Proof.
  induction budget as [|budget IH]; intros seen b player r b' budget' Hrun Hr Hle.
  { simpl in Hrun. injection Hrun as <- _. done. }
  destruct budget' as [|budget']; [lia|].
  cbn [Board.move_player_along_path_loop] in *.
  destruct (BoardState.get_position_of_player _ _) as [[pos port]| |]; [|done..].
  destruct (decide _); [done|].
  destruct (BoardState.calculate_adjacent_position_of_player _ _) as [[next_pos|]| |];
    [|done..].
  destruct (BoardState.get_tile _ _); [|done].
  destruct (Port.get_adjoining_port _); [|done..].
  destruct (Tile.get_port_connected_to _ _); [|done..].
  apply IH; [done|done|lia].
Qed.

(** C10: on a board whose agent stands on the 10x10 grid, the loop of
    [_move_player_along_path] ends within 801 iterations: every iteration
    returns or adds a new (position, port) pair to the set of seen pairs,
    and there are 800 such pairs.  The outcome is the same for every
    budget of at least 801 iterations. *)
Theorem C10_path_following_terminates (b : Board.t) (player : ColorString) :
  on_grid (Board._board_state b) player ->
  exists r b',
    r <> Raise Diverges /\
    Board._move_player_along_path b player = (r, b') /\
    forall budget, (Board.PATH_BUDGET <= budget)%nat ->
      Board.move_player_along_path_loop budget ∅ b player = (r, b').
Proof.
  intros Hgrid. destruct b as [st obs].
  destruct (Board._move_player_along_path (Board.mk st obs) player) as [r b'] eqn:Hrun.
  assert (r <> Raise Diverges) as Hr.
  { pose proof (move_player_loop_terminates Board.PATH_BUDGET ∅ st obs player Hgrid)
      as Hterm.
    unfold Board._move_player_along_path in Hrun. rewrite Hrun in Hterm.
    apply Hterm.
    - intros x Hx. by apply not_elem_of_empty in Hx.
    - rewrite size_empty. unfold Board.PATH_BUDGET. lia. }
  exists r, b'. split; [done|]. split; [done|].
  intros budget Hle. by eapply move_player_loop_more_budget.
Qed.

Lemma C10_path_following_terminates_witness :
  on_grid loop_ready_state green /\
  exists r b',
    r <> Raise Diverges /\
    Board._move_player_along_path (Board.new (Some loop_ready_state)) green = (r, b').
Proof.
  assert (on_grid loop_ready_state green) as Hgrid.
  { intros pos port H. vm_compute in H. injection H as <- _. reflexivity. }
  split; [exact Hgrid|].
  destruct (C10_path_following_terminates (Board.new (Some loop_ready_state)) green Hgrid)
    as (r & b' & Hr & Hrun & _).
  by exists r, b'.
Defined.

(** ** Well-formed states: nothing is raised

    What the constructors of [BoardPosition], [Tile] and [InitialMove]
    guarantee of the objects held by a board state: agents stand on cells
    of the grid, on one of the eight ports, and the tiles are valid. *)

Definition wf_state (st : BoardState.t) : Prop :=
  (forall p pos port,
     BoardState.live_players st !! p = Some (pos, port) ->
     BoardPosition.valid pos /\ port ∈ port_range) /\
  (forall pos t, BoardState.board st !! pos = Some t -> Tile.valid t).

Lemma calculate_adjacent_ok st player pos port :
  BoardState.live_players st !! player = Some (pos, port) ->
  BoardPosition.valid pos -> port ∈ port_range ->
  exists o, BoardState.calculate_adjacent_position_of_player st player = Ok o.
Proof.
  intros Hp Hv Hport. apply BoardPosition_valid_iff in Hv.
  unfold BoardState.calculate_adjacent_position_of_player,
    BoardState.get_position_of_player. rewrite Hp.
  unfold Port.TopLeft, Port.TopRight, Port.RightTop, Port.RightBottom,
    Port.BottomLeft, Port.BottomRight, Port.LeftBottom, Port.LeftTop,
    MAX_BOARD_COORDINATE, MIN_BOARD_COORDINATE.
  repeat case_decide; try (by eexists);
    try (rewrite BoardPosition_new_Ok by lia; by eexists).
  exfalso. unfold port_range in Hport. set_solver.
Qed.

Lemma get_adjoining_port_ok port :
  port ∈ port_range ->
  exists q, Port.get_adjoining_port port = Ok q /\ q ∈ port_range.
Proof.
  unfold port_range. rewrite !elem_of_cons, elem_of_nil.
  intros [->|[->|[->|[->|[->|[->|[->|[->|[]]]]]]]]]; eexists;
    (split; [reflexivity|]); rewrite !elem_of_cons; tauto.
Qed.

Lemma get_port_connected_to_ok t port :
  Tile.valid t -> port ∈ port_range ->
  exists q, Tile.get_port_connected_to t port = Ok q /\ q ∈ port_range.
Proof.
  intros Hv Hport. pose proof (tile_laws t Hv) as H.
  unfold tile_lawsb in H. destruct (rotations_of t) as [[[[??]?]?]|]; [|done].
  apply andb_true_iff in H as [_ H]. rewrite forallb_forall in H.
  specialize (H port). rewrite <- list_elem_of_In in H. specialize (H Hport).
  destruct (Tile.get_port_connected_to t port) as [q| |]; [|done..].
  exists q. split; [done|]. by apply bool_decide_eq_true in H.
Qed.

Lemma move_player_loop_safe budget : forall seen st obs player,
  wf_state st ->
  is_Some (BoardState.live_players st !! player) ->
  (forall x, x ∈ seen -> x ∈ all_pairs) ->
  (800 < budget + size seen)%nat ->
  exists v b',
    Board.move_player_along_path_loop budget seen (Board.mk st obs) player = (Ok v, b') /\
    wf_state (Board._board_state b').
Proof.
  induction budget as [|budget IH]; intros seen st obs player Hwf Hlive Hseen Hbudget.
  { pose proof (seen_size_bound seen Hseen). lia. }
  cbn [Board.move_player_along_path_loop Board._board_state Board._observers].
  unfold BoardState.get_position_of_player.
  destruct Hlive as [[pos port] Hp]. rewrite Hp.
  destruct (proj1 Hwf _ _ _ Hp) as [Hpos Hport].
  destruct (decide ((pos, port) ∈ seen)) as [|Hfresh]; [by eexists _, _|].
  destruct (calculate_adjacent_ok _ _ _ _ Hp Hpos Hport) as [o Hadj]. rewrite Hadj.
  destruct o as [next_pos|]; [|by eexists _, _].
  destruct (calculate_adjacent_Some _ _ _ _ _ Hp Hadj) as (_ & Hnext & _).
  unfold BoardState.get_tile.
  destruct (BoardState.board st !! next_pos) as [next_tile|] eqn:Htile;
    [|by eexists _, _].
  destruct (get_adjoining_port_ok port Hport) as (next_port & -> & Hnp).
  destruct (get_port_connected_to_ok next_tile next_port (proj2 Hwf _ _ Htile) Hnp)
    as (nnp & -> & Hnnp).
  unfold Board.set_board_state. cbn [Board._board_state Board._observers].
  apply IH.
  - split; [|exact (proj2 Hwf)]. intros q pos' port'. simpl.
    rewrite lookup_insert. case_decide as Hq.
    + intros [= <- <-]. done.
    + apply (proj1 Hwf).
  - simpl. rewrite lookup_insert_eq. eauto.
  - intros x [Hx| ->%elem_of_singleton]%elem_of_union; [by apply Hseen|].
    by apply elem_of_all_pairs.
  - rewrite size_union by set_solver. rewrite size_singleton. lia.
Qed.

Lemma move_all_players_loop_safe players : forall acc st obs,
  wf_state st ->
  (forall p, p ∈ players -> is_Some (BoardState.live_players st !! p)) ->
  exists rm b',
    Board.move_all_players_loop players acc (Board.mk st obs) = (Ok rm, b').
Proof.
  induction players as [|p players IH]; intros acc st obs Hwf Hlive.
  { by eexists _, _. }
  cbn [Board.move_all_players_loop]. unfold Board._move_player_along_path.
  destruct (move_player_loop_safe Board.PATH_BUDGET ∅ st obs p Hwf)
    as (v & b' & Hrun & Hwf').
  { apply Hlive. left. }
  { intros x Hx. by apply not_elem_of_empty in Hx. }
  { rewrite size_empty. unfold Board.PATH_BUDGET. lia. }
  destruct (move_player_loop_spec Board.PATH_BUDGET ∅ st p)
    as (r & st' & el & Hspec & _ & Hdom & _).
  rewrite Hrun. rewrite Hspec in Hrun. injection Hrun as -> <-.
  apply IH; [done|].
  intros q Hq. apply elem_of_dom. cbn [Board._board_state]. rewrite Hdom.
  apply elem_of_dom, Hlive. by right.
Qed.

Lemma wf_state_with_tile st t pos :
  wf_state st -> Tile.valid t -> wf_state (BoardState.with_tile st t pos).
Proof.
  intros [Hl Hb] Ht. split; [exact Hl|]. intros pos' t'. simpl.
  rewrite lookup_insert. case_decide; [by intros [= <-]|apply Hb].
Qed.

(** on a well-formed state, an intermediate move with a valid tile whose
    checks pass returns ok *)
Lemma intermediate_move_safe st m pos obs :
  wf_state st -> Tile.valid (IntermediateMove.tile m) ->
  target_cell st (IntermediateMove.player m) = Ok pos ->
  exists b', Board.intermediate_move (Board.mk st obs) m = (Ok tt, b').
Proof.
  intros Hwf Ht Htc.
  destruct (intermediate_move_spec st m pos Htc)
    as (r & st' & el & ex & leftover & Hrun & _ & _ & Hok).
  destruct (move_all_players_loop_safe
              (map_to_list (BoardState.live_players st)).*1 []
              (BoardState.with_tile st (IntermediateMove.tile m) pos) obs)
    as (rm & b1 & Hloop).
  { by apply wf_state_with_tile. }
  { intros p. apply live_players_keys. }
  rewrite (Hok _ _ _ Hloop) in Hrun. eexists. apply Hrun.
Qed.

(** ** C2: the forced-move doctrine *)

(** [alt] is one of the offered tiles in one of its four rotations *)
Definition alternative (tile_choices : list Tile.t) (alt : Tile.t) : Prop :=
  exists c rotations,
    c ∈ tile_choices /\ Tile.all_rotations c = Ok rotations /\ alt ∈ rotations.

Lemma all_rotations_valid t :
  Tile.valid t ->
  exists rotations,
    Tile.all_rotations t = Ok rotations /\ Forall Tile.valid rotations.
Proof.
  intros Hv. unfold Tile.all_rotations. cbn [Tile.all_rotations_loop].
  destruct (rotate_valid t Hv) as (t1 & Hr1 & Hv1).
  destruct (rotate_valid t1 Hv1) as (t2 & Hr2 & Hv2).
  destruct (rotate_valid t2 Hv2) as (t3 & Hr3 & Hv3).
  destruct (rotate_valid t3 Hv3) as (t4 & Hr4 & Hv4).
  rewrite Hr1. cbn [mbind Res_bind]. rewrite Hr2. cbn [mbind Res_bind].
  rewrite Hr3. cbn [mbind Res_bind]. rewrite Hr4. cbn [mbind Res_bind].
  eexists. split; [reflexivity|]. simpl. repeat constructor; done.
Qed.





Section LegalForCondition.
Context (check : BoardState.t -> IntermediateMove.t -> Res bool).
Context (st : BoardState.t) (m : IntermediateMove.t) (msg : string).




End LegalForCondition.


Lemma alternative_valid tile_choices alt :
  Forall Tile.valid tile_choices -> alternative tile_choices alt -> Tile.valid alt.
Proof.
  intros Hvalid (c & rotations & Hc & Hrot & Halt).
  rewrite Forall_forall in Hvalid.
  destruct (all_rotations_valid c (Hvalid c Hc)) as (rotations' & Hrot' & Hall).
  rewrite Hrot in Hrot'. injection Hrot' as <-.
  rewrite Forall_forall in Hall. by apply Hall.
Qed.







(** ** Moves and the set of live agents *)

(** an intermediate move never brings an agent onto the board *)
Lemma intermediate_move_live b m b' :
  Board.intermediate_move b m = (Ok tt, b') ->
  dom (Board.live_players b') ⊆ dom (Board.live_players b).
Proof.
  destruct b as [st obs]. intros Hmove.
  destruct (target_cell_of_ok _ _ _ _ Hmove eq_refl) as [pos Htc].
  cbn [Board._board_state] in Htc.
  destruct (intermediate_move_spec st m pos Htc)
    as (r & st' & el & ex & leftover & Hrun & _ & Hok & _).
  rewrite Hrun in Hmove. injection Hmove as -> <-.
  unfold Board.live_players. cbn [Board._board_state].
  destruct (Hok eq_refl) as [_ [(_ & _ & Hdom)|(_ & _ & ->)]]; [done|].
  apply subseteq_dom, map_filter_subseteq.
Qed.

(** every live agent rests: it stands on a tile of the grid and the cell
    that its port leads to is on the board and empty *)
Definition all_rest (st : BoardState.t) : Prop :=
  forall p pos port,
    BoardState.live_players st !! p = Some (pos, port) ->
    BoardPosition.valid pos /\
    is_Some (BoardState.board st !! pos) /\
    exists next,
      BoardState.calculate_adjacent_position_of_player st p = Ok (Some next) /\
      BoardState.board st !! next = None.

Lemma calculate_adjacent_ext st1 st2 p :
  BoardState.live_players st1 !! p = BoardState.live_players st2 !! p ->
  BoardState.calculate_adjacent_position_of_player st1 p
  = BoardState.calculate_adjacent_position_of_player st2 p.
Proof.
  intros H. unfold BoardState.calculate_adjacent_position_of_player,
    BoardState.get_position_of_player. by rewrite H.
Qed.

Lemma move_player_loop_rest budget st obs p next :
  is_Some (BoardState.live_players st !! p) ->
  BoardState.calculate_adjacent_position_of_player st p = Ok (Some next) ->
  BoardState.board st !! next = None ->
  Board.move_player_along_path_loop (S budget) ∅ (Board.mk st obs) p
  = (Ok false, Board.mk st obs).
Proof.
  intros [[pos port] Hp] Hadj Hfree.
  cbn [Board.move_player_along_path_loop Board._board_state].
  unfold BoardState.get_position_of_player. rewrite Hp.
  rewrite decide_False by apply not_elem_of_empty.
  rewrite Hadj. unfold BoardState.get_tile. by rewrite Hfree.
Qed.

Lemma move_all_players_loop_rest players : forall acc st obs,
  (forall p, p ∈ players ->
     is_Some (BoardState.live_players st !! p) /\
     exists next,
       BoardState.calculate_adjacent_position_of_player st p = Ok (Some next) /\
       BoardState.board st !! next = None) ->
  Board.move_all_players_loop players acc (Board.mk st obs)
  = (Ok acc, Board.mk st obs).
Proof.
  induction players as [|p players IH]; intros acc st obs Hrest; [done|].
  cbn [Board.move_all_players_loop]. unfold Board._move_player_along_path.
  destruct (Hrest p ltac:(left)) as (Hlive & next & Hadj & Hfree).
  unfold Board.PATH_BUDGET.
  replace (10 * 10 * 8 + 1)%nat with (S (10 * 10 * 8)) by lia.
  rewrite (move_player_loop_rest _ _ _ _ _ Hlive Hadj Hfree).
  apply IH. intros q Hq. apply Hrest. by right.
Qed.

Lemma faces_interior_adjacent st p pos port :
  BoardState.live_players st !! p = Some (pos, port) ->
  BoardPosition.valid pos -> port ∈ port_range ->
  BoardState.port_faces_interior st pos port = true ->
  exists next, BoardState.calculate_adjacent_position_of_player st p = Ok (Some next).
Proof.
  intros Hp Hv Hport Hface.
  destruct (calculate_adjacent_ok _ _ _ _ Hp Hv Hport) as [[next|] Hadj]; [by eexists|].
  exfalso.
  assert (port_faces_rim pos port) as Hrim.
  2: { apply (port_faces_interior_spec st) in Hrim. by rewrite Hrim in Hface. }
  apply BoardPosition_valid_iff in Hv.
  unfold BoardState.calculate_adjacent_position_of_player,
    BoardState.get_position_of_player in Hadj. rewrite Hp in Hadj.
  unfold port_faces_rim.
  unfold Port.TopLeft, Port.TopRight, Port.RightTop, Port.RightBottom,
    Port.BottomLeft, Port.BottomRight, Port.LeftBottom, Port.LeftTop,
    MAX_BOARD_COORDINATE, MIN_BOARD_COORDINATE in *.
  repeat case_decide; try done;
    try (rewrite BoardPosition_new_Ok in Hadj by lia; done);
    repeat match goal with
           | H : _ ∈ _ :: _ |- _ => rewrite !elem_of_cons, elem_of_nil in H
           end; intuition lia.
Qed.

(** an initial move that the board accepts puts the tile and the agent on
    the board and moves nobody: all agents still rest afterwards *)
Lemma initial_move_rest st obs m b' :
  all_rest st ->
  BoardPosition.valid (InitialMove.pos m) ->
  InitialMove.port m ∈ port_range ->
  Board.initial_move (Board.mk st obs) m = (Ok tt, b') ->
  BoardState.live_players st !! InitialMove.player m = None /\
  Board.live_players b'
  = <[InitialMove.player m := (InitialMove.pos m, InitialMove.port m)]>
      (BoardState.live_players st) /\
  all_rest (Board._board_state b').
Proof.
  intros Hrest Hv Hport.
  unfold Board.initial_move. unfold Board.atomic at 1.
  destruct (validate_initial_move_cases (Board.mk st obs) m Hv) as [Hcases _].
  destruct (Board.validate_initial_move (Board.mk st obs) m) as [[]|msg|e] eqn:Hval;
    [|done..].
  assert (~ (C5_listed_conditions (Board.mk st obs) m \/
             port_faces_rim (InitialMove.pos m) (InitialMove.port m))) as Hnot.
  { intros Hc. apply Hcases in Hc. done. }
  unfold C5_listed_conditions, Board.live_players in Hnot.
  cbn [Board._board_state] in Hnot.
  assert (BoardState.live_players st !! InitialMove.player m = None) as Hfresh.
  { destruct (BoardState.live_players st !! InitialMove.player m) eqn:E; [|done].
    exfalso. apply Hnot. left. left. by eexists. }
  assert (BoardState.board st !! InitialMove.pos m = None) as Hfree.
  { destruct (BoardState.board st !! InitialMove.pos m) eqn:E; [|done].
    exfalso. apply Hnot. left. right. left. by eexists. }
  assert (neighbors_all_empty st (InitialMove.pos m)) as Hempty.
  { intros q Hq. destruct (BoardState.board st !! q) eqn:E; [|done].
    exfalso. apply Hnot. left. do 3 right. intros HD. by rewrite (HD q Hq) in E. }
  assert (BoardState.port_faces_interior st (InitialMove.pos m) (InitialMove.port m)
          = true) as Hface.
  { destruct (BoardState.port_faces_interior st _ _) eqn:E; [done|].
    exfalso. apply Hnot. right. by apply (port_faces_interior_spec st). }
  clear Hnot Hcases Hval.
  set (pos := InitialMove.pos m) in *. set (port := InitialMove.port m) in *.
  set (player := InitialMove.player m) in *.
  unfold Board.initial_move_with_scissors, Board.atomic, Board.set_board_state.
  cbn [Board._board_state Board._observers].
  set (st1 := BoardState.with_change st (Some (InitialMove.tile m, pos))
                (Some (<[player := (pos, port)]> (BoardState.live_players st)))).
  assert (all_rest st1) as Hrest1.
  { intros q posq portq. unfold st1. simpl. rewrite lookup_insert.
    case_decide as Hq.
    - intros [= <- <-]. subst q. split; [done|].
      split; [rewrite lookup_insert_eq; eauto|].
      destruct (faces_interior_adjacent st1 player pos port) as [next Hadj]; try done.
      { unfold st1. simpl. apply lookup_insert_eq. }
      exists next. split; [done|].
      destruct (calculate_adjacent_Some st1 player pos port next) as (_ & Hnv & Hrel);
        [unfold st1; simpl; apply lookup_insert_eq|done|].
      rewrite lookup_insert_ne.
      + apply Hempty. split; [done|]. exact Hrel.
      + intros ->. lia.
    - intros Hpq. destruct (Hrest q posq portq Hpq) as (Hvq & Htile & next & Hadj & Hnone).
      split; [done|]. split.
      { rewrite lookup_insert. case_decide; eauto. }
      exists next. split.
      { rewrite <- Hadj. apply calculate_adjacent_ext. unfold st1. simpl.
        by rewrite lookup_insert_ne. }
      rewrite lookup_insert_ne; [done|].
      intros ->.
      destruct (calculate_adjacent_Some st q posq portq next Hpq Hadj)
        as (_ & _ & Hrel).
      assert (BoardState.board st !! posq = None) as Habs.
      { apply Hempty. split; [done|]. lia. }
      rewrite Habs in Htile. by destruct Htile. }
  unfold Board._move_all_players_along_paths. cbn [Board._board_state].
  rewrite move_all_players_loop_rest.
  2: { intros q Hq. apply live_players_keys in Hq as [[posq portq] Hpq].
       destruct (Hrest1 q posq portq Hpq) as (_ & _ & Hnext). split; eauto. }
  cbn [Board.remove_players_loop is_error fst snd].
  intros [= <-]. done.
Qed.

(** ** C8: the result of a match *)

(** in how many tiers an agent occurs *)
Definition occurrences (c : ColorString) (tiers : list (gset ColorString)) : nat :=
  length (filter (fun tier : gset ColorString => c ∈ tier) tiers).

Definition indicator (P : Prop) `{Decision P} : nat := if decide P then 1%nat else 0%nat.

Lemma occurrences_app c l1 l2 :
  occurrences c (l1 ++ l2) = (occurrences c l1 + occurrences c l2)%nat.
Proof. unfold occurrences. by rewrite filter_app, length_app. Qed.

Lemma occurrences_singleton c (tier : gset ColorString) :
  occurrences c [tier] = indicator (c ∈ tier).
Proof.
  unfold occurrences, indicator. rewrite filter_cons, filter_nil.
  by destruct (decide (c ∈ tier)).
Qed.

Lemma occurrences_reverse c l : occurrences c (reverse l) = occurrences c l.
Proof.
  unfold occurrences. apply Permutation_length.
  apply filter_Permutation. apply reverse_Permutation.
Qed.

Lemma occurrences_nonempty c l :
  occurrences c (filter (fun x : gset ColorString => x <> ∅) l) = occurrences c l.
Proof.
  unfold occurrences. induction l as [|x l IH]; [done|].
  rewrite !filter_cons. destruct (decide (x <> ∅)) as [Hx|Hx].
  - rewrite filter_cons. destruct (decide (c ∈ x)); simpl; by rewrite IH.
  - rewrite IH. destruct (decide (c ∈ x)) as [Hc|]; [|done].
    exfalso. apply Hx. intros ->. set_solver.
Qed.

Lemma occurrences_pos c l :
  (0 < occurrences c l)%nat <-> exists tier, tier ∈ l /\ c ∈ tier.
Proof.
  unfold occurrences. split.
  - intros Hpos. destruct (filter _ l) as [|tier l'] eqn:E; [simpl in Hpos; lia|].
    assert (tier ∈ filter (fun tier : gset ColorString => c ∈ tier) l) as Hin
      by (rewrite E; left).
    apply list_elem_of_filter in Hin as [Hc Hin]. eauto.
  - intros (tier & Hin & Hc).
    assert (tier ∈ filter (fun tier : gset ColorString => c ∈ tier) l) as Hin'
      by (by apply list_elem_of_filter).
    destruct (filter _ l); [by apply elem_of_nil in Hin'|simpl; lia].
Qed.

Lemma occurrences_once c l i j (X Y : gset ColorString) :
  (occurrences c l <= 1)%nat ->
  l !! i = Some X -> l !! j = Some Y -> c ∈ X -> c ∈ Y -> i = j.
Proof.
  revert i j. induction l as [|x l IH]; intros i j Hocc Hi Hj HX HY; [done|].
  change (x :: l) with ([x] ++ l) in Hocc. rewrite occurrences_app in Hocc.
  rewrite occurrences_singleton in Hocc. unfold indicator in Hocc.
  assert (forall k Z, l !! k = Some Z -> c ∈ Z -> (0 < occurrences c l)%nat) as Hpos.
  { intros k Z Hk HZ. apply occurrences_pos. exists Z. split; [|done].
    by eapply list_elem_of_lookup_2. }
  destruct i as [|i], j as [|j]; simpl in Hi, Hj.
  - done.
  - injection Hi as ->. rewrite decide_True in Hocc by done.
    pose proof (Hpos _ _ Hj HY). lia.
  - injection Hj as ->. rewrite decide_True in Hocc by done.
    pose proof (Hpos _ _ Hi HX). lia.
  - f_equal. apply IH; try done. destruct (decide (c ∈ x)); lia.
Qed.

Lemma elem_of_filter_keys {A} (Q : ColorString -> Prop) `{forall c, Decision (Q c)}
    (l : list (ColorString * A)) c :
  c ∈ (filter (fun item : ColorString * A => Q item.1) l).*1 <-> c ∈ l.*1 /\ Q c.
Proof.
  rewrite !list_elem_of_fmap. split.
  - intros ([c' a] & -> & [HQ Hin]%list_elem_of_filter). split; [|done].
    by exists (c', a).
  - intros [([c' a] & -> & Hin) HQ]. exists (c', a). split; [done|].
    by apply list_elem_of_filter.
Qed.

Lemma NoDup_filter_keys {A} (P : ColorString * A -> Prop) `{forall x, Decision (P x)}
    (l : list (ColorString * A)) :
  NoDup l.*1 -> NoDup (filter P l).*1.
Proof.
  intros Hnd. refine (sublist_NoDup _ _ Hnd _).
  apply fmap_sublist, sublist_filter.
Qed.

Section RefereeMatch.
Context {Player : Type} `{EqDecision Player} {World : Type}.
Context (player_set_color :
           Player -> ColorString -> World -> Reply unit * World).
Context (player_set_players :
           Player -> list ColorString -> World -> Reply unit * World).
Context (player_generate_first_move :
           Player -> list Tile.t -> BoardState.t -> World ->
           Reply (BoardPosition.t * Tile.t * PortID) * World).
Context (player_generate_move :
           Player -> list Tile.t -> BoardState.t -> World ->
           Reply Tile.t * World).

Abbreviation referee := (@Referee.t Player).

Definition colors (items : list (ColorString * Player)) : gset ColorString :=
  list_to_set items.*1.

(** [r'] is [r] up to the tile iterator and to more cheaters, all of
    them among [cs] *)
Definition more_cheaters (cs : gset ColorString) (r r' : referee) : Prop :=
  Referee._players r' = Referee._players r /\
  Referee._leaderboard r' = Referee._leaderboard r /\
  Referee._cheaters r ⊆ Referee._cheaters r' /\
  Referee._cheaters r' ⊆ Referee._cheaters r ∪ cs.

Lemma more_cheaters_refl cs r : more_cheaters cs r r.
Proof. unfold more_cheaters. set_solver. Qed.

Lemma more_cheaters_trans cs1 cs2 r1 r2 r3 :
  more_cheaters cs1 r1 r2 -> more_cheaters cs2 r2 r3 ->
  more_cheaters (cs1 ∪ cs2) r1 r3.
Proof.
  unfold more_cheaters. intros (-> & -> & ? & ?) (-> & -> & ? & ?).
  set_solver.
Qed.

Lemma more_cheaters_mono cs cs' r r' :
  cs ⊆ cs' -> more_cheaters cs r r' -> more_cheaters cs' r r'.
Proof. unfold more_cheaters. intros ? (-> & -> & ? & ?). set_solver. Qed.

Lemma handle_player_timeout_spec {A} r color (reply : Reply A) :
  more_cheaters {[color]} r (Referee._handle_player_timeout r color reply).
Proof. destruct reply; unfold more_cheaters; simpl; set_solver. Qed.

Lemma add_cheater_spec (r : referee) color :
  more_cheaters {[color]} r (Referee.add_cheater r color) /\
  color ∈ Referee._cheaters (Referee.add_cheater r color).
Proof. unfold more_cheaters. simpl. set_solver. Qed.

Lemma initialize_players_loop_spec items : forall r w r' w',
  Referee.initialize_players_loop player_set_color player_set_players items r w
  = (r', w') ->
  more_cheaters (colors items) r r'.
Proof.
  induction items as [|[color player] items IH]; intros r w r' w' Hrun.
  { injection Hrun as <- _. apply more_cheaters_refl. }
  cbn [Referee.initialize_players_loop] in Hrun.
  destruct (player_set_color player color w) as [reply1 w1].
  destruct (player_set_players player _ w1) as [reply2 w2].
  apply IH in Hrun.
  pose proof (handle_player_timeout_spec r color reply1) as H1.
  pose proof (handle_player_timeout_spec
                (Referee._handle_player_timeout r color reply1) color reply2) as H2.
  pose proof (more_cheaters_trans _ _ _ _ _ (more_cheaters_trans _ _ _ _ _ H1 H2) Hrun)
    as H3.
  eapply more_cheaters_mono; [|exact H3]. unfold colors. simpl. set_solver.
Qed.

Lemma get_tiles_spec (r : referee) n res r' :
  Referee._get_tiles r n = (res, r') -> more_cheaters ∅ r r'.
Proof.
  unfold Referee._get_tiles. destruct (Referee._tile_iterator r) as [it|].
  - destruct (Referee.get_tiles_loop n it) as [res' it']. intros [= _ <-].
    unfold more_cheaters. simpl. set_solver.
  - intros [= _ <-]. apply more_cheaters_refl.
Qed.

(** the move checked for the agent [color]: the agent becomes a cheater
    when an error is reported, and an accepted move is a move of [color]
    with a position of the grid and one of the eight ports *)
Lemma get_check_initial_move_spec r board color player tiles w res r' w' :
  Referee._get_check_initial_move player_generate_first_move
    r board color player tiles w = (res, r', w') ->
  more_cheaters {[color]} r r' /\
  (is_error res = true -> color ∈ Referee._cheaters r') /\
  (forall move, res = Ok move ->
     Referee._cheaters r' = Referee._cheaters r /\
     InitialMove.player move = color /\
     BoardPosition.valid (InitialMove.pos move) /\
     InitialMove.port move ∈ port_range).
Proof.
  unfold Referee._get_check_initial_move.
  destruct (player_generate_first_move player tiles _ w) as [reply w1].
  destruct reply as [[[pos tile] port]|msg| |].
  - cbn [Referee._handle_player_timeout]. unfold InitialMove.new.
    repeat case_decide.
    1-3: intros [= <- <- _]; split; [apply more_cheaters_refl|done].
    destruct (RuleChecker.validate_initial_move _ _ _).
    + intros [= <- <- _]. split; [apply more_cheaters_refl|]. split; [done|].
      intros move [= <-].
      cbn [InitialMove.player InitialMove.pos InitialMove.port].
      split; [done|]. split; [done|]. split; [done|].
      change port_range with Port.all. done.
    + intros [= <- <- _]. split; [apply add_cheater_spec|done].
    + intros [= <- <- _]. split; [apply more_cheaters_refl|done].
  - cbn [Referee._handle_player_timeout]. intros [= <- <- _].
    split; [apply add_cheater_spec|]. split; [|done]. intros _. apply add_cheater_spec.
  - intros [= <- <- _]. split; [apply add_cheater_spec|done].
  - intros [= <- <- _]. split; [apply more_cheaters_refl|done].
Qed.

Lemma initial_turns_loop_spec items : forall r board w r' board' w',
  Referee.initial_turns_loop player_generate_first_move items r board w
  = (Ok tt, r', board', w') ->
  all_rest (Board._board_state board) ->
  more_cheaters (colors items) r r' /\
  all_rest (Board._board_state board') /\
  dom (Board.live_players board) ⊆ dom (Board.live_players board') /\
  dom (Board.live_players board') ⊆ dom (Board.live_players board) ∪ colors items /\
  (forall c, c ∈ colors items ->
     c ∈ Referee._cheaters r' \/ c ∈ dom (Board.live_players board')).
Proof.
  induction items as [|[color player] items IH];
    intros r board w r' board' w' Hrun Hrest.
  { injection Hrun as <- <- _. split; [apply more_cheaters_refl|].
    split; [done|]. unfold colors. simpl. clear. set_solver. }
  cbn [Referee.initial_turns_loop] in Hrun.
  destruct (Referee._get_tiles r 3) as [[tiles|msg|e] r1] eqn:Htiles; [|done..].
  apply get_tiles_spec in Htiles.
  destruct (Referee._get_check_initial_move _ r1 board color player tiles w)
    as [[res r2] w2] eqn:Hcheck.
  apply get_check_initial_move_spec in Hcheck as (Hmore & Herr & Hok).
  pose proof (more_cheaters_trans _ _ _ _ _ Htiles Hmore) as Hmore2.
  assert (colors ((color, player) :: items) = {[color]} ∪ colors items) as Hcolors.
  { unfold colors. simpl. done. }
  destruct res as [move|msg|e]; [| |done].
  - destruct (Hok move eq_refl) as (Hch & Hplayer & Hpos & Hport).
    destruct (Board.initial_move board move) as [[[]|msg|e] board2] eqn:Hmove;
      [|done..].
    destruct board as [st obs].
    destruct (initial_move_rest _ _ _ _ Hrest Hpos Hport Hmove)
      as (Hfresh & Hlive & Hrest2).
    destruct (IH _ _ _ _ _ _ Hrun Hrest2) as (Hmore3 & Hrest' & Hsub1 & Hsub2 & Hall).
    pose proof (more_cheaters_trans _ _ _ _ _ Hmore2 Hmore3) as Hmore4.
    assert (dom (Board.live_players board2)
            = {[color]} ∪ dom (BoardState.live_players st)) as Hdom.
    { rewrite Hlive, dom_insert_L. by rewrite Hplayer. }
    unfold Board.live_players at 1 3. cbn [Board._board_state].
    rewrite Hcolors. rewrite Hdom in Hsub1, Hsub2.
    split; [eapply more_cheaters_mono; [|exact Hmore4]; clear; set_solver|].
    split; [done|].
    split; [clear -Hsub1; set_solver|]. split; [clear -Hsub2; set_solver|].
    intros c [->%elem_of_singleton|Hc]%elem_of_union; [|by apply Hall].
    right. clear -Hsub1. set_solver.
  - destruct (IH _ _ _ _ _ _ Hrun Hrest) as (Hmore3 & Hrest' & Hsub1 & Hsub2 & Hall).
    pose proof (more_cheaters_trans _ _ _ _ _ Hmore2 Hmore3) as Hmore4.
    rewrite Hcolors.
    split; [eapply more_cheaters_mono; [|exact Hmore4]; clear; set_solver|].
    split; [done|]. split; [done|]. split; [clear -Hsub2; set_solver|].
    intros c [->%elem_of_singleton|Hc]%elem_of_union; [|by apply Hall].
    left. destruct Hmore3 as (_ & _ & Hsub & _). apply Hsub. by apply Herr.
Qed.

Lemma filter_keys_nil (l : list (ColorString * Player)) :
  filter (fun item : ColorString * Player => item.1 ∉ @nil ColorString) l = l.
Proof.
  induction l as [|x l IH]; [done|].
  rewrite filter_cons, decide_True by apply not_elem_of_nil. by rewrite IH.
Qed.

Lemma filter_keys_cons p ps (l : list (ColorString * Player)) :
  filter (fun item : ColorString * Player => item.1 ∉ ps)
         (filter (fun item : ColorString * Player => item.1 <> p) l)
  = filter (fun item : ColorString * Player => item.1 ∉ p :: ps) l.
Proof.
  rewrite list_filter_filter. apply list_filter_iff.
  intros x. rewrite not_elem_of_cons. tauto.
Qed.

(** [_remove_cheaters] never fails: the agents of the list leave the
    roster and the board *)
Lemma remove_cheaters_loop_spec l : forall (r : referee) board,
  exists r' board',
    Referee.remove_cheaters_loop l r board = (Ok tt, r', board') /\
    Referee._players r'
    = filter (fun item : ColorString * Player => item.1 ∉ l) (Referee._players r) /\
    Referee._leaderboard r' = Referee._leaderboard r /\
    Referee._cheaters r' = Referee._cheaters r /\
    (forall c pp, Board.live_players board' !! c = Some pp <->
                  Board.live_players board !! c = Some pp /\ c ∉ l).
Proof.
  induction l as [|p l IH]; intros r board.
  { exists r, board. split; [done|]. rewrite filter_keys_nil.
    split; [done|]. split; [done|]. split; [done|].
    intros c pp. pose proof (not_elem_of_nil c). tauto. }
  cbn [Referee.remove_cheaters_loop].
  set (r1 := Referee.set_players_field r _).
  assert (forall board1,
    (forall c pp, Board.live_players board1 !! c = Some pp <->
                  Board.live_players board !! c = Some pp /\ c <> p) ->
    exists r' board',
      Referee.remove_cheaters_loop l r1 board1 = (Ok tt, r', board') /\
      Referee._players r'
      = filter (fun item : ColorString * Player => item.1 ∉ p :: l)
               (Referee._players r) /\
      Referee._leaderboard r' = Referee._leaderboard r /\
      Referee._cheaters r' = Referee._cheaters r /\
      (forall c pp, Board.live_players board' !! c = Some pp <->
                    Board.live_players board !! c = Some pp /\ c ∉ p :: l)) as Hstep.
  { intros board1 Hlive1.
    destruct (IH r1 board1) as (r' & board' & Hrun & Hpl & Hlb & Hch & Hlive).
    exists r', board'. split; [done|]. split.
    { rewrite Hpl. unfold r1. cbn [Referee._players Referee.set_players_field].
      apply filter_keys_cons. }
    split; [done|]. split; [done|].
    intros c pp. rewrite Hlive, Hlive1, not_elem_of_cons. tauto. }
  destruct (Board.live_players board !! p) as [pp|] eqn:Hp.
  - unfold Board.remove_player. unfold Board.live_players in Hp. rewrite Hp.
    apply Hstep. intros c pp'.
    unfold Board.live_players, Board.set_board_state,
      BoardState.with_live_players, BoardState.with_change.
    cbn [Board._board_state BoardState.live_players].
    rewrite lookup_delete_Some. split; [intros [? ?]|intros [? ?]]; done.
  - apply Hstep. intros c pp'. split; [|tauto].
    intros Hq. split; [done|]. intros ->. congruence.
Qed.

Lemma get_check_intermediate_move_spec r color board tiles player w res r' w' :
  Referee._get_check_intermediate_move player_generate_move
    r color board tiles player w = (res, r', w') ->
  more_cheaters {[color]} r r'.
Proof.
  unfold Referee._get_check_intermediate_move.
  destruct (player_generate_move player tiles _ w) as [reply w1].
  destruct reply as [tile|msg| |].
  - cbn [Referee._handle_player_timeout]. unfold IntermediateMove.new.
    case_decide; [intros [= _ <- _]; apply more_cheaters_refl|].
    destruct (RuleChecker.validate_move _ _ _); intros [= _ <- _];
      apply more_cheaters_refl || apply add_cheater_spec.
  - cbn [Referee._handle_player_timeout]. intros [= _ <- _]. apply add_cheater_spec.
  - intros [= _ <- _]. apply add_cheater_spec.
  - intros [= _ <- _]. apply more_cheaters_refl.
Qed.

(** in a round only agents that are live when the round starts become
    cheaters, and no agent comes onto the board *)
Lemma single_round_loop_spec items : forall r board w r' board' w',
  Referee.single_round_loop player_generate_move items r board w
  = (Ok tt, r', board', w') ->
  more_cheaters (dom (Board.live_players board)) r r' /\
  dom (Board.live_players board') ⊆ dom (Board.live_players board).
Proof.
  induction items as [|[color player] items IH]; intros r board w r' board' w' Hrun.
  { injection Hrun as <- <- _. split; [apply more_cheaters_refl|done]. }
  cbn [Referee.single_round_loop] in Hrun.
  destruct (Board.live_players board !! color) as [pp|] eqn:Hlive; [|by eapply IH].
  assert (color ∈ dom (Board.live_players board)) as Hcolor
    by (apply elem_of_dom; eauto).
  destruct (Referee._get_tiles r 2) as [[tiles|msg|e] r1] eqn:Htiles; [|done..].
  apply get_tiles_spec in Htiles.
  destruct (Referee._get_check_intermediate_move _ r1 color board tiles player w)
    as [[res r2] w2] eqn:Hcheck.
  apply get_check_intermediate_move_spec in Hcheck.
  pose proof (more_cheaters_trans _ _ _ _ _ Htiles Hcheck) as Hmore.
  destruct res as [move|msg|e]; [| |done].
  - destruct (Board.intermediate_move board move) as [[[]|msg|e] board2] eqn:Hmove;
      [|done..].
    apply intermediate_move_live in Hmove.
    destruct (IH _ _ _ _ _ _ Hrun) as [Hmore2 Hsub].
    pose proof (more_cheaters_trans _ _ _ _ _ Hmore Hmore2) as Hmore3.
    split; [|by etrans].
    eapply more_cheaters_mono; [|exact Hmore3].
    clear -Hcolor Hmove. set_solver.
  - destruct (IH _ _ _ _ _ _ Hrun) as [Hmore2 Hsub].
    pose proof (more_cheaters_trans _ _ _ _ _ Hmore Hmore2) as Hmore3.
    split; [|done].
    eapply more_cheaters_mono; [|exact Hmore3].
    clear -Hcolor. set_solver.
Qed.

Lemma leaderboard_last_add_snoc rest (tier : gset ColorString) k :
  Referee.leaderboard_last_add (rest ++ [tier]) k = Ok (rest ++ [tier ∪ {[k]}]).
Proof.
  unfold Referee.leaderboard_last_add. rewrite last_snoc. f_equal.
  rewrite length_app. simpl.
  replace (length rest + 1 - 1)%nat with (length rest + 0)%nat by lia.
  by rewrite insert_app_r.
Qed.

(** the agents lost in a round join the last tier and leave the roster *)
Lemma players_lost_loop_spec l : forall (r r' : referee) rest tier,
  Referee.players_lost_loop l r = (Ok tt, r') ->
  Referee._leaderboard r = rest ++ [tier] ->
  Referee._leaderboard r' = rest ++ [tier ∪ list_to_set l] /\
  Referee._players r'
  = filter (fun item : ColorString * Player => item.1 ∉ l) (Referee._players r) /\
  Referee._cheaters r' = Referee._cheaters r.
Proof.
  induction l as [|k l IH]; intros r r' rest tier Hrun Hlb.
  { injection Hrun as <-. rewrite filter_keys_nil. split; [|done].
    rewrite Hlb. do 2 f_equal. clear. set_solver. }
  cbn [Referee.players_lost_loop] in Hrun.
  rewrite Hlb, leaderboard_last_add_snoc in Hrun.
  case_decide; [|done].
  apply (IH _ _ rest (tier ∪ {[k]})) in Hrun as (Hlb' & Hpl & Hch); [|done].
  split; [|split; [|done]].
  - rewrite Hlb'. do 2 f_equal. clear. set_solver.
  - rewrite Hpl. cbn [Referee._players Referee.set_players_field Referee.set_leaderboard].
    apply filter_keys_cons.
Qed.

Lemma remove_cheaters_spec (r : referee) board :
  exists r' board',
    Referee._remove_cheaters r board = (Ok tt, r', board') /\
    (NoDup (Referee._players r).*1 -> NoDup (Referee._players r').*1) /\
    (forall c, c ∈ colors (Referee._players r') <->
               c ∈ colors (Referee._players r) /\ c ∉ Referee._cheaters r) /\
    Referee._leaderboard r' = Referee._leaderboard r /\
    Referee._cheaters r' = Referee._cheaters r /\
    (forall c, c ∈ (dom (Board.live_players board') : gset ColorString) <->
               c ∈ (dom (Board.live_players board) : gset ColorString) /\
               c ∉ Referee._cheaters r).
Proof.
  unfold Referee._remove_cheaters.
  destruct (remove_cheaters_loop_spec (elements (Referee._cheaters r)) r board)
    as (r' & board' & Hrun & Hpl & Hlb & Hch & Hlive).
  exists r', board'. split; [done|]. rewrite Hpl.
  split; [apply NoDup_filter_keys|].
  split.
  { intros c. unfold colors. rewrite !elem_of_list_to_set.
    pose proof (elem_of_filter_keys
                  (fun c => c ∉ elements (Referee._cheaters r))
                  (Referee._players r) c) as Hf.
    cbn beta in Hf. rewrite Hf. by rewrite elem_of_elements. }
  split; [done|]. split; [done|].
  intros c. rewrite !elem_of_dom. split.
  - intros [pp Hpp]. apply Hlive in Hpp as [Hpp Hn].
    rewrite elem_of_elements in Hn. eauto.
  - intros [[pp Hpp] Hn]. exists pp. apply Hlive. by rewrite elem_of_elements.
Qed.

(** ** The invariant of a match

    Between two rounds the roster of the referee is the set of live
    agents of the board, and every agent of the starting roster is
    counted exactly once by the tiers, the cheaters and the live
    agents; nobody else is counted. *)
Definition match_invariant (roster : gset ColorString) (r : referee)
    (board : Board.t) : Prop :=
  NoDup (Referee._players r).*1 /\
  colors (Referee._players r) = dom (Board.live_players board) /\
  forall c,
    (occurrences c (Referee._leaderboard r)
     + indicator (c ∈ Referee._cheaters r)
     + indicator (c ∈ (dom (Board.live_players board) : gset ColorString))
     = indicator (c ∈ roster))%nat.

Lemma run_game_single_round_spec roster r board w r' board' w' :
  Referee._run_game_single_round player_generate_move r board w
  = (Ok tt, r', board', w') ->
  match_invariant roster r board -> match_invariant roster r' board'.
Proof.
  unfold Referee._run_game_single_round. intros Hrun (Hnd & Hkeys & Hcount).
  destruct (Referee._confirm_all_components r); [|done..].
  destruct (Referee.single_round_loop _ (Referee._players r) r board w)
    as [[[res r1] board1] w1] eqn:Hloop.
  destruct res as [[]|msg|e]; [|done..].
  apply single_round_loop_spec in Hloop as [(Hpl1 & Hlb1 & Hch1 & Hch1') Hsub].
  unfold Referee._handle_players_lost_in_round in Hrun.
  cbn [Referee._cheaters Referee.set_leaderboard] in Hrun.
  destruct (Referee.players_lost_loop _ _) as [res2 r3] eqn:Hlost.
  destruct res2 as [[]|msg|e]; [|done..].
  apply (players_lost_loop_spec _ _ _ (Referee._leaderboard r1) ∅)
    in Hlost as (Hlb3 & Hpl3 & Hch3); [|done].
  cbn [Referee._players Referee._cheaters Referee.set_leaderboard] in Hpl3, Hch3.
  destruct (remove_cheaters_spec r3 board1)
    as (r4 & board4 & Hrem & Hnd4 & Hkeys4 & Hlb4 & Hch4 & Hlive4).
  rewrite Hrem in Hrun. injection Hrun as <- <- _.
  set (start := dom (Board.live_players board) : gset ColorString) in *.
  set (stop := dom (Board.live_players board1) : gset ColorString) in *.
  set (cheaters := Referee._cheaters r1) in *.
  clearbody start stop cheaters.
  assert (forall c, c ∈ colors (Referee._players r3)
                    <-> c ∈ start /\ c ∉ start ∖ stop ∖ cheaters) as Hkeys3.
  { intros c. rewrite Hpl3, Hpl1. unfold colors at 1. rewrite elem_of_list_to_set.
    pose proof (elem_of_filter_keys
                  (fun c => c ∉ elements (start ∖ stop ∖ cheaters))
                  (Referee._players r) c) as Hf.
    cbn beta in Hf. rewrite Hf, elem_of_elements, <- Hkeys.
    unfold colors. by rewrite elem_of_list_to_set. }
  split; [apply Hnd4; rewrite Hpl3; apply NoDup_filter_keys; by rewrite Hpl1|].
  split.
  { apply set_eq. intros c. rewrite Hkeys4, Hlive4, Hkeys3, Hch3.
    rewrite !elem_of_difference.
    pose proof (proj1 (elem_of_subseteq _ _) Hsub c).
    destruct (decide (c ∈ stop)); tauto. }
  intros c. rewrite Hlb4, Hlb3, Hlb1, Hch4, Hch3, occurrences_app, occurrences_singleton.
  specialize (Hcount c).
  pose proof (Hlive4 c) as Hl4. rewrite Hch3 in Hl4.
  assert (c ∈ (∅ ∪ list_to_set (elements (start ∖ stop ∖ cheaters))
               : gset ColorString)
          <-> c ∈ start /\ (c ∉ stop) /\ (c ∉ cheaters)) as HK
    by (rewrite elem_of_union, elem_of_list_to_set, elem_of_elements,
          !elem_of_difference, elem_of_empty; tauto).
  pose proof (proj1 (elem_of_subseteq _ _) Hsub c) as Hs.
  pose proof (proj1 (elem_of_subseteq _ _) Hch1 c) as Hc1.
  pose proof (proj1 (elem_of_subseteq _ _) Hch1' c) as Hc2.
  rewrite elem_of_union in Hc2.
  unfold indicator in *.
  clear -Hcount Hl4 HK Hs Hc1 Hc2.
  repeat case_decide; first [lia | exfalso; tauto].
Qed.

Lemma rounds_loop_spec roster budget : forall r board w r' board' w',
  Referee.rounds_loop player_generate_move budget r board w
  = (Ok tt, r', board', w') ->
  match_invariant roster r board -> match_invariant roster r' board'.
Proof.
  induction budget as [|budget IH]; intros r board w r' board' w' Hrun Hinv; [done|].
  cbn [Referee.rounds_loop] in Hrun. case_decide.
  { by injection Hrun as <- <- _. }
  destruct (Referee._run_game_single_round _ r board w)
    as [[[res r1] board1] w1] eqn:Hround.
  destruct res as [[]|msg|e]; [|done..].
  eapply IH; [exact Hrun|]. by eapply run_game_single_round_spec.
Qed.

Lemma all_rest_new : all_rest (Board._board_state (Board.new None)).
Proof.
  intros p pos port Hp. cbn in Hp. by rewrite lookup_empty in Hp.
Qed.

(** the first phase establishes the invariant *)
Lemma run_game_initial_turns_spec (r : referee) w r' board' w' :
  Referee._run_game_initial_turns player_generate_first_move r (Board.new None) w
  = (Ok tt, r', board', w') ->
  NoDup (Referee._players r).*1 ->
  Referee._leaderboard r = [] ->
  Referee._cheaters r ⊆ colors (Referee._players r) ->
  match_invariant (colors (Referee._players r)) r' board'.
Proof.
  unfold Referee._run_game_initial_turns. intros Hrun Hnd Hlb Hch.
  destruct (Referee._confirm_all_components r); [|done..].
  destruct (Referee.initial_turns_loop _ (Referee._players r) r (Board.new None) w)
    as [[[res r1] board1] w1] eqn:Hloop.
  destruct res as [[]|msg|e]; [|done..].
  apply initial_turns_loop_spec in Hloop
    as ((Hpl1 & Hlb1 & Hch1 & Hch1') & _ & _ & Hsub & Hall); [|apply all_rest_new].
  destruct (remove_cheaters_spec r1 board1)
    as (r2 & board2 & Hrem & Hnd2 & Hkeys2 & Hlb2 & Hch2 & Hlive2).
  rewrite Hrem in Hrun. injection Hrun as <- <- _.
  set (roster := colors (Referee._players r)) in *.
  set (live := dom (Board.live_players board1) : gset ColorString) in *.
  set (cheaters := Referee._cheaters r1) in *.
  assert (dom (Board.live_players (Board.new None)) = (∅ : gset ColorString)) as Hnew
    by apply dom_empty_L.
  rewrite Hnew in Hsub. rewrite Hpl1 in Hkeys2. fold roster in Hkeys2.
  clearbody roster live cheaters.
  assert (forall c, c ∈ roster -> c ∈ cheaters \/ c ∈ live) as Hall' by done.
  assert (forall c, c ∈ live -> c ∈ roster) as Hsub'.
  { intros c Hc. apply (proj1 (elem_of_subseteq _ _) Hsub) in Hc.
    rewrite elem_of_union, elem_of_empty in Hc. tauto. }
  assert (forall c, c ∈ cheaters -> c ∈ roster) as Hch'.
  { intros c Hc. apply (proj1 (elem_of_subseteq _ _) Hch1') in Hc.
    rewrite elem_of_union in Hc. destruct Hc as [Hc|Hc]; [|done].
    by apply (proj1 (elem_of_subseteq _ _) Hch). }
  split; [apply Hnd2; by rewrite Hpl1|]. split.
  { apply set_eq. intros c. rewrite Hkeys2, Hlive2.
    specialize (Hall' c). specialize (Hsub' c). tauto. }
  intros c. rewrite Hlb2, Hlb1, Hlb, Hch2.
  pose proof (Hlive2 c) as Hl. specialize (Hall' c). specialize (Hsub' c).
  specialize (Hch' c).
  unfold occurrences, indicator. rewrite filter_nil. simpl.
  clear -Hl Hall' Hsub' Hch'.
  repeat case_decide; first [lia | exfalso; tauto].
Qed.

(** a referee as the setters leave it before a match *)
Inductive set_up : referee -> Prop :=
| set_up_new : set_up Referee.new
| set_up_players r players res r' :
    set_up r -> Referee.set_players r players = (res, r') -> set_up r'
| set_up_rule_checker r rule_checker :
    set_up r -> set_up (Referee.set_rule_checker r rule_checker)
| set_up_tile_iterator r tile_iterator :
    set_up r -> set_up (Referee.set_tile_iterator r tile_iterator).

Lemma set_up_fresh r :
  set_up r ->
  NoDup (Referee._players r).*1 /\
  Referee._leaderboard r = [] /\
  Referee._cheaters r = ∅.
Proof.
  induction 1 as [|r players res r' _ IH Hset|r rule_checker _ IH|r tile_iterator _ IH];
    [split; [apply NoDup_nil_2|done]| |done..].
  unfold Referee.set_players in Hset.
  repeat case_decide; injection Hset as _ <-; try done.
  destruct IH as (_ & Hlb & Hch). split; [|done].
  cbn [Referee._players Referee.set_players_field].
  rewrite fst_zip by (rewrite length_take; lia).
  refine (sublist_NoDup _ _ _ (sublist_take _ _)).
  apply (bool_decide_unpack _). by vm_compute.
Qed.

(** the tiers and the cheaters count every agent of the roster once and
    nobody else: they are a partition of the roster *)
Lemma partition_of_count (roster cheaters : gset ColorString) tiers :
  (forall c, (occurrences c tiers + indicator (c ∈ cheaters)
              = indicator (c ∈ roster))%nat) ->
  (forall c, c ∈ roster <-> c ∈ cheaters \/ exists tier, tier ∈ tiers /\ c ∈ tier) /\
  (forall tier, tier ∈ tiers -> tier ## cheaters) /\
  (forall i j X Y, tiers !! i = Some X -> tiers !! j = Some Y -> i <> j -> X ## Y) /\
  (forall c, c ∈ roster ->
             (occurrences c tiers + indicator (c ∈ cheaters) = 1)%nat).
Proof.
  intros Hcount. repeat split.
  - intros Hc. specialize (Hcount c). unfold indicator in Hcount.
    rewrite (decide_True (P := c ∈ roster)) in Hcount by done.
    destruct (decide (c ∈ cheaters)); [by left|right].
    apply occurrences_pos. lia.
  - intros Hc. specialize (Hcount c). unfold indicator in Hcount.
    destruct (decide (c ∈ roster)); [done|]. exfalso.
    destruct Hc as [Hc|Hc%occurrences_pos].
    + rewrite decide_True in Hcount by done. lia.
    + lia.
  - intros tier Hin. apply elem_of_disjoint. intros c Hc Hch.
    specialize (Hcount c). unfold indicator in Hcount.
    rewrite (decide_True (P := c ∈ cheaters)) in Hcount by done.
    assert (0 < occurrences c tiers)%nat by (apply occurrences_pos; eauto).
    destruct (decide (c ∈ roster)); lia.
  - intros i j X Y Hi Hj Hij. apply elem_of_disjoint. intros c HX HY.
    apply Hij. apply (occurrences_once c tiers i j X Y); try done.
    specialize (Hcount c). unfold indicator in Hcount.
    destruct (decide (c ∈ roster)); lia.
  - intros c Hc. rewrite Hcount. unfold indicator. by rewrite decide_True.
Qed.

(** C8: every completed match, i.e. every run of [run_game] from a referee
    as the setters leave it that returns ok, returns tiers and a cheater
    set that partition the starting roster: an agent is in the roster if
    and only if it is a cheater or in a tier, no tier meets the cheater
    set, no two tiers meet, and each agent of the roster is counted once
    by the tiers and the cheater set together. *)
Theorem C8_match_result_partition budget (r : referee) w tiers cheaters r' w' :
  set_up r ->
  Referee.run_game player_set_color player_set_players
    player_generate_first_move player_generate_move budget r w
  = (Ok (tiers, cheaters), r', w') ->
  let roster := colors (Referee._players r) in
  (forall c, c ∈ roster <-> c ∈ cheaters \/ exists tier, tier ∈ tiers /\ c ∈ tier) /\
  (forall tier, tier ∈ tiers -> tier ## cheaters) /\
  (forall i j X Y, tiers !! i = Some X -> tiers !! j = Some Y -> i <> j -> X ## Y) /\
  (forall c, c ∈ roster ->
             (occurrences c tiers + indicator (c ∈ cheaters) = 1)%nat).
Proof.
  intros Hset Hrun roster. apply partition_of_count.
  destruct (set_up_fresh _ Hset) as (Hnd & Hlb & Hch).
  unfold Referee.run_game in Hrun. repeat case_decide; try done.
  destruct (Referee._initialize_players _ _ r w) as [r0 w0] eqn:Hinit.
  unfold Referee._initialize_players in Hinit.
  apply initialize_players_loop_spec in Hinit as (Hpl0 & Hlb0 & Hch0 & Hch0').
  destruct (Referee._run_game_initial_turns _ r0 (Board.new None) w0)
    as [[[res r1] board1] w1] eqn:Hfirst.
  destruct res as [[]|msg|e]; [|done..].
  apply run_game_initial_turns_spec in Hfirst.
  2: by rewrite Hpl0.
  2: by rewrite Hlb0.
  2: { rewrite Hpl0. rewrite Hch in Hch0'. clear -Hch0'. set_solver. }
  rewrite Hpl0 in Hfirst. fold roster in Hfirst.
  destruct (Referee.rounds_loop _ budget r1 board1 w1)
    as [[[res r2] board2] w2] eqn:Hrounds.
  destruct res as [[]|msg|e]; [|done..].
  apply (rounds_loop_spec roster) in Hrounds as (_ & _ & Hcount); [|done].
  unfold Referee._generate_game_result in Hrun.
  cbn [Referee._leaderboard Referee._cheaters Referee.set_leaderboard] in Hrun.
  injection Hrun as <- <- _ _.
  intros c. rewrite occurrences_nonempty, occurrences_reverse, occurrences_app,
    occurrences_singleton, <- (Hcount c). lia.
Qed.
End RefereeMatch.

(** ** A sample match

    Three agents, told from each other by a number.  The world records the
    color that each agent was given.  An agent opens with the first move
    that the rule checker accepts among the cells of the top row; agents 0
    and 1 then play the first legal rotation of a tile of their hand, and
    agent 2 reports an error when asked for an intermediate move. *)

Definition sample_tiles : list Tile.t := [side_tile; crooked_tile; bend_tile].

Definition sample_source (n : nat) : option Tile.t :=
  sample_tiles !! (n mod 3)%nat.

Definition SampleWorld : Type := gmap nat ColorString.

Definition sample_set_color (player : nat) (color : ColorString)
    (w : SampleWorld) : Reply unit * SampleWorld :=
  (Answer tt, <[player := color]> w).

Definition sample_set_players (player : nat) (others : list ColorString)
    (w : SampleWorld) : Reply unit * SampleWorld :=
  (Answer tt, w).

Definition sample_cells : list (Z * Z) := [(0, 0); (2, 0); (4, 0); (6, 0); (8, 0)].

Definition first_move_of (color : ColorString) (tiles : list Tile.t)
    (st : BoardState.t) : option (BoardPosition.t * Tile.t * PortID) :=
  head (omap (fun '(xy, port) =>
                match tiles !! 2%nat with
                | Some tile =>
                    let pos := BoardPosition.mk xy.1 xy.2 in
                    match RuleChecker.validate_initial_move st tiles
                            (InitialMove.mk pos tile port color) with
                    | Ok _ => Some (pos, tile, port)
                    | _ => None
                    end
                | None => None
                end)
             (xy ← sample_cells; port ← Port.all; [(xy, port)])).

Definition sample_generate_first_move (player : nat) (tiles : list Tile.t)
    (st : BoardState.t) (w : SampleWorld)
  : Reply (BoardPosition.t * Tile.t * PortID) * SampleWorld :=
  match w !! player with
  | None => (Failure "no color", w)
  | Some color =>
      match first_move_of color tiles st with
      | Some m => (Answer m, w)
      | None => (Failure "no move", w)
      end
  end.

Definition rotations_or_nil (tile : Tile.t) : list Tile.t :=
  match Tile.all_rotations tile with
  | Ok l => l
  | _ => []
  end.

Definition sample_generate_move (player : nat) (tiles : list Tile.t)
    (st : BoardState.t) (w : SampleWorld) : Reply Tile.t * SampleWorld :=
  match w !! player with
  | None => (Failure "no color", w)
  | Some color =>
      if decide (player = 2%nat) then (Failure "pass", w)
      else
        match head (filter (fun tile =>
                              RuleChecker.validate_move st tiles
                                (IntermediateMove.mk tile color) = Ok tt)
                           (tiles ≫= rotations_or_nil)) with
        | Some tile => (Answer tile, w)
        | None => (Failure "no move", w)
        end
  end.

Definition sample_referee : @Referee.t nat :=
  Referee.set_tile_iterator
    (Referee.set_rule_checker
       (Referee.set_players Referee.new [0; 1; 2]%nat).2 (RuleCheckerAt 0))
    (TileIterator.mk sample_source 0).

Definition sample_run : Res GameResult * @Referee.t nat * SampleWorld :=
  Referee.run_game sample_set_color sample_set_players
    sample_generate_first_move sample_generate_move 50 sample_referee ∅.

(** the referee of the sample match comes from [Referee.new] by the
    three setters *)
Lemma set_up_sample_referee : set_up sample_referee.
Proof.
  apply set_up_tile_iterator, set_up_rule_checker.
  eapply set_up_players; [apply set_up_new|]. apply surjective_pairing.
Qed.

(** the sample match ends after 111 tiles were drawn: black wins, white
    comes second and red, who reported an error, is the cheater *)
Lemma sample_run_result :
  sample_run
  = (Ok ([{[black]}; {[white]}], {[red]}), sample_run.1.2, sample_run.2).
Proof. vm_compute. reflexivity. Qed.

(** C8 at the sample match: the tiers [black], [white] and the cheater set
    [red] partition the roster of white, black and red *)
Lemma C8_match_result_partition_witness :
  let tiers : list (gset ColorString) := [{[black]}; {[white]}] in
  let cheaters : gset ColorString := {[red]} in
  let roster : gset ColorString := {[white; black; red]} in
  set_up sample_referee /\
  sample_run = (Ok (tiers, cheaters), sample_run.1.2, sample_run.2) /\
  (forall c, c ∈ roster <-> c ∈ cheaters \/ exists tier, tier ∈ tiers /\ c ∈ tier) /\
  (forall tier, tier ∈ tiers -> tier ## cheaters) /\
  (forall i j X Y, tiers !! i = Some X -> tiers !! j = Some Y -> i <> j -> X ## Y) /\
  (forall c, c ∈ roster ->
             (occurrences c tiers + indicator (c ∈ cheaters) = 1)%nat).
Proof.
  intros tiers cheaters roster.
  split; [exact set_up_sample_referee|].
  split; [exact sample_run_result|].
  exact (C8_match_result_partition sample_set_color sample_set_players
           sample_generate_first_move sample_generate_move
           50 sample_referee ∅ tiers cheaters sample_run.1.2 sample_run.2
           set_up_sample_referee sample_run_result).
Defined.

(** C9 at a new referee: a roster in which agent 0 occurs twice is
    refused, and so is a match without roster, rule checker and tiles *)
Lemma C9_setup_contract_witness :
  (exists msg,
     Referee.set_players (@Referee.new nat) [0; 0; 1]%nat = (Error msg, Referee.new)) /\
  (exists msg,
     Referee.run_game sample_set_color sample_set_players
       sample_generate_first_move sample_generate_move 50 (@Referee.new nat) ∅
     = (Error msg, Referee.new, ∅)).
Proof.
  destruct (C9_setup_contract sample_set_color sample_set_players
              sample_generate_first_move sample_generate_move
              Referee.new [0; 0; 1]%nat (RuleCheckerAt 0)
              (TileIterator.mk sample_source 0) 50%nat ∅)
    as (Hrefused & _ & _ & _ & Hmissing).
  split.
  - apply Hrefused. right. right. right.
    apply (bool_decide_unpack _). vm_compute. reflexivity.
  - apply Hmissing. left. reflexivity.
Defined.

(** * Further properties

    Properties of the code around the rule checker, the board and the
    referee. *)

(** ** Ports and tiles *)

(** X1: [Port.get_adjoining_port] pairs the eight ports up: the port that
    faces a port is another port, and the port that faces it is the first
    one again; for anything that is not one of the eight ports it raises
    ValueError. *)
Theorem get_adjoining_port_involution (port : PortID) :
  (port ∈ Port.all ->
   exists facing,
     Port.get_adjoining_port port = Ok facing /\ facing ∈ Port.all /\
     facing <> port /\ Port.get_adjoining_port facing = Ok port) /\
  (port ∉ Port.all -> Port.get_adjoining_port port = Raise ValueError).
Proof.
  unfold Port.all, Port.get_adjoining_port, Port.TopLeft, Port.TopRight,
    Port.RightTop, Port.RightBottom, Port.BottomRight, Port.BottomLeft,
    Port.LeftBottom, Port.LeftTop.
  split.
  - rewrite !elem_of_cons, elem_of_nil.
    intros [->|[->|[->|[->|[->|[->|[->|[->|[]]]]]]]]]; eexists;
      (split; [reflexivity|]); (split; [|split; [|reflexivity]]);
      rewrite ?elem_of_cons; (tauto || lia || done).
  - intros Hout. repeat case_decide; try done; subst;
      exfalso; apply Hout; rewrite !elem_of_cons; tauto.
Qed.

Lemma get_adjoining_port_involution_witness :
  exists facing,
    Port.get_adjoining_port 2 = Ok facing /\ facing ∈ Port.all /\
    facing <> 2 /\ Port.get_adjoining_port facing = Ok 2.
Proof.
  apply (proj1 (get_adjoining_port_involution 2)).
  unfold Port.all. rewrite !elem_of_cons. right. right. left. reflexivity.
Defined.

(** a port that is on no edge is connected to nothing *)
Lemma get_port_connected_to_outside es port :
  port ∉ flatten es -> Tile.get_port_connected_to_loop es port = Raise ValueError.
Proof.
  induction es as [|[a b] es IH]; [done|].
  change (flatten ((a, b) :: es)) with (a :: b :: flatten es).
  rewrite !not_elem_of_cons. intros (Ha & Hb & Hrest). simpl.
  rewrite decide_False by done. rewrite decide_False by done. by apply IH.
Qed.

Definition connected_lawsb (t : Tile.t) : bool :=
  forallb (fun p =>
             match Tile.get_port_connected_to t p with
             | Ok q =>
                 bool_decide (q ∈ port_range) && bool_decide (q <> p)
                 && bool_decide (Tile.get_port_connected_to t q = Ok p)
             | _ => false
             end) port_range.

Lemma connected_laws t : Tile.valid t -> connected_lawsb t = true.
Proof. apply tile_forall. vm_compute. reflexivity. Qed.

(** X2: on a tile that the constructor built, [get_port_connected_to]
    pairs the eight ports up: a port is connected to another port, which
    is connected back to it; for anything that is not one of the eight
    ports it raises ValueError. *)
Theorem get_port_connected_to_involution (t : Tile.t) (port : PortID) :
  Tile.valid t ->
  (port ∈ Port.all ->
   exists other,
     Tile.get_port_connected_to t port = Ok other /\ other ∈ Port.all /\
     other <> port /\ Tile.get_port_connected_to t other = Ok port) /\
  (port ∉ Port.all -> Tile.get_port_connected_to t port = Raise ValueError).
Proof.
  intros Hv. split.
  - intros Hport. pose proof (connected_laws t Hv) as Hlaws.
    unfold connected_lawsb in Hlaws. rewrite forallb_forall in Hlaws.
    specialize (Hlaws port). rewrite <- list_elem_of_In in Hlaws.
    specialize (Hlaws Hport).
    destruct (Tile.get_port_connected_to t port) as [q| |]; [|done..].
    apply andb_true_iff in Hlaws as [Hlaws H3].
    apply andb_true_iff in Hlaws as [H1 H2].
    apply bool_decide_eq_true in H1, H2, H3. by exists q.
  - intros Hout. apply get_port_connected_to_outside.
    destruct (valid_flatten t Hv) as (_ & Hin & _).
    rewrite Forall_forall in Hin. intros Hport. apply Hout. by apply Hin.
Qed.

Lemma get_port_connected_to_involution_witness :
  exists other,
    Tile.get_port_connected_to crooked_tile 3 = Ok other /\ other ∈ Port.all /\
    other <> 3 /\ Tile.get_port_connected_to crooked_tile other = Ok 3.
Proof.
  apply (proj1 (get_port_connected_to_involution crooked_tile 3
                  ltac:(vm_compute; reflexivity))).
  unfold Port.all. rewrite !elem_of_cons. do 3 right. left. reflexivity.
Defined.

(** what the constructor does to a list of four edges over the eight
    ports, as one decidable property of the flattened list *)
Definition constructor_lawsb (f : list Z) : bool :=
  bool_decide (sorted Z.leb f = port_range)
  && match Tile.new (unflatten f) with
     | Ok t =>
         validb t
         && forallb (fun e : Z * Z => e.1 <? e.2) (Tile.edges t)
         && bool_decide (StronglySorted Z.lt (Tile.edges t).*1)
         && forallb (fun e : Z * Z =>
                       bool_decide (Tile.get_port_connected_to t e.1 = Ok e.2))
                    (unflatten f)
     | _ => false
     end.

Lemma constructor_laws es :
  length es = 4%nat -> flatten es ≡ₚ Port.all -> constructor_lawsb (flatten es) = true.
Proof.
  intros Hlen Hperm.
  assert (all_port_lists 8 [] constructor_lawsb = true) as Hall
    by (vm_compute; reflexivity).
  apply (all_port_lists_sound 8 [] _ Hall (flatten es)).
  - rewrite Hperm. reflexivity.
  - apply Forall_forall. intros v Hv. by rewrite Hperm in Hv.
  - simpl. rewrite Hperm. apply (bool_decide_unpack _). by vm_compute.
Qed.

Lemma length_flatten es : length (flatten es) = (2 * length es)%nat.
Proof.
  induction es as [|[a b] es IH]; [done|].
  change (flatten ((a, b) :: es)) with (a :: b :: flatten es). simpl. lia.
Qed.

(** X3: [Tile(edges)] succeeds exactly when the ports of the edges are the
    eight ports, each once (so there are four edges); otherwise the
    assertions fail.  The tile it builds is in normal form (building it
    again from its own edges gives the same tile), every edge has its
    smaller port first, the edges are ordered by their smaller port, and
    the tile connects what the given edges connect. *)
Theorem tile_constructor (es : list (PortID * PortID)) :
  (flatten es ≡ₚ Port.all ->
   exists t,
     Tile.new es = Ok t /\ Tile.valid t /\
     Forall (fun e : PortID * PortID => e.1 < e.2) (Tile.edges t) /\
     StronglySorted Z.lt (Tile.edges t).*1 /\
     forall port1 port2, (port1, port2) ∈ es ->
       Tile.get_port_connected_to t port1 = Ok port2) /\
  (~ flatten es ≡ₚ Port.all -> Tile.new es = Raise AssertionError).
Proof.
  split.
  - intros Hperm.
    assert (length es = 4%nat) as Hlen.
    { pose proof (Permutation_length Hperm) as Hl. rewrite length_flatten in Hl.
      change (length Port.all) with 8%nat in Hl. unfold PortID in *. lia. }
    pose proof (constructor_laws es Hlen Hperm) as Hlaws.
    unfold constructor_lawsb in Hlaws. rewrite unflatten_flatten in Hlaws.
    apply andb_true_iff in Hlaws as [_ Hlaws].
    destruct (Tile.new es) as [t| |]; [|done..].
    apply andb_true_iff in Hlaws as [Hlaws H4].
    apply andb_true_iff in Hlaws as [Hlaws H3].
    apply andb_true_iff in Hlaws as [H1 H2].
    exists t. split; [done|]. split; [by apply validb_valid|]. split.
    { apply Forall_forall. intros e He. rewrite forallb_forall in H2.
      apply Z.ltb_lt, H2. by apply list_elem_of_In. }
    split; [by apply bool_decide_eq_true in H3|].
    intros port1 port2 Hin. rewrite forallb_forall in H4.
    specialize (H4 (port1, port2)). rewrite <- list_elem_of_In in H4.
    apply bool_decide_eq_true in H4; done.
  - intros Hno. unfold Tile.new.
    destruct (decide (length es = 4%nat)); [|done].
    destruct (decide (sorted Z.leb (flatten es) = [0; 1; 2; 3; 4; 5; 6; 7]))
      as [Hs|]; [|done].
    exfalso. apply Hno. rewrite <- (sorted_Permutation Z.leb (flatten es)), Hs.
    reflexivity.
Qed.

Lemma tile_constructor_witness :
  exists t,
    Tile.new [(7, 0); (2, 1); (5, 3); (6, 4)] = Ok t /\ Tile.valid t /\
    Forall (fun e : PortID * PortID => e.1 < e.2) (Tile.edges t) /\
    StronglySorted Z.lt (Tile.edges t).*1 /\
    forall port1 port2, (port1, port2) ∈ [(7, 0); (2, 1); (5, 3); (6, 4)] ->
      Tile.get_port_connected_to t port1 = Ok port2.
Proof.
  apply (proj1 (tile_constructor [(7, 0); (2, 1); (5, 3); (6, 4)])).
  apply (bool_decide_unpack _). vm_compute. reflexivity.
Defined.

(** the key and the rotations of a valid tile *)
Lemma valid_rotations t :
  Tile.valid t ->
  exists t1 t2 t3,
    Tile.rotate t = Ok t1 /\ Tile.rotate t1 = Ok t2 /\ Tile.rotate t2 = Ok t3 /\
    Tile.rotate t3 = Ok t /\
    Tile.all_rotations t = Ok [t; t1; t2; t3] /\
    Tile.to_key t
    = Ok (sorted edges_leb [Tile.edges t; Tile.edges t1; Tile.edges t2; Tile.edges t3]) /\
    Tile.eq t t1 = Ok true /\ Tile.eq t t2 = Ok true /\ Tile.eq t t3 = Ok true.
Proof.
  intros Hv. pose proof (tile_laws t Hv) as H.
  unfold tile_lawsb, rotations_of in H.
  destruct (Tile.rotate t) as [t1| |] eqn:H1; [|done..].
  destruct (Tile.rotate t1) as [t2| |] eqn:H2; [|done..].
  destruct (Tile.rotate t2) as [t3| |] eqn:H3; [|done..].
  destruct (Tile.rotate t3) as [t4| |] eqn:H4; [|done..].
  repeat (apply andb_true_iff in H as [H ?]).
  repeat match goal with
         | Hb : bool_decide _ = true |- _ => apply bool_decide_eq_true in Hb
         end.
  subst t4. exists t1, t2, t3. repeat (split; [done|]).
  split.
  { unfold Tile.all_rotations. cbn [Tile.all_rotations_loop].
    rewrite H1. cbn [mbind Res_bind]. rewrite H2. cbn [mbind Res_bind].
    rewrite H3. cbn [mbind Res_bind]. rewrite H4. done. }
  split; [|done].
  unfold Tile.to_key. cbn [Tile.to_key_loop].
  rewrite H1. cbn [mbind Res_bind]. rewrite H2. cbn [mbind Res_bind].
  rewrite H3. done.
Qed.

Lemma tile_eq_key t1 t2 k1 k2 :
  Tile.to_key t1 = Ok k1 -> Tile.to_key t2 = Ok k2 ->
  Tile.eq t1 t2 = Ok (bool_decide (k1 = k2)).
Proof. unfold Tile.eq. by intros -> ->. Qed.

Lemma tile_edges_inj (t1 t2 : Tile.t) : Tile.edges t1 = Tile.edges t2 -> t1 = t2.
Proof. destruct t1, t2. simpl. by intros ->. Qed.

(** two valid tiles are equal, for [Tile.__eq__], exactly when one is a
    rotation of the other *)
Lemma tile_eq_rotations t1 t2 rotations :
  Tile.valid t1 -> Tile.valid t2 ->
  Tile.all_rotations t2 = Ok rotations ->
  Tile.eq t1 t2 = Ok (bool_decide (t1 ∈ rotations)).
Proof.
  intros Hv1 Hv2 Hrot.
  destruct (valid_rotations t1 Hv1)
    as (a1 & a2 & a3 & _ & _ & _ & _ & _ & Hk1 & _).
  destruct (valid_rotations t2 Hv2)
    as (b1 & b2 & b3 & _ & _ & _ & _ & Hall & Hk2 & He1 & He2 & He3).
  rewrite Hall in Hrot. injection Hrot as <-.
  rewrite (tile_eq_key _ _ _ _ Hk1 Hk2). f_equal. apply bool_decide_ext.
  split.
  - intros Hkey.
    assert (Tile.edges t1
            ∈ sorted edges_leb
                [Tile.edges t2; Tile.edges b1; Tile.edges b2; Tile.edges b3]) as Hin.
    { rewrite <- Hkey. rewrite sorted_Permutation. left. }
    rewrite sorted_Permutation in Hin.
    rewrite !elem_of_cons, elem_of_nil in Hin. rewrite !elem_of_cons.
    destruct Hin as [H|[H|[H|[H|[]]]]]; apply tile_edges_inj in H; tauto.
  - rewrite !elem_of_cons, elem_of_nil.
    assert (forall b, Tile.eq t2 b = Ok true -> Tile.to_key b = Tile.to_key t2) as Hsame.
    { intros b. unfold Tile.eq. rewrite Hk2. cbn [mbind Res_bind].
      destruct (Tile.to_key b) as [kb| |]; [|done..]. cbn [mbind Res_bind].
      intros Hb. f_equal. symmetry.
      apply (bool_decide_eq_true_1 _). congruence. }
    intros [->|[->|[->|[->|[]]]]].
    + congruence.
    + rewrite (Hsame _ He1) in Hk1. congruence.
    + rewrite (Hsame _ He2) in Hk1. congruence.
    + rewrite (Hsame _ He3) in Hk1. congruence.
Qed.

Lemma tile_eq_sym t1 t2 :
  Tile.valid t1 -> Tile.valid t2 -> Tile.eq t2 t1 = Tile.eq t1 t2.
Proof.
  intros Hv1 Hv2.
  destruct (valid_rotations t2 Hv2) as (b1 & b2 & b3 & _ & _ & _ & _ & _ & Hk2 & _).
  destruct (valid_rotations t1 Hv1) as (a1 & a2 & a3 & _ & _ & _ & _ & _ & Hk1 & _).
  rewrite (tile_eq_key _ _ _ _ Hk1 Hk2), (tile_eq_key _ _ _ _ Hk2 Hk1).
  f_equal. apply bool_decide_ext. split; by intros ->.
Qed.

(** X4: for tiles that the constructor built, [Tile.__eq__] never fails,
    is symmetric, and holds exactly when the first tile is one of the four
    rotations of the second. *)
Theorem tile_equality_is_rotation (t1 t2 : Tile.t) :
  Tile.valid t1 -> Tile.valid t2 ->
  exists rotations,
    Tile.all_rotations t2 = Ok rotations /\
    length rotations = 4%nat /\
    Tile.eq t1 t2 = Ok (bool_decide (t1 ∈ rotations)) /\
    Tile.eq t2 t1 = Tile.eq t1 t2.
Proof.
  intros Hv1 Hv2.
  destruct (valid_rotations t2 Hv2) as (b1 & b2 & b3 & _ & _ & _ & _ & Hall & _).
  eexists. split; [exact Hall|]. split; [done|].
  split; [by apply tile_eq_rotations|by apply tile_eq_sym].
Qed.

Lemma tile_equality_is_rotation_witness :
  exists rotations,
    Tile.all_rotations crooked_tile = Ok rotations /\
    length rotations = 4%nat /\
    Tile.eq bend_tile crooked_tile = Ok (bool_decide (bend_tile ∈ rotations)) /\
    Tile.eq crooked_tile bend_tile = Tile.eq bend_tile crooked_tile.
Proof.
  apply (tile_equality_is_rotation bend_tile crooked_tile); vm_compute; reflexivity.
Defined.

(** in how many ways [n] ports are paired up *)
Fixpoint pairings (n : nat) : nat :=
  match n with
  | O => 1
  | S m =>
      match m with
      | O => 0
      | S n' => m * pairings n'
      end
  end%nat.

Lemma length_join_imap {A B} (c : nat) (l : list A) : forall (f : nat -> A -> list B),
  (forall idx x, l !! idx = Some x -> length (f idx x) = c) ->
  length (mjoin (imap f l)) = (length l * c)%nat.
Proof.
  induction l as [|x l IH]; intros f Hf; [done|].
  rewrite imap_cons.
  change (mjoin (f 0%nat x :: imap (f ∘ S) l))
    with (f 0%nat x ++ mjoin (imap (f ∘ S) l)).
  rewrite length_app.
  rewrite (Hf 0%nat x eq_refl). rewrite (IH (f ∘ S)).
  - simpl. lia.
  - intros idx y Hy. apply (Hf (S idx)). exact Hy.
Qed.

Lemma elem_of_join_imap {A B} (l : list A) (f : nat -> A -> list B) (y : B) :
  y ∈ mjoin (imap f l) <-> exists idx x, l !! idx = Some x /\ y ∈ f idx x.
Proof.
  rewrite list_elem_of_join. split.
  - intros (ys & Hy & Hys). apply elem_of_lookup_imap in Hys as (idx & x & -> & Hx).
    eauto.
  - intros (idx & x & Hx & Hy). exists (f idx x). split; [done|].
    apply elem_of_lookup_imap. eauto.
Qed.

Lemma length_without {A} (l : list A) idx x :
  l !! idx = Some x -> length (take idx l ++ drop (S idx) l) = (length l - 1)%nat.
Proof.
  intros Hx. pose proof (lookup_lt_Some _ _ _ Hx).
  rewrite length_app, length_take, length_drop. lia.
Qed.

Lemma generate_tsuro_edges_length fuel : forall remaining_ports,
  (length remaining_ports <= fuel)%nat ->
  length (generate_tsuro_edges_loop fuel remaining_ports)
  = pairings (length remaining_ports).
Proof.
  induction fuel as [|fuel IH]; intros [|s rest] Hfuel; try done.
  { simpl in Hfuel. lia. }
  cbn [generate_tsuro_edges_loop].
  rewrite (length_join_imap (pairings (length rest - 1))).
  - cbn [length pairings]. destruct rest as [|e rest]; [done|].
    cbn [length]. by replace (S (length rest) - 1)%nat with (length rest) by lia.
  - intros idx e He. rewrite length_fmap, IH.
    + by rewrite (length_without _ _ _ He).
    + rewrite (length_without _ _ _ He). simpl in Hfuel. lia.
Qed.

Lemma generate_tsuro_edges_flatten fuel : forall remaining_ports p,
  p ∈ generate_tsuro_edges_loop fuel remaining_ports ->
  flatten p ≡ₚ remaining_ports.
Proof.
  induction fuel as [|fuel IH]; intros [|s rest] p Hp.
  - apply list_elem_of_singleton in Hp as ->. done.
  - by apply elem_of_nil in Hp.
  - apply list_elem_of_singleton in Hp as ->. done.
  - cbn [generate_tsuro_edges_loop] in Hp.
    apply elem_of_join_imap in Hp as (idx & e & He & Hp).
    apply list_elem_of_fmap in Hp as (rp & -> & Hrp).
    apply IH in Hrp.
    change (flatten ((s, e) :: rp)) with (s :: e :: flatten rp).
    rewrite Hrp. constructor.
    rewrite <- (take_drop_middle rest idx e He) at 3.
    by rewrite Permutation_middle.
Qed.

(** X5: [_generate_tsuro_edges] yields as many lists of edges as there are
    ways to pair the given ports up: none for an odd number of ports, one
    for no port, and [(n - 1)] times the number for [n - 2] ports
    otherwise; the edges of every yielded list use each given port
    once. *)
Theorem generate_tsuro_edges_pairings (remaining_ports : list PortID) :
  length (_generate_tsuro_edges remaining_ports) = pairings (length remaining_ports) /\
  forall edges, edges ∈ _generate_tsuro_edges remaining_ports ->
    flatten edges ≡ₚ remaining_ports.
Proof.
  unfold _generate_tsuro_edges. split.
  - by apply generate_tsuro_edges_length.
  - apply generate_tsuro_edges_flatten.
Qed.

(** the members of the set of [make_tiles] *)
Definition make_tiles_members : list Tile.t :=
  Eval vm_compute in match make_tiles with Ok tiles => tiles | _ => [] end.

Lemma make_tiles_Ok : make_tiles = Ok make_tiles_members.
Proof. vm_compute. reflexivity. Qed.

Definition members_lawsb : bool :=
  bool_decide (length make_tiles_members = 35%nat)
  && forallb validb make_tiles_members
  && bool_decide (NoDup make_tiles_members)
  && forallb (fun u =>
                forallb (fun v =>
                           if bool_decide (Tile.eq u v = Ok true)
                           then bool_decide (u = v) else true)
                        make_tiles_members)
             make_tiles_members.

Definition has_member (t : Tile.t) : bool :=
  existsb (fun u => bool_decide (Tile.eq t u = Ok true)) make_tiles_members.

Lemma has_member_valid t : Tile.valid t -> has_member t = true.
Proof. apply tile_forall. vm_compute. reflexivity. Qed.

(** X6: [make_tiles] returns 35 tiles, whatever the order in which the set
    lists them: all of them valid, no two of them equal for
    [Tile.__eq__], and every valid tile equal to one of them. *)
Theorem make_tiles_thirty_five :
  exists members,
    make_tiles = Ok members /\
    forall tiles, tiles ≡ₚ members ->
      length tiles = 35%nat /\
      Forall Tile.valid tiles /\
      NoDup tiles /\
      (forall u v, u ∈ tiles -> v ∈ tiles -> Tile.eq u v = Ok true -> u = v) /\
      (forall t, Tile.valid t -> exists u, u ∈ tiles /\ Tile.eq t u = Ok true).
Proof.
  exists make_tiles_members. split; [exact make_tiles_Ok|].
  intros tiles Hperm.
  assert (members_lawsb = true) as Hlaws by (vm_compute; reflexivity).
  unfold members_lawsb in Hlaws.
  apply andb_true_iff in Hlaws as [Hlaws H4].
  apply andb_true_iff in Hlaws as [Hlaws H3].
  apply andb_true_iff in Hlaws as [H1 H2].
  apply bool_decide_eq_true in H1, H3.
  split; [by rewrite Hperm|]. split.
  { rewrite Hperm. apply Forall_forall. intros u Hu. apply validb_valid.
    rewrite forallb_forall in H2. apply H2. by apply list_elem_of_In. }
  split; [by rewrite Hperm|]. split.
  { intros u v Hu Hv Heq. rewrite Hperm in Hu, Hv.
    rewrite forallb_forall in H4. specialize (H4 u).
    rewrite <- list_elem_of_In in H4. specialize (H4 Hu).
    rewrite forallb_forall in H4. specialize (H4 v).
    rewrite <- list_elem_of_In in H4. specialize (H4 Hv).
    rewrite bool_decide_true in H4 by done. by apply bool_decide_eq_true in H4. }
  intros t Hv. pose proof (has_member_valid t Hv) as Hm.
  unfold has_member in Hm. apply existsb_exists in Hm as (u & Hu & Heq).
  exists u. split; [rewrite Hperm; by apply list_elem_of_In|].
  by apply bool_decide_eq_true in Heq.
Qed.

(** X7: the letters A to H and the eight ports translate into each other:
    [network_port_id_to_port_id] and [port_id_to_network_port_id] are
    inverse to each other, and each raises ValueError outside its
    domain. *)
Theorem network_port_round_trip :
  (forall port, port ∈ Port.all ->
     exists letter,
       port_id_to_network_port_id port = Ok letter /\
       network_port_id_to_port_id letter = Ok port) /\
  (forall letter port,
     network_port_id_to_port_id letter = Ok port ->
     port ∈ Port.all /\ port_id_to_network_port_id port = Ok letter) /\
  (forall port, port ∉ Port.all -> port_id_to_network_port_id port = Raise ValueError) /\
  (forall letter,
     letter ∉ (PORT_MAPPINGS.*1) -> network_port_id_to_port_id letter = Raise ValueError).
Proof.
  unfold port_id_to_network_port_id, network_port_id_to_port_id, PORT_MAPPINGS,
    Port.all, Port.TopLeft, Port.TopRight, Port.RightTop, Port.RightBottom,
    Port.BottomRight, Port.BottomLeft, Port.LeftBottom, Port.LeftTop.
  cbn [port_id_to_network_port_id_loop network_port_id_to_port_id_loop fmap list_fmap fst].
  split; [|split; [|split]].
  - intros port. rewrite !elem_of_cons, elem_of_nil.
    intros [->|[->|[->|[->|[->|[->|[->|[->|[]]]]]]]]]; eexists; split; reflexivity.
  - intros letter port.
    repeat (case_decide; [intros [= <-]; subst letter;
                          (split; [rewrite !elem_of_cons; tauto|reflexivity])|]).
    done.
  - intros port. rewrite !not_elem_of_cons.
    intros (? & ? & ? & ? & ? & ? & ? & ? & _).
    repeat (rewrite decide_False by done). done.
  - intros letter. rewrite !not_elem_of_cons.
    intros (? & ? & ? & ? & ? & ? & ? & ? & _).
    repeat (rewrite decide_False by done). done.
Qed.

Lemma network_port_round_trip_witness :
  (exists letter,
     port_id_to_network_port_id 6 = Ok letter /\
     network_port_id_to_port_id letter = Ok 6) /\
  (6 ∈ Port.all /\ port_id_to_network_port_id 6 = Ok "G"%string).
Proof.
  destruct network_port_round_trip as (H1 & H2 & _ & _). split.
  - apply H1. apply (bool_decide_unpack _). vm_compute. reflexivity.
  - apply (H2 "G"%string 6). vm_compute. reflexivity.
Defined.

Lemma tile_eq_total t1 t2 :
  Tile.valid t1 -> Tile.valid t2 -> exists b : bool, Tile.eq t1 t2 = Ok b.
Proof.
  intros Hv1 Hv2.
  destruct (valid_rotations t2 Hv2) as (b1 & b2 & b3 & _ & _ & _ & _ & Hall & _).
  rewrite (tile_eq_rotations _ _ _ Hv1 Hv2 Hall). by eexists.
Qed.










Definition turned_tile : Tile.t := Tile.mk [(0, 6); (1, 2); (3, 4); (5, 7)].


(** ** Boards *)

(** *** Settled boards *)

(** the agent stands on a tile of the grid *)
Definition stands (st : BoardState.t) (p : ColorString) : Prop :=
  exists pos port,
    BoardState.live_players st !! p = Some (pos, port) /\
    BoardPosition.valid pos /\ is_Some (BoardState.board st !! pos).

(** the agent stands on a tile and its port leads to an empty cell of the
    board *)
Definition rests (st : BoardState.t) (p : ColorString) : Prop :=
  stands st p /\
  exists next,
    BoardState.calculate_adjacent_position_of_player st p = Ok (Some next) /\
    BoardState.board st !! next = None.

Lemma all_rest_rests st :
  all_rest st <-> forall p, is_Some (BoardState.live_players st !! p) -> rests st p.
Proof.
  unfold all_rest, rests, stands. split.
  - intros Hall p [[pos port] Hp]. destruct (Hall p pos port Hp) as (Hv & Ht & Hn).
    split; [by exists pos, port|done].
  - intros Hall p pos port Hp.
    destruct (Hall p ltac:(eauto)) as [(pos' & port' & Hp' & Hv & Ht) Hn].
    rewrite Hp in Hp'. injection Hp' as <- <-. done.
Qed.

Lemma stands_ext st1 st2 p :
  BoardState.live_players st1 !! p = BoardState.live_players st2 !! p ->
  BoardState.board st1 ⊆ BoardState.board st2 ->
  stands st1 p -> stands st2 p.
Proof.
  intros Hl Hb (pos & port & Hp & Hv & [t Ht]). exists pos, port.
  split; [by rewrite <- Hl|]. split; [done|]. exists t.
  by eapply lookup_weaken.
Qed.

Lemma rests_ext st1 st2 p :
  BoardState.live_players st1 !! p = BoardState.live_players st2 !! p ->
  BoardState.board st1 = BoardState.board st2 ->
  rests st1 p -> rests st2 p.
Proof.
  intros Hl Hb [Hs (next & Hadj & Hfree)]. split.
  - eapply stands_ext; [done| |done]. by rewrite Hb.
  - exists next. split; [|by rewrite <- Hb].
    rewrite <- Hadj. symmetry. by apply calculate_adjacent_ext.
Qed.

(** the loop of [_move_player_along_path] leaves the agent on a tile; an
    agent that is not to be removed rests *)
Lemma move_player_loop_outcome budget : forall seen st obs p v b',
  stands st p ->
  Board.move_player_along_path_loop budget seen (Board.mk st obs) p = (Ok v, b') ->
  BoardState.board (Board._board_state b') = BoardState.board st /\
  (forall q, q <> p ->
     BoardState.live_players (Board._board_state b') !! q
     = BoardState.live_players st !! q) /\
  stands (Board._board_state b') p /\
  (v = false -> rests (Board._board_state b') p).
Proof.
  induction budget as [|budget IH]; intros seen st obs p v b' Hs Hrun; [done|].
  cbn [Board.move_player_along_path_loop Board._board_state Board._observers] in Hrun.
  unfold BoardState.get_position_of_player in Hrun.
  destruct Hs as (pos & port & Hp & Hv & Ht). rewrite Hp in Hrun.
  assert (stands st p) as Hs by (by exists pos, port).
  destruct (decide ((pos, port) ∈ seen)).
  { injection Hrun as <- <-. done. }
  destruct (BoardState.calculate_adjacent_position_of_player st p)
    as [[next_pos|]| |] eqn:Hadj; [| |done..].
  2: { injection Hrun as <- <-. done. }
  unfold BoardState.get_tile in Hrun.
  destruct (BoardState.board st !! next_pos) as [next_tile|] eqn:Htile.
  2: { injection Hrun as <- <-. repeat split; try done. by exists next_pos. }
  destruct (Port.get_adjoining_port port) as [next_port| |]; [|done..].
  destruct (Tile.get_port_connected_to next_tile next_port) as [nnp| |]; [|done..].
  destruct (calculate_adjacent_Some _ _ _ _ _ Hp Hadj) as (_ & Hnv & _).
  apply IH in Hrun as (Hboard & Hother & Hs' & Hrest).
  - split; [done|]. split; [|done].
    intros q Hq. rewrite Hother by done. simpl. by rewrite lookup_insert_ne.
  - exists next_pos, nnp. simpl. rewrite lookup_insert_eq. eauto.
Qed.

Lemma move_all_players_loop_outcome players : forall acc st obs rm b',
  NoDup players ->
  (forall p, p ∈ players -> stands st p) ->
  Board.move_all_players_loop players acc (Board.mk st obs) = (Ok rm, b') ->
  BoardState.board (Board._board_state b') = BoardState.board st /\
  (forall q, q ∉ players ->
     BoardState.live_players (Board._board_state b') !! q
     = BoardState.live_players st !! q) /\
  (forall p, p ∈ players -> p ∈ rm \/ rests (Board._board_state b') p) /\
  (forall p, p ∈ acc -> p ∈ rm).
Proof.
  induction players as [|p players IH]; intros acc st obs rm b' Hnd Hs Hrun.
  { injection Hrun as <- <-. repeat split; try done.
    intros p Hp. by apply elem_of_nil in Hp. }
  apply NoDup_cons in Hnd as [Hp Hnd].
  cbn [Board.move_all_players_loop] in Hrun. unfold Board._move_player_along_path in Hrun.
  destruct (Board.move_player_along_path_loop Board.PATH_BUDGET ∅ (Board.mk st obs) p)
    as [[v| |] [st1 obs1]] eqn:Hone; [|done..].
  apply move_player_loop_outcome in Hone as (Hboard1 & Hother1 & Hs1 & Hrest1);
    [|apply Hs; left].
  cbn [Board._board_state] in *.
  apply IH in Hrun as (Hboard & Hother & Hall & Hacc); [|done|].
  2: { intros q Hq. eapply stands_ext; [| |apply Hs; by right].
       - symmetry. apply Hother1. intros ->. done.
       - by rewrite Hboard1. }
  split; [congruence|]. split.
  { intros q Hq. apply not_elem_of_cons in Hq as [Hq1 Hq2].
    rewrite Hother by done. by apply Hother1. }
  split.
  { intros q [->|Hq]%elem_of_cons; [|by apply Hall].
    destruct v.
    - left. apply Hacc. apply elem_of_app. right. left.
    - right. eapply rests_ext; [| |by apply Hrest1].
      + symmetry. by apply Hother.
      + by rewrite Hboard. }
  intros q Hq. apply Hacc. destruct v; [|done]. apply elem_of_app. by left.
Qed.

(** a state is settled when every live agent rests and every tile on the
    board is a valid tile *)
Definition settled (st : BoardState.t) : Prop :=
  all_rest st /\
  forall pos t, BoardState.board st !! pos = Some t -> Tile.valid t.

Lemma settled_wf st : settled st -> wf_state st.
Proof.
  intros [Hrest Htiles]. split; [|done].
  intros p pos port Hp. destruct (Hrest p pos port Hp) as (Hv & _ & next & Hadj & _).
  split; [done|]. by destruct (calculate_adjacent_Some _ _ _ _ _ Hp Hadj).
Qed.

Lemma settled_new : settled BoardState.new.
Proof.
  split.
  - intros p pos port Hp. cbn in Hp. by rewrite lookup_empty in Hp.
  - intros pos t Ht. cbn in Ht. by rewrite lookup_empty in Ht.
Qed.

(** after [_move_all_players_along_paths] every agent left on the board
    rests *)
Lemma move_all_players_along_paths_rest st obs b' :
  (forall p, is_Some (BoardState.live_players st !! p) -> stands st p) ->
  Board._move_all_players_along_paths (Board.mk st obs) = (Ok tt, b') ->
  all_rest (Board._board_state b') /\
  BoardState.board (Board._board_state b') = BoardState.board st.
Proof.
  intros Hs. unfold Board._move_all_players_along_paths. cbn [Board._board_state].
  set (players := (map_to_list (BoardState.live_players st)).*1).
  destruct (Board.move_all_players_loop players [] (Board.mk st obs))
    as [[rm| |] [st1 obs1]] eqn:Hloop; [|done..].
  apply move_all_players_loop_outcome in Hloop as (Hboard1 & Hother1 & Hall1 & _).
  2: { apply NoDup_fst_map_to_list. }
  2: { intros p Hp. apply Hs. by apply live_players_keys. }
  cbn [Board._board_state] in *.
  destruct (remove_players_loop_spec rm st1)
    as (r2 & st2 & ex & Hrun2 & Hboard2 & Hsub2 & _ & Hfil2 & _).
  rewrite Hrun2. intros [= -> <-]. cbn [Board._board_state].
  specialize (Hfil2 eq_refl). split; [|congruence].
  apply all_rest_rests. intros p [pp Hp].
  rewrite Hfil2 in Hp. apply map_lookup_filter_Some in Hp as [Hp Hnrm].
  simpl in Hnrm.
  assert (p ∈ players) as Hin.
  { destruct (decide (p ∈ players)) as [|Hout]; [done|].
    apply live_players_keys. rewrite <- (Hother1 p Hout). eauto. }
  destruct (Hall1 p Hin) as [|Hrest]; [done|].
  eapply rests_ext; [| |exact Hrest]; [|done].
  rewrite Hfil2. symmetry. rewrite Hp. apply map_lookup_filter_Some. done.
Qed.

Lemma all_rest_subseteq st st' :
  BoardState.board st' = BoardState.board st ->
  BoardState.live_players st' ⊆ BoardState.live_players st ->
  all_rest st -> all_rest st'.
Proof.
  intros Hb Hl Hrest p pos port Hp.
  assert (BoardState.live_players st !! p = Some (pos, port)) as Hp'
    by (by eapply lookup_weaken).
  destruct (Hrest p pos port Hp') as (Hv & Ht & next & Hadj & Hfree).
  split; [done|]. split; [by rewrite Hb|]. exists next. split; [|by rewrite Hb].
  rewrite <- Hadj. apply calculate_adjacent_ext. by rewrite Hp, Hp'.
Qed.

(** an intermediate move keeps a settled state settled *)
Lemma intermediate_move_settled st obs m b' :
  settled st -> Tile.valid (IntermediateMove.tile m) ->
  Board.intermediate_move (Board.mk st obs) m = (Ok tt, b') ->
  settled (Board._board_state b').
Proof.
  intros [Hrest Htiles] Hvt Hmove.
  destruct (target_cell_of_ok _ _ _ _ Hmove eq_refl) as [pos Htc].
  cbn [Board._board_state] in Htc.
  pose proof (target_cell_Ok _ _ _ Htc) as (Hlive & Hadj & Hfree).
  revert Hmove.
  unfold Board.intermediate_move, Board.atomic, Board.validate_intermediate_move,
    Board.add_observer, Board.set_board_state, Board.remove_observer.
  cbn [Board._board_state Board._observers].
  rewrite decide_False by (by apply not_eq_None_Some).
  rewrite Hadj.
  destruct (decide (BoardState.get_tile st pos <> None)) as [Hn|_].
  { exfalso. apply Hn. exact Hfree. }
  set (st0 := BoardState.with_tile st (IntermediateMove.tile m) pos).
  destruct (Board._move_all_players_along_paths
              (Board.mk st0 (obs ++ [LoggingObserver.new])))
    as [[[]| |] [st1 obs1]] eqn:Hrun1.
  2: { cbn [is_error]. by intros [= _]. }
  2: { cbn [is_error]. by intros [= _]. }
  apply move_all_players_along_paths_rest in Hrun1 as [Hrest1 Hboard1].
  2: { intros p [[posp portp] Hp].
       destruct (Hrest p posp portp Hp) as (Hv & [t Ht] & _).
       exists posp, portp. split; [done|]. split; [done|].
       unfold st0. simpl. rewrite lookup_insert. case_decide; eauto. }
  cbn [Board._board_state Board._observers] in *.
  assert (forall pos' t, BoardState.board st0 !! pos' = Some t -> Tile.valid t) as Htiles0.
  { intros pos' t. unfold st0. simpl. rewrite lookup_insert.
    case_decide; [by intros [= <-]|apply Htiles]. }
  destruct (LoggingObserver.entered_loop
              (default LoggingObserver.new (obs1 !! length obs))) as [|p el] eqn:Hel.
  { cbn [is_error]. intros [= <-]. cbn [Board._board_state].
    split; [done|]. by rewrite Hboard1. }
  destruct (remove_looped_players_spec (p :: el) st)
    as (r2 & st2 & Hrun2 & Hboard2 & Hsub2 & _).
  rewrite Hrun2. cbn [Board._board_state Board._observers].
  destruct r2 as [[]| |]; cbn [is_error]; intros [= <-]; cbn [Board._board_state].
  split; [by eapply all_rest_subseteq|]. by rewrite Hboard2.
Qed.

(** the cell next to [pos] on the side of the tile that [port] is on *)
Definition neighbor_at (pos : BoardPosition.t) (port : PortID) : BoardPosition.t :=
  if decide (port ∈ [Port.TopLeft; Port.TopRight]) then
    BoardPosition.mk (BoardPosition.x pos) (BoardPosition.y pos - 1)
  else if decide (port ∈ [Port.RightTop; Port.RightBottom]) then
    BoardPosition.mk (BoardPosition.x pos + 1) (BoardPosition.y pos)
  else if decide (port ∈ [Port.BottomLeft; Port.BottomRight]) then
    BoardPosition.mk (BoardPosition.x pos) (BoardPosition.y pos + 1)
  else BoardPosition.mk (BoardPosition.x pos - 1) (BoardPosition.y pos).

(** X9: [calculate_adjacent_position_of_player] fails with an error for an
    agent that is not live.  For a live agent on a cell of the board and one
    of the eight ports it returns the cell on the other side of the tile's
    side that the port is on, which is a cell of the board, when that side
    does not lie on the rim, and [None] when it does.  For a live agent
    whose port is none of the eight it fails with an error. *)
Theorem calculate_adjacent_position_of_player_spec (st : BoardState.t)
    (player : ColorString) :
  (BoardState.live_players st !! player = None ->
   exists msg, BoardState.calculate_adjacent_position_of_player st player = Error msg) /\
  (forall pos port,
     BoardState.live_players st !! player = Some (pos, port) ->
     BoardPosition.valid pos -> port ∈ Port.all ->
     BoardState.calculate_adjacent_position_of_player st player
     = Ok (if BoardState.port_faces_interior st pos port
           then Some (neighbor_at pos port) else None) /\
     (BoardState.port_faces_interior st pos port = true ->
      BoardPosition.valid (neighbor_at pos port)))  /\
  (forall pos port,
     BoardState.live_players st !! player = Some (pos, port) ->
     port ∉ Port.all ->
     exists msg, BoardState.calculate_adjacent_position_of_player st player = Error msg).
Proof.
  unfold BoardState.calculate_adjacent_position_of_player,
    BoardState.get_position_of_player.
  split; [|split].
  - intros ->. by eexists.
  - intros pos port Hp Hv Hport. rewrite Hp.
    apply BoardPosition_valid_iff in Hv.
    rewrite BoardPosition_valid_iff.
    pose proof (port_faces_interior_spec st pos port) as Hrim.
    destruct (BoardState.port_faces_interior st pos port).
    + assert (~ port_faces_rim pos port) as Hnot by (intros H; by apply Hrim in H).
      clear Hrim. destruct pos as [x y].
      unfold port_faces_rim, neighbor_at, Port.all, Port.TopLeft,
        Port.TopRight, Port.RightTop, Port.RightBottom, Port.BottomLeft,
        Port.BottomRight, Port.LeftBottom, Port.LeftTop, MAX_BOARD_COORDINATE,
        MIN_BOARD_COORDINATE in *.
      cbn [BoardPosition.x BoardPosition.y] in *.
      rewrite !elem_of_cons, elem_of_nil in Hport.
      destruct Hport as [->|[->|[->|[->|[->|[->|[->|[->|[]]]]]]]]];
      repeat (let H := fresh "Hd" in
              case_decide as H; rewrite ?elem_of_cons, ?elem_of_nil in H;
              try (exfalso; lia));
        cbn [BoardPosition.x BoardPosition.y];
        rewrite ?BoardPosition_new_Ok by lia; (split; [done|intros _; lia]).
    + assert (port_faces_rim pos port) as Hyes by (by apply Hrim).
      clear Hrim. destruct pos as [x y].
      unfold port_faces_rim, neighbor_at, Port.all, Port.TopLeft,
        Port.TopRight, Port.RightTop, Port.RightBottom, Port.BottomLeft,
        Port.BottomRight, Port.LeftBottom, Port.LeftTop, MAX_BOARD_COORDINATE,
        MIN_BOARD_COORDINATE in *.
      cbn [BoardPosition.x BoardPosition.y] in *.
      rewrite !elem_of_cons, elem_of_nil in Hport.
      destruct Hport as [->|[->|[->|[->|[->|[->|[->|[->|[]]]]]]]]];
      repeat (let H := fresh "Hd" in
              case_decide as H; rewrite ?elem_of_cons, ?elem_of_nil in H;
              try (exfalso; lia)); done.
  - intros pos port Hp Hport. rewrite Hp.
    unfold Port.all in Hport. rewrite !not_elem_of_cons in Hport.
    destruct Hport as (? & ? & ? & ? & ? & ? & ? & ? & _).
    repeat (rewrite decide_False
              by (rewrite !not_elem_of_cons; repeat split; auto using not_elem_of_nil)).
    by eexists.
Qed.

(** a first move that the constructor of [InitialMove] built *)
Definition built_initial_move (m : InitialMove.t) : Prop :=
  InitialMove.new (InitialMove.pos m) (InitialMove.tile m) (InitialMove.port m)
    (InitialMove.player m) = Ok m.

Lemma built_initial_move_inv m :
  built_initial_move m ->
  Tile.valid (InitialMove.tile m) /\ BoardPosition.valid (InitialMove.pos m) /\
  InitialMove.port m ∈ port_range.
Proof.
  unfold built_initial_move, InitialMove.new. repeat case_decide; done.
Qed.

(** the state after the change that [initial_move_with_scissors] makes *)
Definition placed (st : BoardState.t) (m : InitialMove.t) : BoardState.t :=
  BoardState.with_change st
    (Some (InitialMove.tile m, InitialMove.pos m))
    (Some (<[InitialMove.player m := (InitialMove.pos m, InitialMove.port m)]>
             (BoardState.live_players st))).

(** what [validate_initial_move] has checked of an accepted move *)
Lemma validate_initial_move_Ok st obs m :
  BoardPosition.valid (InitialMove.pos m) ->
  Board.validate_initial_move (Board.mk st obs) m = Ok tt ->
  BoardState.live_players st !! InitialMove.player m = None /\
  BoardState.board st !! InitialMove.pos m = None /\
  neighbors_all_empty st (InitialMove.pos m) /\
  BoardState.port_faces_interior st (InitialMove.pos m) (InitialMove.port m) = true.
Proof.
  intros Hv Hval.
  destruct (validate_initial_move_cases (Board.mk st obs) m Hv) as [Hcases _].
  assert (~ (C5_listed_conditions (Board.mk st obs) m \/
             port_faces_rim (InitialMove.pos m) (InitialMove.port m))) as Hnot.
  { intros Hc. apply Hcases in Hc. by rewrite Hval in Hc. }
  unfold C5_listed_conditions, Board.live_players in Hnot.
  cbn [Board._board_state] in Hnot.
  split.
  { destruct (BoardState.live_players st !! InitialMove.player m) eqn:E; [|done].
    exfalso. apply Hnot. left. left. by eexists. }
  split.
  { destruct (BoardState.board st !! InitialMove.pos m) eqn:E; [|done].
    exfalso. apply Hnot. left. right. left. by eexists. }
  split.
  { intros q Hq. destruct (BoardState.board st !! q) eqn:E; [|done].
    exfalso. apply Hnot. left. do 3 right. intros HD. by rewrite (HD q Hq) in E. }
  destruct (BoardState.port_faces_interior st _ _) eqn:E; [done|].
  exfalso. apply Hnot. right. by apply (port_faces_interior_spec st).
Qed.

Lemma validate_initial_move_not_raised st obs m e :
  BoardPosition.valid (InitialMove.pos m) ->
  Board.validate_initial_move (Board.mk st obs) m <> Raise e.
Proof.
  intros Hv Hval.
  destruct (validate_initial_move_cases (Board.mk st obs) m Hv) as [Hcases Hok].
  assert (~ (C5_listed_conditions (Board.mk st obs) m \/
             port_faces_rim (InitialMove.pos m) (InitialMove.port m))) as Hnot.
  { intros Hc. apply Hcases in Hc. by rewrite Hval in Hc. }
  apply Hok in Hnot. by rewrite Hval in Hnot.
Qed.

(** an accepted first move puts the tile and the agent as given and moves
    nobody *)
Lemma initial_move_state st obs m :
  settled st -> built_initial_move m ->
  Board.validate_initial_move (Board.mk st obs) m = Ok tt ->
  Board.initial_move (Board.mk st obs) m = (Ok tt, Board.mk (placed st m) obs) /\
  settled (placed st m).
Proof.
  intros [Hrest Htiles] Hbuilt Hval.
  destruct (built_initial_move_inv m Hbuilt) as (Hvt & Hv & Hport).
  destruct (validate_initial_move_Ok st obs m Hv Hval)
    as (Hfresh & Hfree & Hempty & Hface).
  set (pos := InitialMove.pos m) in *. set (port := InitialMove.port m) in *.
  set (player := InitialMove.player m) in *.
  assert (all_rest (placed st m)) as Hrest1.
  { intros q posq portq. unfold placed. simpl. fold player pos port.
    rewrite lookup_insert.
    case_decide as Hq.
    - intros [= <- <-]. subst q. split; [done|].
      split; [rewrite lookup_insert_eq; eauto|].
      destruct (faces_interior_adjacent (placed st m) player pos port) as [next Hadj];
        try done.
      { unfold placed. simpl. apply lookup_insert_eq. }
      exists next. split; [done|].
      destruct (calculate_adjacent_Some (placed st m) player pos port next)
        as (_ & Hnv & Hrel);
        [unfold placed; simpl; apply lookup_insert_eq|done|].
      rewrite lookup_insert_ne.
      + apply Hempty. split; [done|]. exact Hrel.
      + intros ->. lia.
    - intros Hpq. destruct (Hrest q posq portq Hpq) as (Hvq & Htile & next & Hadj & Hnone).
      split; [done|]. split.
      { rewrite lookup_insert. case_decide; eauto. }
      exists next. split.
      { rewrite <- Hadj. apply calculate_adjacent_ext. unfold placed. simpl.
        by rewrite lookup_insert_ne. }
      rewrite lookup_insert_ne; [done|].
      intros ->.
      destruct (calculate_adjacent_Some st q posq portq next Hpq Hadj)
        as (_ & _ & Hrel).
      assert (BoardState.board st !! posq = None) as Habs.
      { apply Hempty. split; [done|]. lia. }
      rewrite Habs in Htile. by destruct Htile. }
  split.
  - unfold Board.initial_move. unfold Board.atomic at 1. rewrite Hval.
    unfold Board.initial_move_with_scissors, Board.atomic, Board.set_board_state.
    cbn [Board._board_state Board._observers]. fold (placed st m).
    unfold Board._move_all_players_along_paths. cbn [Board._board_state].
    rewrite move_all_players_loop_rest.
    2: { intros q Hq. apply live_players_keys in Hq as [[posq portq] Hpq].
         destruct (Hrest1 q posq portq Hpq) as (_ & _ & Hnext). split; eauto. }
    done.
  - split; [done|]. intros pos' t. unfold placed. simpl. rewrite lookup_insert.
    case_decide; [by intros [= <-]|apply Htiles].
Qed.

(** a live agent of a settled board can place a tile *)
Lemma settled_target_cell st player :
  settled st -> is_Some (BoardState.live_players st !! player) ->
  exists pos, target_cell st player = Ok pos.
Proof.
  intros [Hrest _] [[pos port] Hp].
  destruct (Hrest player pos port Hp) as (_ & _ & next & Hadj & Hfree).
  exists next. unfold target_cell.
  rewrite decide_False by (apply not_eq_None_Some; eauto).
  rewrite Hadj. unfold BoardState.get_tile. rewrite Hfree.
  rewrite decide_False; [done|]. by intros H.
Qed.

Lemma intermediate_move_progress st obs m :
  settled st -> Tile.valid (IntermediateMove.tile m) ->
  is_Some (BoardState.live_players st !! IntermediateMove.player m) ->
  exists b',
    Board.intermediate_move (Board.mk st obs) m = (Ok tt, b') /\
    settled (Board._board_state b') /\
    BoardState.board st ⊆ BoardState.board (Board._board_state b') /\
    (size (BoardState.board (Board._board_state b')) <= size (BoardState.board st) + 1)%nat /\
    dom (Board.live_players b') ⊆ dom (BoardState.live_players st).
Proof.
  intros Hs Hvt Hlive.
  destruct (settled_target_cell st _ Hs Hlive) as [pos Htc].
  destruct (intermediate_move_safe st m pos obs (settled_wf st Hs) Hvt Htc) as [b' Hmove].
  exists b'. split; [done|]. split; [by eapply intermediate_move_settled|].
  pose proof (intermediate_move_live _ _ _ Hmove) as Hdom.
  pose proof (target_cell_Ok _ _ _ Htc) as (_ & _ & Hfree).
  destruct (intermediate_move_spec st m pos Htc)
    as (r & st' & el & ex & leftover & Hrun & _ & Hok & _).
  rewrite Hrun in Hmove. injection Hmove as -> <-. cbn [Board._board_state].
  destruct (Hok eq_refl) as [_ [(_ & Hb & _)|(_ & Hb & _)]]; rewrite Hb.
  - split; [by apply insert_subseteq|]. split; [|done].
    rewrite map_size_insert_None by done. lia.
  - split; [done|]. split; [lia|done].
Qed.

(** X10: [initial_move] on a settled board, where every live agent stands
    on a tile at a port that leads to an empty cell of the board and every
    tile is valid.  A move that [validate_initial_move] refuses is refused
    with the same message and the board is unchanged; an accepted move puts
    the tile on its cell and the agent on its port, changes nothing else,
    and the board is settled again.  No exception is raised. *)
Theorem initial_move_on_settled_board (st : BoardState.t)
    (obs : list LoggingObserver.t) (m : InitialMove.t) :
  settled st -> built_initial_move m ->
  (forall msg,
     Board.validate_initial_move (Board.mk st obs) m = Error msg ->
     Board.initial_move (Board.mk st obs) m = (Error msg, Board.mk st obs)) /\
  (Board.validate_initial_move (Board.mk st obs) m = Ok tt ->
   Board.initial_move (Board.mk st obs) m = (Ok tt, Board.mk (placed st m) obs) /\
   settled (placed st m)) /\
  (forall e, Board.validate_initial_move (Board.mk st obs) m <> Raise e).
Proof.
  intros Hs Hbuilt. split; [|split].
  - intros msg Hval. unfold Board.initial_move, Board.atomic. by rewrite Hval.
  - by apply initial_move_state.
  - intros e. apply validate_initial_move_not_raised.
    by destruct (built_initial_move_inv m Hbuilt) as (_ & ? & _).
Qed.

(** X11: [intermediate_move] on a settled board with a valid tile.  For an
    agent that is not live it fails and leaves the board as it was.  For a
    live agent it succeeds, and afterwards the board is settled again, every
    tile that was on the board is still there, at most one tile was added,
    and no agent has become live. *)
Theorem intermediate_move_on_settled_board (st : BoardState.t)
    (obs : list LoggingObserver.t) (m : IntermediateMove.t) :
  settled st -> Tile.valid (IntermediateMove.tile m) ->
  (BoardState.live_players st !! IntermediateMove.player m = None ->
   exists msg, Board.intermediate_move (Board.mk st obs) m = (Error msg, Board.mk st obs)) /\
  (is_Some (BoardState.live_players st !! IntermediateMove.player m) ->
   exists b',
     Board.intermediate_move (Board.mk st obs) m = (Ok tt, b') /\
     settled (Board._board_state b') /\
     BoardState.board st ⊆ BoardState.board (Board._board_state b') /\
     (size (BoardState.board (Board._board_state b'))
      <= size (BoardState.board st) + 1)%nat /\
     dom (Board.live_players b') ⊆ dom (BoardState.live_players st)).
Proof.
  intros Hs Hvt. split.
  - intros Hdead. eexists. apply intermediate_move_rejected.
    unfold target_cell. by rewrite decide_True.
  - by apply intermediate_move_progress.
Qed.

Lemma cardinal_neighbor_sym pos q :
  BoardPosition.valid pos -> cardinal_neighbor pos q -> cardinal_neighbor q pos.
Proof. unfold cardinal_neighbor. intros Hv [Hq Hrel]. split; [done|lia]. Qed.

Lemma cardinal_neighbor_ne pos q : cardinal_neighbor pos q -> q <> pos.
Proof. unfold cardinal_neighbor. intros [_ Hrel] ->. lia. Qed.

Lemma placed_board st m :
  BoardState.board (placed st m)
  = <[InitialMove.pos m := InitialMove.tile m]> (BoardState.board st).
Proof. reflexivity. Qed.

Lemma placed_live st m :
  BoardState.live_players (placed st m)
  = <[InitialMove.player m := (InitialMove.pos m, InitialMove.port m)]>
      (BoardState.live_players st).
Proof. reflexivity. Qed.

(** the board that the loop of [create_board_from_initial_placements]
    builds from a settled state: exceptions are not raised, and when the
    loop ends without error every move was placed as given, on a cell that
    no tile touches *)
Lemma initial_placements_loop_spec moves : forall st obs,
  settled st -> Forall built_initial_move moves ->
  match Board.initial_placements_loop moves (Board.mk st obs) with
  | Raise _ => False
  | Error _ => True
  | Ok b' =>
      settled (Board._board_state b') /\ Board._observers b' = obs /\
      NoDup (InitialMove.player <$> moves) /\ NoDup (InitialMove.pos <$> moves) /\
      (forall m, m ∈ moves ->
         BoardState.live_players st !! InitialMove.player m = None /\
         BoardState.board st !! InitialMove.pos m = None /\
         Board.live_players b' !! InitialMove.player m
         = Some (InitialMove.pos m, InitialMove.port m) /\
         BoardState.board (Board._board_state b') !! InitialMove.pos m
         = Some (InitialMove.tile m) /\
         neighbors_all_empty (Board._board_state b') (InitialMove.pos m)) /\
      (forall p, p ∉ InitialMove.player <$> moves ->
         Board.live_players b' !! p = BoardState.live_players st !! p) /\
      (forall q, q ∉ InitialMove.pos <$> moves ->
         BoardState.board (Board._board_state b') !! q = BoardState.board st !! q)
  end.
Proof.
  induction moves as [|m moves IH]; intros st obs Hs Hbuilt.
  { cbn. split; [done|]. split; [done|]. split; [apply NoDup_nil_2|].
    split; [apply NoDup_nil_2|]. split; [|done].
    intros m Hm. by apply elem_of_nil in Hm. }
  apply Forall_cons in Hbuilt as [Hm Hbuilt].
  destruct (built_initial_move_inv m Hm) as (Hvt & Hv & Hport).
  cbn [Board.initial_placements_loop].
  destruct (Board.validate_initial_move (Board.mk st obs) m) as [[]|msg|e] eqn:Hval.
  3: { by apply validate_initial_move_not_raised in Hval. }
  2: { unfold Board.initial_move, Board.atomic. by rewrite Hval. }
  destruct (initial_move_state st obs m Hs Hm Hval) as [Hrun Hs1].
  destruct (validate_initial_move_Ok st obs m Hv Hval)
    as (Hfresh & Hfree & Hempty & _).
  rewrite Hrun. specialize (IH (placed st m) obs Hs1 Hbuilt).
  destruct (Board.initial_placements_loop moves (Board.mk (placed st m) obs))
    as [b'| |]; [|done..].
  destruct IH as (Hs' & Hobs & Hndp & Hndq & Hall & Hlive & Htiles).
  assert (InitialMove.player m ∉ InitialMove.player <$> moves) as Hp.
  { intros (m' & Heq & Hin)%list_elem_of_fmap.
    destruct (Hall m' Hin) as (Hnone & _). rewrite <- Heq in Hnone.
    by rewrite placed_live, lookup_insert_eq in Hnone. }
  assert (InitialMove.pos m ∉ InitialMove.pos <$> moves) as Hq.
  { intros (m' & Heq & Hin)%list_elem_of_fmap.
    destruct (Hall m' Hin) as (_ & Hnone & _). rewrite <- Heq in Hnone.
    by rewrite placed_board, lookup_insert_eq in Hnone. }
  assert (Board.live_players b' !! InitialMove.player m
          = Some (InitialMove.pos m, InitialMove.port m)) as Hmp.
  { by rewrite (Hlive _ Hp), placed_live, lookup_insert_eq. }
  assert (BoardState.board (Board._board_state b') !! InitialMove.pos m
          = Some (InitialMove.tile m)) as Hmq.
  { by rewrite (Htiles _ Hq), placed_board, lookup_insert_eq. }
  split; [done|]. split; [done|]. rewrite !fmap_cons.
  split; [by apply NoDup_cons|]. split; [by apply NoDup_cons|].
  split; [|split].
  - intros m' [->|Hin]%elem_of_cons.
    + repeat (split; [done|]).
      intros q Hnb. destruct (decide (q ∈ InitialMove.pos <$> moves)) as [Hqin|Hqout].
      * apply list_elem_of_fmap in Hqin as (m' & -> & Hin).
        destruct (Hall m' Hin) as (_ & _ & _ & _ & Hempty').
        exfalso. rewrite (Hempty' (InitialMove.pos m)) in Hmq; [done|].
        by apply cardinal_neighbor_sym.
      * rewrite (Htiles _ Hqout), placed_board.
        rewrite lookup_insert_ne by (by apply not_eq_sym, cardinal_neighbor_ne).
        by apply Hempty.
    + destruct (Hall m' Hin) as (H1 & H2 & H3 & H4 & H5).
      rewrite placed_live, lookup_insert in H1.
      rewrite placed_board, lookup_insert in H2.
      destruct (decide (InitialMove.player m = InitialMove.player m')); [done|].
      destruct (decide (InitialMove.pos m = InitialMove.pos m')); [done|].
      done.
  - intros p [Hp1 Hp2]%not_elem_of_cons.
    by rewrite (Hlive _ Hp2), placed_live, lookup_insert_ne.
  - intros q [Hq1 Hq2]%not_elem_of_cons.
    by rewrite (Htiles _ Hq2), placed_board, lookup_insert_ne.
Qed.

(** X12: [create_board_from_initial_placements] on moves built by the
    constructor of [InitialMove] raises no exception.  When it returns a
    board, no agent and no cell occurs twice in the moves, the live agents
    are the agents of the moves, each on the cell and port of its move, the
    tiles are the tiles of the moves, each on its cell, no tile has a
    neighbour, the board is settled and has no observer. *)
Theorem create_board_from_initial_placements_spec
    (initial_placements : list InitialMove.t) :
  Forall built_initial_move initial_placements ->
  (forall e, Board.create_board_from_initial_placements initial_placements <> Raise e) /\
  (forall board,
     Board.create_board_from_initial_placements initial_placements = Ok board ->
     NoDup (InitialMove.player <$> initial_placements) /\
     NoDup (InitialMove.pos <$> initial_placements) /\
     (forall p pos port,
        Board.live_players board !! p = Some (pos, port) <->
        exists m, m ∈ initial_placements /\ InitialMove.player m = p /\
                  InitialMove.pos m = pos /\ InitialMove.port m = port) /\
     (forall q t,
        BoardState.board (Board._board_state board) !! q = Some t <->
        exists m, m ∈ initial_placements /\ InitialMove.pos m = q /\
                  InitialMove.tile m = t) /\
     (forall m, m ∈ initial_placements ->
        neighbors_all_empty (Board._board_state board) (InitialMove.pos m)) /\
     settled (Board._board_state board) /\
     Board._observers board = []).
Proof.
  intros Hbuilt. unfold Board.create_board_from_initial_placements, Board.new.
  cbn [default].
  pose proof (initial_placements_loop_spec initial_placements BoardState.new []
                settled_new Hbuilt) as Hspec.
  destruct (Board.initial_placements_loop initial_placements
              (Board.mk BoardState.new [])) as [b'| |]; [|done..].
  split; [done|]. intros board [= <-].
  destruct Hspec as (Hs & Hobs & Hndp & Hndq & Hall & Hlive & Htiles).
  split; [done|]. split; [done|]. split; [|split; [|split; [|done]]].
  - intros p pos port. split.
    + intros Hp.
      destruct (decide (p ∈ InitialMove.player <$> initial_placements)) as [Hin|Hout].
      * apply list_elem_of_fmap in Hin as (m & -> & Hin). exists m.
        destruct (Hall m Hin) as (_ & _ & Hm & _). rewrite Hm in Hp.
        by injection Hp as <- <-.
      * rewrite (Hlive _ Hout) in Hp. cbn in Hp. by rewrite lookup_empty in Hp.
    + intros (m & Hin & <- & <- & <-). by destruct (Hall m Hin) as (_ & _ & Hm & _).
  - intros q t. split.
    + intros Hq.
      destruct (decide (q ∈ InitialMove.pos <$> initial_placements)) as [Hin|Hout].
      * apply list_elem_of_fmap in Hin as (m & -> & Hin). exists m.
        destruct (Hall m Hin) as (_ & _ & _ & Hm & _). rewrite Hm in Hq.
        by injection Hq as <-.
      * rewrite (Htiles _ Hout) in Hq. cbn in Hq. by rewrite lookup_empty in Hq.
    + intros (m & Hin & <- & <-). by destruct (Hall m Hin) as (_ & _ & _ & Hm & _).
  - intros m Hin. by destruct (Hall m Hin) as (_ & _ & _ & _ & Hm).
Qed.

(** the loop of [create_board_from_moves] on a settled board *)
Lemma moves_loop_spec moves : forall st,
  settled st -> Forall (fun m => Tile.valid (IntermediateMove.tile m)) moves ->
  match Board.moves_loop moves (Board.mk st []) with
  | Raise _ => False
  | Error _ => True
  | Ok b' =>
      settled (Board._board_state b') /\ Board._observers b' = [] /\
      BoardState.board st ⊆ BoardState.board (Board._board_state b') /\
      (size (BoardState.board (Board._board_state b'))
       <= size (BoardState.board st) + length moves)%nat /\
      dom (Board.live_players b') ⊆ dom (BoardState.live_players st)
  end.
Proof.
  induction moves as [|m moves IH]; intros st Hs Hvalid.
  { cbn. split; [done|]. split; [done|]. split; [done|]. split; [lia|done]. }
  apply Forall_cons in Hvalid as [Hvt Hvalid].
  cbn [Board.moves_loop].
  destruct (BoardState.live_players st !! IntermediateMove.player m) as [pp|] eqn:Hp.
  2: { rewrite (intermediate_move_rejected st m
                  "cannot place a tile for player since they are not alive" []); [done|].
       unfold target_cell. by rewrite decide_True. }
  destruct (intermediate_move_progress st [] m Hs Hvt ltac:(eauto))
    as (b1 & Hrun & Hs1 & Hsub1 & Hsize1 & Hdom1).
  rewrite Hrun.
  assert (Board._observers b1 = []) as Hobs1.
  { destruct (settled_target_cell st _ Hs ltac:(eauto)) as [pos Htc].
    destruct (intermediate_move_spec st m pos Htc)
      as (r & st' & el & ex & leftover & Hrun' & _ & Hok & _).
    rewrite Hrun' in Hrun. injection Hrun as -> <-.
    by destruct (Hok eq_refl) as [-> _]. }
  destruct b1 as [st1 obs1]. cbn [Board._observers Board._board_state] in *. subst obs1.
  specialize (IH st1 Hs1 Hvalid).
  destruct (Board.moves_loop moves (Board.mk st1 [])) as [b'| |]; [|done..].
  destruct IH as (Hs' & Hobs & Hsub & Hsize & Hdom).
  split; [done|]. split; [done|]. split; [by etrans|].
  split; [cbn [length]; lia|].
  etrans; [exact Hdom|]. exact Hdom1.
Qed.

(** X13: [create_board_from_moves] on initial placements built by the
    constructor of [InitialMove] and intermediate moves with valid tiles
    raises no exception.  When it returns a board, the board is settled and
    has no observer, the tile of every initial placement is on its cell,
    there are at most as many tiles as moves, and every live agent is the
    agent of an initial placement. *)
Theorem create_board_from_moves_spec (initial_placements : list InitialMove.t)
    (moves : list IntermediateMove.t) :
  Forall built_initial_move initial_placements ->
  Forall (fun m => Tile.valid (IntermediateMove.tile m)) moves ->
  (forall e, Board.create_board_from_moves initial_placements moves <> Raise e) /\
  (forall board,
     Board.create_board_from_moves initial_placements moves = Ok board ->
     settled (Board._board_state board) /\
     Board._observers board = [] /\
     (forall m, m ∈ initial_placements ->
        BoardState.board (Board._board_state board) !! InitialMove.pos m
        = Some (InitialMove.tile m)) /\
     (size (BoardState.board (Board._board_state board))
      <= length initial_placements + length moves)%nat /\
     (forall p, is_Some (Board.live_players board !! p) ->
        p ∈ InitialMove.player <$> initial_placements)).
Proof.
  intros Hbuilt Hvalid. unfold Board.create_board_from_moves.
  destruct (create_board_from_initial_placements_spec initial_placements Hbuilt)
    as [Hnr Hok].
  destruct (Board.create_board_from_initial_placements initial_placements)
    as [[st obs]| |e] eqn:Hfirst; [|done|by destruct (Hnr e)].
  destruct (Hok _ eq_refl) as (Hndp & Hndq & Hlive & Htiles & _ & Hs & Hobs).
  cbn [Board._observers Board._board_state] in *. subst obs.
  pose proof (moves_loop_spec moves st Hs Hvalid) as Hspec.
  destruct (Board.moves_loop moves (Board.mk st [])) as [b'| |]; [|done..].
  split; [done|]. intros board [= <-].
  destruct Hspec as (Hs' & Hobs' & Hsub & Hsize & Hdom).
  split; [done|]. split; [done|]. split; [|split].
  - intros m Hin. eapply lookup_weaken; [|exact Hsub].
    apply Htiles. by exists m.
  - assert (size (BoardState.board st) <= length initial_placements)%nat; [|lia].
    rewrite <- (length_fmap InitialMove.pos initial_placements).
    rewrite <- (size_list_to_set (C := gset BoardPosition.t)) by done.
    rewrite <- size_dom. apply subseteq_size.
    intros q [t Hq]%elem_of_dom. apply elem_of_list_to_set.
    apply Htiles in Hq as (m & Hin & <- & _). apply list_elem_of_fmap. by exists m.
  - intros p Hp. apply elem_of_dom in Hp. apply Hdom in Hp.
    apply elem_of_dom in Hp as [[pos port] Hp].
    apply Hlive in Hp as (m & Hin & <- & _). apply list_elem_of_fmap. by exists m.
Qed.

(** the first move that leads to [corner_state] *)
Definition corner_placement : InitialMove.t :=
  InitialMove.mk (BoardPosition.mk 0 0) corner_tile Port.RightTop white.

(** a first move of another agent, into the opposite corner *)
Definition far_placement : InitialMove.t :=
  InitialMove.mk (BoardPosition.mk 9 9) crooked_tile Port.TopLeft black.

Lemma settled_corner_state : settled corner_state.
Proof.
  change corner_state with (placed BoardState.new corner_placement).
  apply (initial_move_state BoardState.new [] corner_placement);
    [apply settled_new|reflexivity|reflexivity].
Qed.

Lemma calculate_adjacent_position_of_player_spec_witness :
  BoardState.live_players corner_state !! white
  = Some (BoardPosition.mk 0 0, Port.RightTop) /\
  BoardPosition.valid (BoardPosition.mk 0 0) /\
  Port.RightTop ∈ Port.all /\
  BoardState.calculate_adjacent_position_of_player corner_state white
  = Ok (Some (BoardPosition.mk 1 0)).
Proof.
  assert (Port.RightTop ∈ Port.all) as Hport.
  { apply (bool_decide_unpack _). by vm_compute. }
  split; [reflexivity|]. split; [reflexivity|]. split; [exact Hport|].
  destruct (calculate_adjacent_position_of_player_spec corner_state white)
    as (_ & Hlive & _).
  destruct (Hlive (BoardPosition.mk 0 0) Port.RightTop) as [Heq _];
    [reflexivity|reflexivity|exact Hport|].
  exact Heq.
Defined.

Lemma initial_move_on_settled_board_witness :
  settled BoardState.new /\ built_initial_move corner_placement /\
  Board.validate_initial_move (Board.mk BoardState.new []) corner_placement = Ok tt /\
  Board.initial_move (Board.mk BoardState.new []) corner_placement
  = (Ok tt, Board.mk corner_state []) /\
  settled corner_state.
Proof.
  split; [apply settled_new|]. split; [reflexivity|]. split; [reflexivity|].
  destruct (initial_move_on_settled_board BoardState.new [] corner_placement)
    as (_ & Hok & _); [apply settled_new|reflexivity|].
  apply Hok. reflexivity.
Defined.

Lemma intermediate_move_on_settled_board_witness :
  settled corner_state /\ Tile.valid side_tile /\
  is_Some (BoardState.live_players corner_state !! white) /\
  exists b',
    Board.intermediate_move (Board.mk corner_state []) (IntermediateMove.mk side_tile white)
    = (Ok tt, b') /\
    settled (Board._board_state b').
Proof.
  split; [apply settled_corner_state|]. split; [reflexivity|].
  split; [by eexists|].
  destruct (intermediate_move_on_settled_board corner_state []
              (IntermediateMove.mk side_tile white))
    as (_ & Hlive); [apply settled_corner_state|reflexivity|].
  destruct Hlive as (b' & Hrun & Hs & _); [by eexists|].
  by exists b'.
Defined.

Lemma create_board_from_initial_placements_spec_witness :
  Forall built_initial_move [corner_placement; far_placement] /\
  exists board,
    Board.create_board_from_initial_placements [corner_placement; far_placement]
    = Ok board /\
    settled (Board._board_state board) /\
    Board.live_players board !! black = Some (BoardPosition.mk 9 9, Port.TopLeft).
Proof.
  assert (Forall built_initial_move [corner_placement; far_placement]) as Hbuilt.
  { repeat constructor. }
  split; [exact Hbuilt|].
  destruct (create_board_from_initial_placements_spec
              [corner_placement; far_placement] Hbuilt) as [_ Hok].
  eexists. split; [vm_compute; reflexivity|].
  edestruct Hok as (_ & _ & Hlive & _ & _ & Hs & _); [vm_compute; reflexivity|].
  split; [exact Hs|]. apply Hlive. exists far_placement.
  split; [|done]. apply elem_of_cons; right; apply elem_of_cons; by left.
Defined.

Lemma create_board_from_moves_spec_witness :
  Forall built_initial_move [corner_placement; far_placement] /\
  Forall (fun m => Tile.valid (IntermediateMove.tile m))
    [IntermediateMove.mk side_tile white] /\
  exists board,
    Board.create_board_from_moves [corner_placement; far_placement]
      [IntermediateMove.mk side_tile white] = Ok board /\
    settled (Board._board_state board) /\
    BoardState.board (Board._board_state board) !! BoardPosition.mk 9 9
    = Some crooked_tile.
Proof.
  assert (Forall built_initial_move [corner_placement; far_placement]) as Hbuilt.
  { repeat constructor. }
  assert (Forall (fun m => Tile.valid (IntermediateMove.tile m))
            [IntermediateMove.mk side_tile white]) as Hvalid.
  { repeat constructor. }
  split; [exact Hbuilt|]. split; [exact Hvalid|].
  destruct (create_board_from_moves_spec [corner_placement; far_placement]
              [IntermediateMove.mk side_tile white] Hbuilt Hvalid) as [_ Hok].
  eexists. split; [vm_compute; reflexivity|].
  edestruct Hok as (Hs & _ & Htiles & _); [vm_compute; reflexivity|].
  split; [exact Hs|].
  apply (Htiles far_placement). apply elem_of_cons; right; apply elem_of_cons; by left.
Defined.

(** ** The rule checker and the strategies *)

(** [is_move_illegal] for a live agent on a settled board: the move is
    illegal when, after the board has made it, the agent is not live or the
    tile is not on the board *)
Lemma is_move_illegal_live st m :
  settled st -> Tile.valid (IntermediateMove.tile m) ->
  is_Some (BoardState.live_players st !! IntermediateMove.player m) ->
  exists st',
    Board.intermediate_move (Board.new (Some st)) m = (Ok tt, Board.mk st' []) /\
    RuleChecker.is_move_illegal st m
    = Ok (bool_decide (BoardState.live_players st' !! IntermediateMove.player m = None)
          || bool_decide (BoardState.board st' = BoardState.board st)).
Proof.
  intros Hs Hvt Hlive. unfold RuleChecker.is_move_illegal, RuleChecker.is_move_suicidal,
    RuleChecker.move_creates_loop.
  rewrite decide_False by (by apply not_eq_None_Some).
  destruct (settled_target_cell st _ Hs Hlive) as [pos Htc].
  pose proof (target_cell_Ok _ _ _ Htc) as (_ & _ & Hfree).
  destruct (intermediate_move_spec st m pos Htc)
    as (r & st' & el & ex & leftover & Hrun & _ & Hok & _).
  destruct (intermediate_move_safe st m pos [] (settled_wf st Hs) Hvt Htc)
    as [b' Hmove].
  pose proof (Hrun []) as Hrun0. rewrite Hmove in Hrun0.
  injection Hrun0 as <- ->.
  destruct (Hok eq_refl) as [-> Hcases].
  exists st'. unfold Board.new, Board.add_observer.
  cbn [default Board._board_state Board._observers app].
  rewrite !Hrun. cbn [fmap list_fmap app].
  split; [done|].
  unfold Board.live_players. cbn [Board._board_state Board._observers lookup].
  cbn [list_lookup default log_add LoggingObserver.entered_loop
         LoggingObserver.new app].
  destruct Hcases as [(-> & Hboard & _)|(Hel & Hboard & _)].
  + rewrite (bool_decide_eq_false_2 (BoardState.board st' = BoardState.board st)).
    2: { rewrite Hboard. intros Heq.
         assert (BoardState.board st !! pos = Some (IntermediateMove.tile m)) as Hin
           by (by rewrite <- Heq, lookup_insert_eq).
         unfold BoardState.get_tile in Hfree. by rewrite Hfree in Hin. }
    cbn [length Nat.leb Nat.ltb andb orb].
    rewrite andb_true_r, orb_false_r. by destruct (bool_decide _).
  + rewrite (bool_decide_eq_true_2 _ Hboard). rewrite orb_true_r.
    destruct el as [|c el]; [done|]. cbn [length Nat.leb].
    rewrite andb_false_r. reflexivity.
Qed.

(** X14: [is_move_illegal] on a settled board with a valid tile.  For an
    agent that is not live it returns an error.  For a live agent the board
    can make the move, and [is_move_illegal] returns true exactly when,
    after the board has made the move, the agent is not live or the tile
    has not been kept on the board. *)
Theorem is_move_illegal_spec (st : BoardState.t) (m : IntermediateMove.t) :
  settled st -> Tile.valid (IntermediateMove.tile m) ->
  (BoardState.live_players st !! IntermediateMove.player m = None ->
   exists msg, RuleChecker.is_move_illegal st m = Error msg) /\
  (is_Some (BoardState.live_players st !! IntermediateMove.player m) ->
   exists st',
     Board.intermediate_move (Board.new (Some st)) m = (Ok tt, Board.mk st' []) /\
     RuleChecker.is_move_illegal st m
     = Ok (bool_decide (BoardState.live_players st' !! IntermediateMove.player m = None)
           || bool_decide (BoardState.board st' = BoardState.board st))).
Proof.
  intros Hs Hvt. split.
  - intros Hdead. unfold RuleChecker.is_move_illegal, RuleChecker.is_move_suicidal.
    rewrite decide_True by done. by eexists.
  - by apply is_move_illegal_live.
Qed.

Lemma is_move_illegal_spec_witness :
  settled corner_state /\ Tile.valid side_tile /\
  is_Some (BoardState.live_players corner_state !! white) /\
  RuleChecker.is_move_illegal corner_state (IntermediateMove.mk side_tile white)
  = Ok true.
Proof.
  split; [apply settled_corner_state|]. split; [reflexivity|].
  split; [by eexists|].
  destruct (is_move_illegal_spec corner_state (IntermediateMove.mk side_tile white))
    as (_ & Hlive); [apply settled_corner_state|reflexivity|].
  destruct Hlive as (st' & Hrun & ->); [by eexists|].
  vm_compute in Hrun. injection Hrun as <-. reflexivity.
Defined.

(** *** First moves of the strategies *)

Lemma is_valid_initial_position_cases st pos :
  BoardPosition.valid pos ->
  PhysicalConstraintChecker.is_valid_initial_position st pos = Ok tt \/
  exists msg, PhysicalConstraintChecker.is_valid_initial_position st pos = Error msg.
Proof.
  intros Hv. unfold PhysicalConstraintChecker.is_valid_initial_position.
  case_decide; [right; by eexists|].
  destruct (negb _); [right; by eexists|].
  destruct (surrounding_positions_are_empty_spec st pos Hv) as ([] & -> & _);
    [by left|right; by eexists].
Qed.

(** a port of the top side or a port of the bottom side of every cell faces
    the interior of the board *)
Lemma some_port_faces_interior st pos :
  BoardPosition.valid pos ->
  BoardState.port_faces_interior st pos Port.TopLeft = true \/
  BoardState.port_faces_interior st pos Port.BottomLeft = true.
Proof.
  intros Hv%BoardPosition_valid_iff.
  destruct (BoardState.port_faces_interior st pos Port.TopLeft) eqn:H1; [by left|].
  destruct (BoardState.port_faces_interior st pos Port.BottomLeft) eqn:H2; [by right|].
  apply port_faces_interior_spec in H1, H2.
  unfold port_faces_rim, Port.TopLeft, Port.BottomLeft, Port.LeftTop, Port.LeftBottom,
    Port.TopRight, Port.RightBottom, Port.RightTop, Port.BottomRight in *.
  lia.
Qed.

(** the loop of [_find_valid_port]: the first port of the list that
    [is_valid_initial_port] accepts *)
Lemma find_valid_port_loop_spec st pos ports :
  PhysicalConstraintChecker.is_valid_initial_position st pos = Ok tt ->
  match FirstS.find_valid_port_loop st pos ports with
  | Ok port =>
      port ∈ ports /\ BoardState.port_faces_interior st pos port = true
  | Error _ =>
      forall port, port ∈ ports -> BoardState.port_faces_interior st pos port = false
  | Raise _ => False
  end.
Proof.
  intros Hpos. induction ports as [|port ports IH]; cbn [FirstS.find_valid_port_loop].
  { intros port Hin. by apply elem_of_nil in Hin. }
  unfold PhysicalConstraintChecker.is_valid_initial_port at 1. rewrite Hpos.
  destruct (BoardState.port_faces_interior st pos port) eqn:Hport; cbn [negb].
  { split; [apply elem_of_cons; by left|done]. }
  destruct (FirstS.find_valid_port_loop st pos ports) as [p| |]; [| |done].
  - destruct IH. split; [apply elem_of_cons; by right|done].
  - intros p [->|Hin]%elem_of_cons; [done|by apply IH].
Qed.

(** what one try of a cell gives, for a list of ports that has a port of
    the top side and a port of the bottom side *)
Lemma find_valid_move_cases st pos ports :
  BoardPosition.valid pos -> Port.TopLeft ∈ ports -> Port.BottomLeft ∈ ports ->
  match
    match PhysicalConstraintChecker.is_valid_initial_position st pos with
    | Error msg => Error msg
    | Raise e => Raise e
    | Ok _ =>
        match FirstS.find_valid_port_loop st pos ports with
        | Error msg => Error msg
        | Raise e => Raise e
        | Ok port => Ok (pos, port)
        end
    end
  with
  | Ok (pos', port) =>
      pos' = pos /\ port ∈ ports /\
      PhysicalConstraintChecker.is_valid_initial_position st pos = Ok tt /\
      BoardState.port_faces_interior st pos port = true
  | Error _ =>
      exists msg, PhysicalConstraintChecker.is_valid_initial_position st pos = Error msg
  | Raise _ => False
  end.
Proof.
  intros Hv Htop Hbottom.
  destruct (is_valid_initial_position_cases st pos Hv) as [Hpos|[msg Hpos]].
  2: { rewrite Hpos. by exists msg. }
  pose proof (find_valid_port_loop_spec st pos ports Hpos) as Hloop.
  rewrite Hpos.
  destruct (FirstS.find_valid_port_loop st pos ports) as [port| |]; [|exfalso|done].
  - by destruct Hloop.
  - destruct (some_port_faces_interior st pos Hv) as [H|H].
    + by rewrite (Hloop _ Htop) in H.
    + by rewrite (Hloop _ Hbottom) in H.
Qed.

Definition on_board (cell : Z * Z) : Prop := 0 <= cell.1 <= 9 /\ 0 <= cell.2 <= 9.

(** a first move that the strategy may return for a board state: a cell
    that [is_valid_initial_position] accepts and one of the eight ports,
    facing the interior *)
Definition playable (st : BoardState.t) (pos : BoardPosition.t) (port : PortID) : Prop :=
  BoardPosition.valid pos /\ port ∈ Port.all /\
  PhysicalConstraintChecker.is_valid_initial_position st pos = Ok tt /\
  BoardState.port_faces_interior st pos port = true.

Definition refused (st : BoardState.t) (cell : Z * Z) : Prop :=
  exists msg,
    PhysicalConstraintChecker.is_valid_initial_position st
      (BoardPosition.mk cell.1 cell.2) = Error msg.

Lemma FirstS_side_loop_spec st cells :
  Forall on_board cells ->
  match FirstS.side_loop st cells with
  | Ok (Some (pos, port)) =>
      playable st pos port /\ (BoardPosition.x pos, BoardPosition.y pos) ∈ cells
  | Ok None => Forall (refused st) cells
  | Error _ | Raise _ => False
  end.
Proof.
  induction cells as [|[x y] cells IH]; intros Hcells; cbn [FirstS.side_loop].
  { constructor. }
  apply Forall_cons in Hcells as [[Hx Hy] Hcells]. cbn [fst snd] in Hx, Hy.
  rewrite BoardPosition_new_Ok by done. cbn [mbind Res_bind].
  assert (BoardPosition.valid (BoardPosition.mk x y)) as Hv.
  { by apply BoardPosition_valid_iff. }
  assert (Port.TopLeft ∈ Port.all) as Htop by (apply (bool_decide_unpack _); by vm_compute).
  assert (Port.BottomLeft ∈ Port.all) as Hbottom
    by (apply (bool_decide_unpack _); by vm_compute).
  pose proof (find_valid_move_cases st _ Port.all Hv Htop Hbottom) as Hmove.
  unfold FirstS._find_valid_move, FirstS._find_valid_port.
  destruct (match PhysicalConstraintChecker.is_valid_initial_position st _ with
            | Ok _ => _ | Error msg => _ | Raise e => _ end) as [[pos port]|msg|e];
    [| |done].
  - destruct Hmove as (-> & Hport & Hpos & Hface).
    split; [done|]. apply elem_of_cons. by left.
  - specialize (IH Hcells).
    destruct (FirstS.side_loop st cells) as [[[pos port]|]| |]; [| |done..].
    + destruct IH as [Hplay Hin]. split; [done|]. apply elem_of_cons. by right.
    + apply Forall_cons. split; [exact Hmove|done].
Qed.

(** the board accepts a playable first move of an agent that is not live *)
Lemma playable_accepted st obs pos tile port player :
  playable st pos port ->
  BoardState.live_players st !! player = None ->
  Board.validate_initial_move (Board.mk st obs) (InitialMove.mk pos tile port player)
  = Ok tt.
Proof.
  intros (Hv & Hport & Hpos & Hface) Hlive. unfold Board.validate_initial_move.
  cbn [Board._board_state InitialMove.player InitialMove.pos InitialMove.port].
  rewrite decide_False by (by rewrite Hlive; intros []).
  unfold PhysicalConstraintChecker.is_valid_initial_port. by rewrite Hpos, Hface.
Qed.

(** the board refuses every first move to a cell that
    [is_valid_initial_position] refuses *)
Lemma refused_rejected st obs m :
  refused st (BoardPosition.x (InitialMove.pos m), BoardPosition.y (InitialMove.pos m)) ->
  is_error (Board.validate_initial_move (Board.mk st obs) m) = true.
Proof.
  intros [msg Hpos]. cbn [fst snd] in Hpos. unfold Board.validate_initial_move.
  cbn [Board._board_state]. case_decide; [done|].
  destruct (InitialMove.pos m) as [x y]. cbn [BoardPosition.x BoardPosition.y] in Hpos.
  by rewrite Hpos.
Qed.

(** a cell that is not on the edge of the board is refused *)
Lemma interior_refused st cell :
  ~ on_board_edge (BoardPosition.mk cell.1 cell.2) -> refused st cell.
Proof.
  intros Hedge. unfold refused, PhysicalConstraintChecker.is_valid_initial_position.
  case_decide; [by eexists|].
  destruct (BoardPosition.is_edge _) eqn:He; [|by eexists].
  by apply is_edge_spec in He.
Qed.

Lemma elem_of_range (lo hi z : Z) : z ∈ range lo hi <-> lo <= z < hi.
Proof. unfold range. rewrite elem_of_seqZ. lia. Qed.

Lemma Forall_on_board_fmap (f : Z -> Z * Z) (zs : list Z) :
  (forall z, z ∈ zs -> on_board (f z)) -> Forall on_board (f <$> zs).
Proof. intros H. apply Forall_fmap, Forall_forall. exact H. Qed.

Lemma refused_in_side st (f : Z -> Z * Z) (zs : list Z) z :
  Forall (refused st) (f <$> zs) -> z ∈ zs -> refused st (f z).
Proof.
  intros Hall Hz. rewrite Forall_fmap, Forall_forall in Hall. by apply Hall.
Qed.

(** X15: [FirstS.generate_first_move], which [SecondS] inherits, raises no
    exception.  With a number of tiles other than three it returns an
    error.  A move it returns has the third tile, a cell that
    [is_valid_initial_position] accepts and one of the eight ports, facing
    the interior, and the board accepts it for every agent that is not
    live.  With three tiles it returns an error only when the board refuses
    every first move, to whatever cell of the board. *)
Theorem FirstS_generate_first_move_spec (tiles : list Tile.t) (st : BoardState.t) :
  (forall e, FirstS.generate_first_move tiles st <> Raise e) /\
  (length tiles <> 3%nat ->
   exists msg, FirstS.generate_first_move tiles st = Error msg) /\
  (forall pos tile port,
     FirstS.generate_first_move tiles st = Ok (pos, tile, port) ->
     length tiles = 3%nat /\ tiles !! 2%nat = Some tile /\
     playable st pos port /\
     forall obs player,
       BoardState.live_players st !! player = None ->
       Board.validate_initial_move (Board.mk st obs)
         (InitialMove.mk pos tile port player) = Ok tt) /\
  (length tiles = 3%nat ->
   forall msg,
     FirstS.generate_first_move tiles st = Error msg ->
     forall obs m,
       BoardPosition.valid (InitialMove.pos m) ->
       is_error (Board.validate_initial_move (Board.mk st obs) m) = true).
Proof.
  unfold FirstS.generate_first_move, EXPECTED_TILE_COUNT_INITIAL_MOVE.
  destruct (decide (length tiles <> 3%nat)) as [Hlen|Hlen].
  { split; [done|]. split; [by eexists|]. split; [done|]. done. }
  apply dec_stable in Hlen.
  destruct (tiles !! 2%nat) as [tile|] eqn:Htile.
  2: { apply lookup_ge_None in Htile. lia. }
  unfold MIN_BOARD_COORDINATE, MAX_BOARD_COORDINATE.
  set (top := (fun x => (x, 0)) <$> range (0 + 1) (9 + 1)).
  set (right := (fun y => (9, y)) <$> range 0 (9 + 1)).
  set (bottom := (fun x => (x, 9)) <$> reverse (range 0 (9 + 1))).
  set (left := (fun y => (0, y)) <$> reverse (range 0 (9 + 1))).
  assert (Forall on_board top) as Htop.
  { apply Forall_on_board_fmap. intros z Hz%elem_of_range. unfold on_board. simpl. lia. }
  assert (Forall on_board right) as Hright.
  { apply Forall_on_board_fmap. intros z Hz%elem_of_range. unfold on_board. simpl. lia. }
  assert (Forall on_board bottom) as Hbottom.
  { apply Forall_on_board_fmap. intros z Hz%elem_of_reverse%elem_of_range.
    unfold on_board. simpl. lia. }
  assert (Forall on_board left) as Hleft.
  { apply Forall_on_board_fmap. intros z Hz%elem_of_reverse%elem_of_range.
    unfold on_board. simpl. lia. }
  pose proof (FirstS_side_loop_spec st top Htop) as H1.
  pose proof (FirstS_side_loop_spec st right Hright) as H2.
  pose proof (FirstS_side_loop_spec st bottom Hbottom) as H3.
  pose proof (FirstS_side_loop_spec st left Hleft) as H4.
  assert (forall pos port tile' pos' port',
            playable st pos port ->
            @Ok (BoardPosition.t * Tile.t * PortID) (pos, tile, port)
            = Ok (pos', tile', port') ->
            length tiles = 3%nat /\ Some tile = Some tile' /\
            playable st pos' port' /\
            forall obs player,
              BoardState.live_players st !! player = None ->
              Board.validate_initial_move (Board.mk st obs)
                (InitialMove.mk pos' tile' port' player) = Ok tt) as Hfound.
  { intros pos port tile' pos' port' Hplay [= <- <- <-].
    split; [done|]. split; [done|]. split; [done|].
    intros obs player Hlive. by apply playable_accepted. }
  destruct (FirstS.side_loop st top) as [[[pos port]|]| |]; [| |done..];
    cbn [mbind Res_bind].
  { destruct H1 as [Hplay _]. split; [done|]. split; [done|].
    split; [|done]. intros pos' tile' port'. by apply Hfound. }
  destruct (FirstS.side_loop st right) as [[[pos port]|]| |]; [| |done..];
    cbn [mbind Res_bind].
  { destruct H2 as [Hplay _]. split; [done|]. split; [done|].
    split; [|done]. intros pos' tile' port'. by apply Hfound. }
  destruct (FirstS.side_loop st bottom) as [[[pos port]|]| |]; [| |done..];
    cbn [mbind Res_bind].
  { destruct H3 as [Hplay _]. split; [done|]. split; [done|].
    split; [|done]. intros pos' tile' port'. by apply Hfound. }
  destruct (FirstS.side_loop st left) as [[[pos port]|]| |]; [| |done..];
    cbn [mbind Res_bind].
  { destruct H4 as [Hplay _]. split; [done|]. split; [done|].
    split; [|done]. intros pos' tile' port'. by apply Hfound. }
  split; [done|]. split; [done|]. split; [done|].
  intros _ msg _ obs m Hv. apply refused_rejected.
  apply BoardPosition_valid_iff in Hv.
  destruct (InitialMove.pos m) as [x y]. cbn [BoardPosition.x BoardPosition.y] in *.
  destruct (decide (y = 0)) as [->|Hy0].
  { destruct (decide (x = 0)) as [->|Hx0].
    - apply (refused_in_side st (fun y => (0, y)) _ 0 H4).
      apply elem_of_reverse, elem_of_range. lia.
    - apply (refused_in_side st (fun x => (x, 0)) _ x H1). apply elem_of_range. lia. }
  destruct (decide (x = 9)) as [->|Hx9].
  { apply (refused_in_side st (fun y => (9, y)) _ y H2). apply elem_of_range. lia. }
  destruct (decide (y = 9)) as [->|Hy9].
  { apply (refused_in_side st (fun x => (x, 9)) _ x H3).
    apply elem_of_reverse, elem_of_range. lia. }
  destruct (decide (x = 0)) as [->|Hx0].
  { apply (refused_in_side st (fun y => (0, y)) _ y H4).
    apply elem_of_reverse, elem_of_range. lia. }
  apply interior_refused. unfold on_board_edge. simpl. lia.
Qed.

Lemma ThirdS_side_loop_spec st tile cells :
  Forall on_board cells ->
  match ThirdS.side_loop st tile cells with
  | Ok (Some (pos, tile', port)) =>
      tile' = tile /\ playable st pos port /\
      (BoardPosition.x pos, BoardPosition.y pos) ∈ cells
  | Ok None => Forall (refused st) cells
  | Error _ | Raise _ => False
  end.
Proof.
  induction cells as [|[x y] cells IH]; intros Hcells; cbn [ThirdS.side_loop].
  { constructor. }
  apply Forall_cons in Hcells as [[Hx Hy] Hcells]. cbn [fst snd] in Hx, Hy.
  rewrite BoardPosition_new_Ok by done. cbn [mbind Res_bind].
  assert (BoardPosition.valid (BoardPosition.mk x y)) as Hv.
  { by apply BoardPosition_valid_iff. }
  set (ports := take 8 ([Port.TopLeft] ++ reverse Port.all)).
  assert (Port.TopLeft ∈ ports) as Htop by (apply (bool_decide_unpack _); by vm_compute).
  assert (Port.BottomLeft ∈ ports) as Hbottom
    by (apply (bool_decide_unpack _); by vm_compute).
  assert (ports ⊆ Port.all) as Hsub.
  { assert (Forall (fun p => p ∈ Port.all) ports) as Hall
      by (apply (bool_decide_unpack _); by vm_compute).
    intros p Hp. rewrite Forall_forall in Hall. by apply Hall. }
  pose proof (find_valid_move_cases st _ ports Hv Htop Hbottom) as Hmove.
  unfold ThirdS._find_valid_move, ThirdS._find_valid_port. fold ports.
  destruct (match PhysicalConstraintChecker.is_valid_initial_position st _ with
            | Ok _ => _ | Error msg => _ | Raise e => _ end) as [[pos port]|msg|e];
    [| |done].
  - destruct Hmove as (-> & Hport & Hpos & Hface).
    split; [done|]. split; [|apply elem_of_cons; by left].
    split; [done|]. split; [by apply Hsub|done].
  - specialize (IH Hcells).
    destruct (ThirdS.side_loop st tile cells) as [[[[pos tile'] port]|]| |]; [| |done..].
    + destruct IH as (Ht & Hplay & Hin). split; [done|]. split; [done|].
      apply elem_of_cons. by right.
    + apply Forall_cons. split; [exact Hmove|done].
Qed.

(** X16: [ThirdS.generate_first_move] raises [IndexError] when there is no
    third tile.  Otherwise it raises no exception; a move it returns has the
    third tile, a cell other than (0, 0) that [is_valid_initial_position]
    accepts and one of the eight ports, facing the interior, and the board
    accepts it for every agent that is not live; it returns an error only
    when the board refuses every first move to a cell other than (0, 0). *)
Theorem ThirdS_generate_first_move_spec (tiles : list Tile.t) (st : BoardState.t) :
  (tiles !! 2%nat = None -> ThirdS.generate_first_move tiles st = Raise IndexError) /\
  (forall tile,
     tiles !! 2%nat = Some tile ->
     (forall e, ThirdS.generate_first_move tiles st <> Raise e) /\
     (forall pos tile' port,
        ThirdS.generate_first_move tiles st = Ok (pos, tile', port) ->
        tile' = tile /\ playable st pos port /\ pos <> BoardPosition.mk 0 0 /\
        forall obs player,
          BoardState.live_players st !! player = None ->
          Board.validate_initial_move (Board.mk st obs)
            (InitialMove.mk pos tile' port player) = Ok tt) /\
     (forall msg,
        ThirdS.generate_first_move tiles st = Error msg ->
        forall obs m,
          BoardPosition.valid (InitialMove.pos m) ->
          InitialMove.pos m <> BoardPosition.mk 0 0 ->
          is_error (Board.validate_initial_move (Board.mk st obs) m) = true)).
Proof.
  unfold ThirdS.generate_first_move. split.
  { by intros ->. }
  intros tile ->.
  unfold ThirdS._first_legal_posn_on_vertical_side,
    ThirdS._first_legal_posn_on_horizontal_side,
    MIN_BOARD_COORDINATE, MAX_BOARD_COORDINATE.
  set (left := (fun y => (0, y)) <$> range (0 + 1) 9).
  set (bottom := (fun x => (x, 9)) <$> range 0 (9 + 1)).
  set (right := (fun y => (9, y)) <$> reverse (range 0 9)).
  set (top := (fun x => (x, 0)) <$> reverse (range (0 + 1) 9)).
  assert (Forall on_board left) as Hleft.
  { apply Forall_on_board_fmap. intros z Hz%elem_of_range. unfold on_board. simpl. lia. }
  assert (Forall on_board bottom) as Hbottom.
  { apply Forall_on_board_fmap. intros z Hz%elem_of_range. unfold on_board. simpl. lia. }
  assert (Forall on_board right) as Hright.
  { apply Forall_on_board_fmap. intros z Hz%elem_of_reverse%elem_of_range.
    unfold on_board. simpl. lia. }
  assert (Forall on_board top) as Htop.
  { apply Forall_on_board_fmap. intros z Hz%elem_of_reverse%elem_of_range.
    unfold on_board. simpl. lia. }
  pose proof (ThirdS_side_loop_spec st tile left Hleft) as H1.
  pose proof (ThirdS_side_loop_spec st tile bottom Hbottom) as H2.
  pose proof (ThirdS_side_loop_spec st tile right Hright) as H3.
  pose proof (ThirdS_side_loop_spec st tile top Htop) as H4.
  assert (forall cells pos t port,
            Forall (fun cell => cell <> (0, 0)) cells ->
            t = tile /\ playable st pos port /\
            (BoardPosition.x pos, BoardPosition.y pos) ∈ cells ->
            forall pos' tile' port',
              @Ok (BoardPosition.t * Tile.t * PortID) (pos, t, port)
              = Ok (pos', tile', port') ->
              tile' = tile /\ playable st pos' port' /\ pos' <> BoardPosition.mk 0 0 /\
              forall obs player,
                BoardState.live_players st !! player = None ->
                Board.validate_initial_move (Board.mk st obs)
                  (InitialMove.mk pos' tile' port' player) = Ok tt) as Hfound.
  { intros cells pos t port Hcells (-> & Hplay & Hin) pos' tile' port' [= <- <- <-].
    split; [done|]. split; [done|]. split.
    - intros ->. rewrite Forall_forall in Hcells. by apply (Hcells _ Hin).
    - intros obs player Hlive. by apply playable_accepted. }
  assert (Forall (fun cell => cell <> (0, 0)) left) as Nleft.
  { apply Forall_fmap, Forall_forall. intros z Hz%elem_of_range [= ->]. lia. }
  assert (Forall (fun cell => cell <> (0, 0)) bottom) as Nbottom.
  { apply Forall_fmap, Forall_forall. by intros z Hz%elem_of_range. }
  assert (Forall (fun cell => cell <> (0, 0)) right) as Nright.
  { apply Forall_fmap, Forall_forall. by intros z Hz%elem_of_reverse%elem_of_range. }
  assert (Forall (fun cell => cell <> (0, 0)) top) as Ntop.
  { apply Forall_fmap, Forall_forall.
    intros z Hz%elem_of_reverse%elem_of_range [= ->]. lia. }
  destruct (ThirdS.side_loop st tile left) as [[[[pos t] port]|]| |]; [| |done..];
    cbn [mbind Res_bind].
  { split; [done|]. split; [|done]. by apply (Hfound left). }
  destruct (ThirdS.side_loop st tile bottom) as [[[[pos t] port]|]| |]; [| |done..];
    cbn [mbind Res_bind].
  { split; [done|]. split; [|done]. by apply (Hfound bottom). }
  destruct (ThirdS.side_loop st tile right) as [[[[pos t] port]|]| |]; [| |done..];
    cbn [mbind Res_bind].
  { split; [done|]. split; [|done]. by apply (Hfound right). }
  destruct (ThirdS.side_loop st tile top) as [[[[pos t] port]|]| |]; [| |done..];
    cbn [mbind Res_bind].
  { split; [done|]. split; [|done]. by apply (Hfound top). }
  split; [done|]. split; [done|].
  intros msg _ obs m Hv Hnot. apply refused_rejected.
  apply BoardPosition_valid_iff in Hv.
  destruct (InitialMove.pos m) as [x y]. cbn [BoardPosition.x BoardPosition.y] in *.
  destruct (decide (y = 9)) as [->|Hy9].
  { apply (refused_in_side st (fun x => (x, 9)) _ x H2). apply elem_of_range. lia. }
  destruct (decide (x = 9)) as [->|Hx9].
  { apply (refused_in_side st (fun y => (9, y)) _ y H3).
    apply elem_of_reverse, elem_of_range. lia. }
  destruct (decide (x = 0)) as [->|Hx0].
  { apply (refused_in_side st (fun y => (0, y)) _ y H1). apply elem_of_range.
    assert (y <> 0) by (by intros ->). lia. }
  destruct (decide (y = 0)) as [->|Hy0].
  { apply (refused_in_side st (fun x => (x, 0)) _ x H4).
    apply elem_of_reverse, elem_of_range. lia. }
  apply interior_refused. unfold on_board_edge. simpl. lia.
Qed.

(** *** Later moves of the strategies *)

(** on a settled board [is_move_illegal] gives a verdict for every valid
    tile of a live agent *)
Lemma is_move_illegal_verdict st player t :
  settled st -> is_Some (BoardState.live_players st !! player) -> Tile.valid t ->
  exists v : bool, RuleChecker.is_move_illegal st (IntermediateMove.mk t player) = Ok v.
Proof.
  intros Hs Hlive Hvt.
  destruct (is_move_illegal_live st (IntermediateMove.mk t player) Hs Hvt Hlive)
    as (st' & _ & ->).
  by eexists.
Qed.

Lemma first_legal_rotation_spec st player rotations :
  settled st -> is_Some (BoardState.live_players st !! player) ->
  Forall Tile.valid rotations ->
  match first_legal_rotation (Some player) st rotations with
  | Ok (Some t) =>
      t ∈ rotations /\
      RuleChecker.is_move_illegal st (IntermediateMove.mk t player) = Ok false
  | Ok None =>
      forall t, t ∈ rotations ->
        RuleChecker.is_move_illegal st (IntermediateMove.mk t player) = Ok true
  | Error _ | Raise _ => False
  end.
Proof.
  intros Hs Hlive. induction rotations as [|r rotations IH]; intros Hvalid;
    cbn [first_legal_rotation].
  { intros t Ht. by apply elem_of_nil in Ht. }
  apply Forall_cons in Hvalid as [Hr Hvalid].
  unfold IntermediateMove.new. rewrite decide_False by (by intros Hn; apply Hn).
  cbn [mbind Res_bind].
  destruct (is_move_illegal_verdict st player r Hs Hlive Hr) as [[] Hv]; rewrite Hv.
  - specialize (IH Hvalid).
    destruct (first_legal_rotation (Some player) st rotations) as [[t|]| |];
      [| |done..].
    + destruct IH. split; [apply elem_of_cons; by right|done].
    + intros t [->|Ht]%elem_of_cons; [done|by apply IH].
  - split; [apply elem_of_cons; by left|done].
Qed.

Lemma first_legal_tile_spec st player tiles :
  settled st -> is_Some (BoardState.live_players st !! player) ->
  Forall Tile.valid tiles ->
  match first_legal_tile (Some player) st tiles with
  | Ok (Some t) =>
      alternative tiles t /\
      RuleChecker.is_move_illegal st (IntermediateMove.mk t player) = Ok false
  | Ok None =>
      forall alt, alternative tiles alt ->
        RuleChecker.is_move_illegal st (IntermediateMove.mk alt player) = Ok true
  | Error _ | Raise _ => False
  end.
Proof.
  intros Hs Hlive. induction tiles as [|c tiles IH]; intros Hvalid;
    cbn [first_legal_tile].
  { intros alt (c & ? & Hc & _). by apply elem_of_nil in Hc. }
  apply Forall_cons in Hvalid as [Hc Hvalid].
  destruct (all_rotations_valid c Hc) as (rotations & Hrot & Hrots). rewrite Hrot.
  cbn [mbind Res_bind].
  pose proof (first_legal_rotation_spec st player rotations Hs Hlive Hrots) as Hfirst.
  destruct (first_legal_rotation (Some player) st rotations) as [[t|]| |];
    [| |done..]; cbn [mbind Res_bind].
  - destruct Hfirst as [Hin Hlegal]. split; [|done].
    exists c, rotations. split; [apply elem_of_cons; by left|done].
  - specialize (IH Hvalid).
    destruct (first_legal_tile (Some player) st tiles) as [[t|]| |]; [| |done..].
    + destruct IH as [(c' & rots & Hc' & Hrots' & Hin) Hlegal]. split; [|done].
      exists c', rots. split; [apply elem_of_cons; by right|done].
    + intros alt (c' & rots & [->|Hc']%elem_of_cons & Hrots' & Hin).
      * rewrite Hrot in Hrots'. injection Hrots' as <-. by apply Hfirst.
      * apply IH. by exists c', rots.
Qed.

(** a rotation of an offered tile is in the offered list, for [in] *)
Lemma tile_in_alternative tiles t :
  Forall Tile.valid tiles -> alternative tiles t ->
  RuleChecker.tile_in t tiles = Ok true.
Proof.
  intros Hvalid Halt. pose proof (alternative_valid _ _ Hvalid Halt) as Hvt.
  destruct Halt as (c & rotations & Hc & Hrot & Hin).
  induction tiles as [|c' tiles IH]; [by apply elem_of_nil in Hc|].
  apply Forall_cons in Hvalid as [Hc' Hvalid]. cbn [RuleChecker.tile_in].
  destruct (tile_eq_total c' t Hc' Hvt) as [[] Heq]; rewrite Heq; cbn [mbind Res_bind].
  { done. }
  apply elem_of_cons in Hc as [->|Hc]; [|by apply IH].
  rewrite (tile_eq_sym t c' Hvt Hc') in Heq.
  rewrite (tile_eq_rotations t c' rotations Hvt Hc' Hrot) in Heq.
  by rewrite bool_decide_eq_true_2 in Heq.
Qed.

(** the rule checker accepts a move that [is_move_illegal] calls legal,
    when the tile is a rotation of one of the two offered tiles *)
Lemma legal_move_validated st player tiles t :
  Forall Tile.valid tiles -> length tiles = 2%nat -> alternative tiles t ->
  is_Some (BoardState.live_players st !! player) ->
  RuleChecker.is_move_illegal st (IntermediateMove.mk t player) = Ok false ->
  RuleChecker.validate_move st tiles (IntermediateMove.mk t player) = Ok tt.
Proof.
  intros Hvalid Hlen Halt Hlive Hlegal.
  unfold RuleChecker.validate_move, RuleChecker.check_valid_move_params,
    EXPECTED_TILE_COUNT_INTERMEDIATE_MOVE.
  rewrite decide_False by (by intros Hne; apply Hne).
  cbn [IntermediateMove.tile]. rewrite (tile_in_alternative tiles t Hvalid Halt).
  cbn [mbind Res_bind negb].
  unfold Board.validate_intermediate_move, Board.new.
  cbn [default Board._board_state IntermediateMove.player].
  rewrite decide_False by (by apply not_eq_None_Some).
  unfold RuleChecker.is_move_illegal in Hlegal.
  destruct (RuleChecker.is_move_suicidal st (IntermediateMove.mk t player))
    as [[]| |] eqn:Hsui; [done| |done..].
  unfold RuleChecker.is_legal_for_condition. by rewrite Hlegal, Hsui.
Qed.

(** X17: [SecondS.generate_move] for a live agent on a settled board, with
    valid tiles.  With a number of tiles other than two it returns an error.
    With two tiles it returns a tile: either a rotation of an offered tile
    that [is_move_illegal] calls legal, and then [validate_move] accepts
    the move; or the first tile as given, and then [is_move_illegal] calls
    every rotation of every offered tile illegal. *)
Theorem SecondS_generate_move_spec (player : ColorString) (tiles : list Tile.t)
    (st : BoardState.t) :
  settled st -> Forall Tile.valid tiles ->
  is_Some (BoardState.live_players st !! player) ->
  (length tiles <> 2%nat ->
   exists msg, SecondS.generate_move (Some player) tiles st = Error msg) /\
  (length tiles = 2%nat ->
   exists t,
     SecondS.generate_move (Some player) tiles st = Ok t /\
     ((alternative tiles t /\
       RuleChecker.is_move_illegal st (IntermediateMove.mk t player) = Ok false /\
       RuleChecker.validate_move st tiles (IntermediateMove.mk t player) = Ok tt) \/
      (tiles !! 0%nat = Some t /\
       forall alt, alternative tiles alt ->
         RuleChecker.is_move_illegal st (IntermediateMove.mk alt player) = Ok true))).
Proof.
  intros Hs Hvalid Hlive. unfold SecondS.generate_move,
    EXPECTED_TILE_COUNT_INTERMEDIATE_MOVE.
  split.
  { intros Hlen. rewrite decide_True by done. by eexists. }
  intros Hlen. rewrite decide_False by (by intros Hne; apply Hne).
  pose proof (first_legal_tile_spec st player tiles Hs Hlive Hvalid) as Hfirst.
  destruct (first_legal_tile (Some player) st tiles) as [[t|]| |]; [| |done..];
    cbn [mbind Res_bind].
  - destruct Hfirst as [Halt Hlegal]. exists t. split; [done|]. left.
    split; [done|]. split; [done|]. by apply legal_move_validated.
  - destruct tiles as [|t tiles]; [done|]. exists t. split; [done|]. by right.
Qed.

(** X18: [ThirdS.generate_move] for a live agent on a settled board, with
    valid tiles, returns no error.  It returns a rotation of an offered
    tile that [is_move_illegal] calls legal, which [validate_move] accepts
    when two tiles were offered; or, when [is_move_illegal] calls every
    rotation of every offered tile illegal, the second tile as given, and
    it raises [IndexError] when there is no second tile. *)
Theorem ThirdS_generate_move_spec (player : ColorString) (tiles : list Tile.t)
    (st : BoardState.t) :
  settled st -> Forall Tile.valid tiles ->
  is_Some (BoardState.live_players st !! player) ->
  match ThirdS.generate_move (Some player) tiles st with
  | Ok t =>
      (alternative tiles t /\
       RuleChecker.is_move_illegal st (IntermediateMove.mk t player) = Ok false /\
       (length tiles = 2%nat ->
        RuleChecker.validate_move st tiles (IntermediateMove.mk t player) = Ok tt)) \/
      (tiles !! 1%nat = Some t /\
       forall alt, alternative tiles alt ->
         RuleChecker.is_move_illegal st (IntermediateMove.mk alt player) = Ok true)
  | Raise e =>
      e = IndexError /\ (length tiles < 2)%nat /\
      forall alt, alternative tiles alt ->
        RuleChecker.is_move_illegal st (IntermediateMove.mk alt player) = Ok true
  | Error _ => False
  end.
Proof.
  intros Hs Hvalid Hlive. unfold ThirdS.generate_move.
  assert (forall alt, alternative (reverse tiles) alt <-> alternative tiles alt) as Hrev.
  { intros alt. unfold alternative. by setoid_rewrite elem_of_reverse. }
  pose proof (first_legal_tile_spec st player (reverse tiles) Hs Hlive
                ltac:(by apply Forall_reverse)) as Hfirst.
  destruct (first_legal_tile (Some player) st (reverse tiles)) as [[t|]| |];
    [| |done..]; cbn [mbind Res_bind].
  - destruct Hfirst as [Halt%Hrev Hlegal]. left.
    split; [done|]. split; [done|]. intros Hlen. by apply legal_move_validated.
  - destruct (tiles !! 1%nat) as [t|] eqn:Ht.
    + right. split; [done|]. intros alt Halt. by apply Hfirst, Hrev.
    + split; [done|]. split; [by apply lookup_ge_None in Ht; lia|].
      intros alt Halt. by apply Hfirst, Hrev.
Qed.

Lemma FirstS_generate_first_move_spec_witness :
  FirstS.generate_first_move sample_tiles BoardState.new
  = Ok (BoardPosition.mk 1 0, bend_tile, Port.RightTop) /\
  BoardState.live_players BoardState.new !! white = None /\
  Board.validate_initial_move (Board.mk BoardState.new [])
    (InitialMove.mk (BoardPosition.mk 1 0) bend_tile Port.RightTop white) = Ok tt.
Proof.
  assert (FirstS.generate_first_move sample_tiles BoardState.new
          = Ok (BoardPosition.mk 1 0, bend_tile, Port.RightTop)) as Hrun
    by (vm_compute; reflexivity).
  split; [exact Hrun|]. split; [reflexivity|].
  destruct (FirstS_generate_first_move_spec sample_tiles BoardState.new)
    as (_ & _ & Hok & _).
  destruct (Hok _ _ _ Hrun) as (_ & _ & _ & Hacc).
  apply Hacc. reflexivity.
Defined.

Lemma ThirdS_generate_first_move_spec_witness :
  sample_tiles !! 2%nat = Some bend_tile /\
  ThirdS.generate_first_move sample_tiles corner_state
  = Ok (BoardPosition.mk 0 2, bend_tile, Port.TopLeft) /\
  BoardState.live_players corner_state !! black = None /\
  Board.validate_initial_move (Board.mk corner_state [])
    (InitialMove.mk (BoardPosition.mk 0 2) bend_tile Port.TopLeft black) = Ok tt.
Proof.
  assert (ThirdS.generate_first_move sample_tiles corner_state
          = Ok (BoardPosition.mk 0 2, bend_tile, Port.TopLeft)) as Hrun
    by (vm_compute; reflexivity).
  split; [reflexivity|]. split; [exact Hrun|]. split; [reflexivity|].
  destruct (ThirdS_generate_first_move_spec sample_tiles corner_state) as [_ Hsome].
  destruct (Hsome bend_tile eq_refl) as (_ & Hok & _).
  destruct (Hok _ _ _ Hrun) as (_ & _ & _ & Hacc).
  apply Hacc. reflexivity.
Defined.

Lemma SecondS_generate_move_spec_witness :
  settled corner_state /\ Forall Tile.valid [side_tile; crooked_tile] /\
  is_Some (BoardState.live_players corner_state !! white) /\
  length [side_tile; crooked_tile] = 2%nat /\
  SecondS.generate_move (Some white) [side_tile; crooked_tile] corner_state
  = Ok turned_tile /\
  RuleChecker.validate_move corner_state [side_tile; crooked_tile]
    (IntermediateMove.mk turned_tile white) = Ok tt.
Proof.
  assert (Forall Tile.valid [side_tile; crooked_tile]) as Hvalid
    by (repeat constructor).
  assert (is_Some (BoardState.live_players corner_state !! white)) as Hlive
    by (by eexists).
  split; [apply settled_corner_state|]. split; [exact Hvalid|].
  split; [exact Hlive|]. split; [reflexivity|].
  destruct (SecondS_generate_move_spec white [side_tile; crooked_tile] corner_state
              settled_corner_state Hvalid Hlive) as [_ Htwo].
  destruct (Htwo eq_refl) as (t & Hrun & Hcases).
  assert (t = turned_tile) as ->.
  { vm_compute in Hrun. by injection Hrun as <-. }
  split; [exact Hrun|].
  destruct Hcases as [(_ & _ & Hacc)|[Hfirst _]]; [exact Hacc|].
  vm_compute in Hfirst. discriminate Hfirst.
Defined.

Lemma ThirdS_generate_move_spec_witness :
  settled corner_state /\ Forall Tile.valid [side_tile] /\
  is_Some (BoardState.live_players corner_state !! white) /\
  ThirdS.generate_move (Some white) [side_tile] corner_state = Raise IndexError /\
  RuleChecker.is_move_illegal corner_state (IntermediateMove.mk side_tile white)
  = Ok true.
Proof.
  assert (Forall Tile.valid [side_tile]) as Hvalid by (repeat constructor).
  assert (is_Some (BoardState.live_players corner_state !! white)) as Hlive
    by (by eexists).
  split; [apply settled_corner_state|]. split; [exact Hvalid|].
  split; [exact Hlive|].
  assert (ThirdS.generate_move (Some white) [side_tile] corner_state
          = Raise IndexError) as Hrun by (vm_compute; reflexivity).
  split; [exact Hrun|].
  pose proof (ThirdS_generate_move_spec white [side_tile] corner_state
                settled_corner_state Hvalid Hlive) as Hspec.
  rewrite Hrun in Hspec. destruct Hspec as (_ & _ & Hall).
  apply Hall. exists side_tile, [side_tile; side_tile; side_tile; side_tile].
  split; [apply elem_of_cons; by left|]. split; [reflexivity|].
  apply elem_of_cons; by left.
Defined.

(** ** Rotation of a tile *)

Definition rotate_lawsb (t : Tile.t) : bool :=
  match Tile.rotate t with
  | Ok t1 =>
      forallb (fun p =>
                 match Tile.get_port_connected_to t p,
                       Tile.get_port_connected_to t1 ((p + 2) mod 8) with
                 | Ok q, Ok q1 => bool_decide (q1 = (q + 2) mod 8)
                 | _, _ => false
                 end) port_range
  | _ => false
  end.

Lemma rotate_laws t : Tile.valid t -> rotate_lawsb t = true.
Proof. apply tile_forall. vm_compute. reflexivity. Qed.

(** X21: [rotate] on a valid tile returns a valid tile, four rotations in
    a row give the tile back, and the rotated tile connects the ports that
    lie a quarter turn (two ports) further: when the tile connects [port]
    to [other], the rotated tile connects [(port + 2) % 8] to
    [(other + 2) % 8]. *)
Theorem rotate_quarter_turn (t : Tile.t) :
  Tile.valid t ->
  exists t1 t2 t3,
    Tile.rotate t = Ok t1 /\ Tile.rotate t1 = Ok t2 /\ Tile.rotate t2 = Ok t3 /\
    Tile.rotate t3 = Ok t /\
    Tile.valid t1 /\
    forall port, port ∈ Port.all ->
      exists other,
        Tile.get_port_connected_to t port = Ok other /\
        Tile.get_port_connected_to t1 ((port + 2) mod 8) = Ok ((other + 2) mod 8).
Proof.
  intros Hv.
  destruct (valid_rotations t Hv) as (t1 & t2 & t3 & H1 & H2 & H3 & H4 & _).
  exists t1, t2, t3. repeat (split; [done|]).
  destruct (rotate_valid t Hv) as (t1' & H1' & Hv1).
  rewrite H1 in H1'. injection H1' as <-. split; [done|].
  intros port Hport. pose proof (rotate_laws t Hv) as Hlaws.
  unfold rotate_lawsb in Hlaws. rewrite H1 in Hlaws.
  rewrite forallb_forall in Hlaws.
  specialize (Hlaws port). 
  destruct (Tile.get_port_connected_to t port) as [q| |].
  - destruct (Tile.get_port_connected_to t1 ((port + 2) mod 8)) as [q1| |].
    + exists q. split; [done|]. f_equal. apply (bool_decide_eq_true_1 _).
      apply Hlaws. apply list_elem_of_In. exact Hport.
    + exfalso. assert (false = true); [|done]. apply Hlaws.
      apply list_elem_of_In. exact Hport.
    + exfalso. assert (false = true); [|done]. apply Hlaws.
      apply list_elem_of_In. exact Hport.
  - exfalso. assert (false = true); [|done]. apply Hlaws.
    apply list_elem_of_In. exact Hport.
  - exfalso. assert (false = true); [|done]. apply Hlaws.
    apply list_elem_of_In. exact Hport.
Qed.

Lemma rotate_quarter_turn_witness :
  Tile.valid crooked_tile /\ Tile.rotate crooked_tile = Ok turned_tile /\
  Tile.get_port_connected_to crooked_tile Port.TopLeft = Ok Port.LeftTop /\
  Tile.get_port_connected_to turned_tile Port.RightTop = Ok Port.TopRight.
Proof.
  split; [reflexivity|].
  destruct (rotate_quarter_turn crooked_tile) as (t1 & t2 & t3 & H1 & _ & _ & _ & _ & Hc);
    [reflexivity|].
  assert (t1 = turned_tile) as ->.
  { vm_compute in H1. by injection H1 as <-. }
  split; [exact H1|].
  destruct (Hc Port.TopLeft) as (other & Ho & Ho1).
  { apply (bool_decide_unpack _). by vm_compute. }
  assert (other = Port.LeftTop) as ->.
  { vm_compute in Ho. by injection Ho as <-. }
  split; [exact Ho|exact Ho1].
Defined.

(** ** Chunks of a list and brackets of a tournament *)

Lemma chunks_loop_concat {A} fuel : forall (lst : list A) num idx,
  (0 < num)%nat -> (length lst - idx <= fuel)%nat ->
  concat (chunks_loop fuel lst num idx) = drop idx lst.
Proof.
  induction fuel as [|fuel IH]; intros lst num idx Hnum Hfuel; cbn [chunks_loop].
  { rewrite drop_ge by lia. done. }
  case_decide as Hidx.
  - cbn [concat]. rewrite IH by lia.
    rewrite <- drop_drop. apply take_drop.
  - rewrite drop_ge by lia. done.
Qed.

Lemma chunks_loop_lookup {A} fuel : forall (lst : list A) num idx i,
  (0 < num)%nat -> (length lst - idx <= fuel)%nat ->
  chunks_loop fuel lst num idx !! i
  = if decide (idx + i * num < length lst)%nat
    then Some (take num (drop (idx + i * num) lst)) else None.
Proof.
  induction fuel as [|fuel IH]; intros lst num idx i Hnum Hfuel; cbn [chunks_loop].
  { rewrite decide_False by lia. done. }
  case_decide as Hidx.
  - destruct i as [|i]; cbn [lookup list_lookup].
    + rewrite Nat.mul_0_l, Nat.add_0_r. by rewrite decide_True.
    + change (list_lookup i ?l) with (l !! i). rewrite IH by lia.
      replace (idx + num + i * num)%nat with (idx + S i * num)%nat by lia. done.
  - rewrite decide_False by lia. done.
Qed.

(** X19: [chunks] raises [ValueError] for a chunk size of zero and yields
    nothing for a negative one.  For a positive chunk size the chunks,
    joined, are the list; the chunk at index [i] is the slice of the list
    from [i * num] to [i * num + num], for as long as [i * num] is inside
    the list; no chunk is empty and none is longer than [num]. *)
Theorem chunks_spec {A} (lst : list A) (num : Z) :
  (num = 0 -> chunks lst num = Raise ValueError) /\
  (num < 0 -> chunks lst num = Ok []) /\
  (0 < num ->
   exists cs,
     chunks lst num = Ok cs /\
     concat cs = lst /\
     (forall i,
        cs !! i
        = if decide (i * Z.to_nat num < length lst)%nat
          then Some (take (Z.to_nat num) (drop (i * Z.to_nat num) lst)) else None) /\
     Forall (fun c => (0 < length c <= Z.to_nat num)%nat) cs).
Proof.
  unfold chunks. split; [|split].
  - intros ->. done.
  - intros Hneg. rewrite decide_False by lia. by rewrite decide_True.
  - intros Hpos. rewrite decide_False by lia. rewrite decide_False by lia.
    eexists. split; [done|].
    assert (forall i,
              chunks_loop (length lst) lst (Z.to_nat num) 0 !! i
              = if decide (i * Z.to_nat num < length lst)%nat
                then Some (take (Z.to_nat num) (drop (i * Z.to_nat num) lst))
                else None) as Hlookup.
    { intros i. rewrite chunks_loop_lookup by lia. done. }
    split; [|split; [exact Hlookup|]].
    + rewrite chunks_loop_concat by lia. done.
    + apply Forall_lookup. intros i c Hc. rewrite Hlookup in Hc.
      case_decide as Hi; [|done]. injection Hc as <-.
      rewrite length_take, length_drop. lia.
Qed.

Lemma chunks_spec_witness :
  0 < 2 /\ chunks [1; 2; 3; 4; 5] 2 = Ok [[1; 2]; [3; 4]; [5]].
Proof.
  split; [lia|].
  destruct (chunks_spec [1; 2; 3; 4; 5] 2) as (_ & _ & Hpos).
  destruct Hpos as (cs & Hrun & _); [lia|].
  rewrite Hrun. vm_compute in Hrun. injection Hrun as <-. reflexivity.
Defined.

Definition ids_upto (players : list (PlayerID * PlayerAge)) (idx : nat)
  : gset PlayerID :=
  list_to_set ((take idx players).*1).

(** the buckets are games of three to five players, no player is in two
    of them, and together they hold the players before [idx] *)
Definition bucketed (players : list (PlayerID * PlayerAge)) (idx : nat)
    (buckets : list (gset PlayerID)) : Prop :=
  NoDup buckets /\
  (forall b, b ∈ buckets -> (3 <= size b <= 5)%nat) /\
  (forall b1 b2, b1 ∈ buckets -> b2 ∈ buckets -> b1 <> b2 -> b1 ## b2) /\
  (forall pid, pid ∈ ids_upto players idx <-> exists b, b ∈ buckets /\ pid ∈ b).

Lemma take_players_slice players idx k :
  SimpleBracketStrategy._take_players (take k (drop idx players)) k
  = list_to_set (take k (drop idx players.*1)).
Proof.
  unfold SimpleBracketStrategy._take_players.
  rewrite take_take, Nat.min_id. by rewrite fmap_take, fmap_drop.
Qed.

Lemma take_add_drop {A} (l : list A) idx k :
  take (idx + k) l = take idx l ++ take k (drop idx l).
Proof.
  revert l. induction idx as [|idx IH]; intros [|x l]; cbn; try done.
  - by rewrite take_nil.
  - by rewrite IH.
Qed.

Lemma ids_upto_add players idx k :
  ids_upto players (idx + k)
  = ids_upto players idx ∪ list_to_set (take k (drop idx players.*1)).
Proof.
  unfold ids_upto. rewrite !fmap_take.
  rewrite <- list_to_set_app_L. f_equal. apply take_add_drop.
Qed.

Lemma NoDup_slices {A} (l : list A) idx k :
  NoDup l -> NoDup (take k (drop idx l)) /\
  forall x, x ∈ take idx l -> x ∈ take k (drop idx l) -> False.
Proof.
  intros Hnd. rewrite <- (take_drop (idx + k) l), take_add_drop in Hnd.
  apply NoDup_app in Hnd as [Hnd _]. apply NoDup_app in Hnd as (_ & Hdis & Hnd).
  split; [done|]. intros x H1 H2. by apply (Hdis x).
Qed.

(** one pass of the loop that takes [k] players *)
Lemma bucketed_step players idx k buckets :
  NoDup players.*1 -> (3 <= k <= 5)%nat -> (idx + k <= length players)%nat ->
  bucketed players idx buckets ->
  bucketed players (idx + k)
    (set_add (SimpleBracketStrategy._take_players (take k (drop idx players)) k)
       buckets).
Proof.
  intros Hnd Hk Hlen (Hndb & Hsize & Hdisj & Hids).
  rewrite take_players_slice.
  destruct (NoDup_slices (players.*1) idx k Hnd) as [Hnd' Hfresh].
  set (b := list_to_set (take k (drop idx players.*1)) : gset PlayerID).
  assert (size b = k) as Hb.
  { unfold b. rewrite size_list_to_set by done.
    rewrite length_take, length_drop, length_fmap. lia. }
  assert (forall b', b' ∈ buckets -> b' ## b) as Hnew.
  { intros b' Hb' pid Hin1 Hin2.
    apply (Hfresh pid).
    - assert (pid ∈ ids_upto players idx) as Hin by (apply Hids; by exists b').
      unfold ids_upto in Hin. rewrite elem_of_list_to_set, fmap_take in Hin. done.
    - unfold b in Hin2. by rewrite elem_of_list_to_set in Hin2. }
  assert (b ∉ buckets) as Hout.
  { intros Hin. destruct (size_pos_elem_of b) as [pid Hpid]; [lia|].
    by apply (Hnew b Hin pid). }
  unfold set_add. rewrite decide_False by done.
  split; [|split; [|split]].
  - apply NoDup_app. split; [done|]. split; [|apply NoDup_singleton].
    intros b' Hb' ->%list_elem_of_singleton. done.
  - intros b' [Hb'|Heq%list_elem_of_singleton]%elem_of_app; [by apply Hsize|].
    rewrite Heq. lia.
  - intros b1 b2 [H1|H1%list_elem_of_singleton]%elem_of_app
      [H2|H2%list_elem_of_singleton]%elem_of_app Hne.
    + by apply Hdisj.
    + rewrite H2. by apply Hnew.
    + rewrite H1. symmetry. by apply Hnew.
    + congruence.
  - intros pid. rewrite ids_upto_add. fold b. rewrite elem_of_union, Hids.
    split.
    + intros [(b' & Hb' & Hin)|Hin].
      * exists b'. split; [apply elem_of_app; by left|done].
      * exists b. split; [|done].
        apply elem_of_app; right; by apply list_elem_of_singleton.
    + intros (b' & [Hb'|Heq%list_elem_of_singleton]%elem_of_app & Hin).
      * left. by exists b'.
      * rewrite Heq in Hin. by right.
Qed.

Lemma bucket_players_loop_spec fuel : forall players idx buckets,
  NoDup players.*1 ->
  (idx = length players \/ 3 <= length players - idx)%nat ->
  (length players - idx < fuel)%nat ->
  bucketed players idx buckets ->
  exists buckets',
    SimpleBracketStrategy.bucket_players_loop fuel players idx buckets = Ok buckets' /\
    bucketed players (length players) buckets'.
Proof.
  induction fuel as [|fuel IH]; intros players idx buckets Hnd Hrem Hfuel Hinv;
    [lia|].
  cbn [SimpleBracketStrategy.bucket_players_loop].
  destruct (decide (idx < length players)%nat) as [Hidx|Hidx].
  2: { exists buckets. split; [done|]. by replace (length players) with idx by lia. }
  destruct Hrem as [->|Hrem]; [lia|].
  destruct (decide (5 < length players - idx)%nat) as [Hbig|Hsmall].
  - apply IH; [done|lia|lia|].
    apply bucketed_step; [done|lia|lia|done].
  - rewrite decide_True by lia.
    set (k := (length players - idx)%nat).
    assert (take (length players) (drop idx players) = take k (drop idx players)) as Hslice.
    { rewrite !take_ge; [done|rewrite length_drop; lia..]. }
    assert (SimpleBracketStrategy._take_players
              (take (length players) (drop idx players)) (length players)
            = SimpleBracketStrategy._take_players (take k (drop idx players)) k) as ->.
    { unfold SimpleBracketStrategy._take_players. rewrite Hslice.
      rewrite !take_ge; [done|rewrite ?length_take, ?length_drop; lia..]. }
    pose proof (bucketed_step players idx k buckets Hnd ltac:(lia) ltac:(lia) Hinv)
      as Hstep.
    replace (idx + k)%nat with (length players) in Hstep by lia.
    destruct fuel as [|fuel]; [lia|].
    cbn [SimpleBracketStrategy.bucket_players_loop].
    rewrite decide_False by lia. by eexists.
Qed.

Lemma bucketed_empty players : bucketed players 0 [].
Proof.
  split; [apply NoDup_nil_2|]. split; [|split].
  - intros b Hb. by apply elem_of_nil in Hb.
  - intros b1 b2 Hb. by apply elem_of_nil in Hb.
  - intros pid. unfold ids_upto. rewrite take_0. split.
    + intros Hin. by apply elem_of_empty in Hin.
    + intros (b & Hb & _). by apply elem_of_nil in Hb.
Qed.

(** X20: [SimpleBracketStrategy.bucket_players] returns an error for fewer
    than three players.  For three or more players with distinct
    identifiers it returns games without repetition, each of three to five
    players, no player is in two games, and the players of the games are
    the given players. *)
Theorem bucket_players_spec (live_players : list (PlayerID * PlayerAge)) :
  ((length live_players < 3)%nat ->
   exists msg, SimpleBracketStrategy.bucket_players live_players = Error msg) /\
  ((3 <= length live_players)%nat -> NoDup live_players.*1 ->
   exists buckets,
     SimpleBracketStrategy.bucket_players live_players = Ok buckets /\
     NoDup buckets /\
     (forall b, b ∈ buckets -> (3 <= size b <= 5)%nat) /\
     (forall b1 b2, b1 ∈ buckets -> b2 ∈ buckets -> b1 <> b2 -> b1 ## b2) /\
     (forall pid, pid ∈ live_players.*1 <-> exists b, b ∈ buckets /\ pid ∈ b)).
Proof.
  unfold SimpleBracketStrategy.bucket_players. split.
  { intros Hlen. rewrite decide_True by done. by eexists. }
  intros Hlen Hnd. rewrite decide_False by lia. cbv zeta.
  set (sorted_players :=
         sorted (fun a b : PlayerID * PlayerAge => a.2 <=? b.2) live_players).
  assert (sorted_players ≡ₚ live_players) as Hperm by apply sorted_Permutation.
  assert (NoDup sorted_players.*1) as Hnd' by (by rewrite Hperm).
  assert (length sorted_players = length live_players) as Hlen'
    by (by rewrite Hperm).
  destruct (bucket_players_loop_spec (S (length sorted_players)) sorted_players 0 [])
    as (buckets & Hrun & Hndb & Hsize & Hdisj & Hids);
    [done|unfold PlayerID, PlayerAge in *; lia..|apply bucketed_empty|].
  unfold SimpleBracketStrategy._bucket_players. rewrite Hrun. cbn [mbind Res_bind].
  exists buckets. split; [done|]. split; [done|]. split; [done|]. split; [done|].
  intros pid. rewrite <- Hids. unfold ids_upto.
  rewrite take_ge by done. rewrite elem_of_list_to_set. by rewrite Hperm.
Qed.

(** seven players, not in the order of their ages *)
Definition seven_players : list (PlayerID * PlayerAge) :=
  [("g", 7); ("a", 1); ("c", 3); ("b", 2); ("f", 6); ("d", 4); ("e", 5)].

Lemma bucket_players_spec_witness :
  (3 <= length seven_players)%nat /\ NoDup seven_players.*1 /\
  SimpleBracketStrategy.bucket_players seven_players
  = Ok [ {[ "a"; "b"; "c"; "d" ]}; {[ "e"; "f"; "g" ]} ] /\
  forall b, b ∈ [ ({[ "a"; "b"; "c"; "d" ]} : gset PlayerID); {[ "e"; "f"; "g" ]} ] ->
    (3 <= size b <= 5)%nat.
Proof.
  assert (NoDup seven_players.*1) as Hnd.
  { apply (bool_decide_unpack _). by vm_compute. }
  split; [cbn; lia|]. split; [exact Hnd|].
  assert (SimpleBracketStrategy.bucket_players seven_players
          = Ok [ {[ "a"; "b"; "c"; "d" ]}; {[ "e"; "f"; "g" ]} ]) as Hrun.
  { vm_compute. reflexivity. }
  split; [exact Hrun|].
  destruct (bucket_players_spec seven_players) as [_ Hok].
  destruct Hok as (buckets & Hrun' & _ & Hsize & _); [cbn; lia|exact Hnd|].
  rewrite Hrun in Hrun'. injection Hrun' as <-. exact Hsize.
Defined.

(** *** First moves and the rule checker *)

Lemma side_loop_playable st cells pos port :
  Forall on_board cells ->
  FirstS.side_loop st cells = Ok (Some (pos, port)) -> playable st pos port.
Proof.
  intros Hcells Hrun. pose proof (FirstS_side_loop_spec st cells Hcells) as Hspec.
  rewrite Hrun in Hspec. by destruct Hspec.
Qed.

Lemma FirstS_first_move_playable tiles st pos tile port :
  FirstS.generate_first_move tiles st = Ok (pos, tile, port) ->
  length tiles = 3%nat /\ tiles !! 2%nat = Some tile /\ playable st pos port.
Proof.
  unfold FirstS.generate_first_move, EXPECTED_TILE_COUNT_INITIAL_MOVE.
  case_decide as Hlen; [done|].
  destruct (tiles !! 2%nat) as [tile'|]; [|done].
  unfold MIN_BOARD_COORDINATE, MAX_BOARD_COORDINATE.
  set (top := (fun x => (x, 0)) <$> range (0 + 1) (9 + 1)).
  set (right := (fun y => (9, y)) <$> range 0 (9 + 1)).
  set (bottom := (fun x => (x, 9)) <$> reverse (range 0 (9 + 1))).
  set (left := (fun y => (0, y)) <$> reverse (range 0 (9 + 1))).
  assert (Forall on_board top) as Htop.
  { apply Forall_on_board_fmap. intros z Hz%elem_of_range. unfold on_board. simpl. lia. }
  assert (Forall on_board right) as Hright.
  { apply Forall_on_board_fmap. intros z Hz%elem_of_range. unfold on_board. simpl. lia. }
  assert (Forall on_board bottom) as Hbottom.
  { apply Forall_on_board_fmap. intros z Hz%elem_of_reverse%elem_of_range.
    unfold on_board. simpl. lia. }
  assert (Forall on_board left) as Hleft.
  { apply Forall_on_board_fmap. intros z Hz%elem_of_reverse%elem_of_range.
    unfold on_board. simpl. lia. }
  destruct (FirstS.side_loop st top) as [[[p q]|]| |] eqn:H1; [| |done..];
    cbn [mbind Res_bind].
  { intros [= <- <- <-]. split; [done|]. split; [done|].
    by apply (side_loop_playable st top). }
  destruct (FirstS.side_loop st right) as [[[p q]|]| |] eqn:H2; [| |done..];
    cbn [mbind Res_bind].
  { intros [= <- <- <-]. split; [done|]. split; [done|].
    by apply (side_loop_playable st right). }
  destruct (FirstS.side_loop st bottom) as [[[p q]|]| |] eqn:H3; [| |done..];
    cbn [mbind Res_bind].
  { intros [= <- <- <-]. split; [done|]. split; [done|].
    by apply (side_loop_playable st bottom). }
  destruct (FirstS.side_loop st left) as [[[p q]|]| |] eqn:H4; [| |done..];
    cbn [mbind Res_bind].
  { intros [= <- <- <-]. split; [done|]. split; [done|].
    by apply (side_loop_playable st left). }
  done.
Qed.

Lemma ThirdS_side_loop_playable st tile cells pos tile' port :
  Forall on_board cells ->
  ThirdS.side_loop st tile cells = Ok (Some (pos, tile', port)) ->
  tile' = tile /\ playable st pos port.
Proof.
  intros Hcells Hrun. pose proof (ThirdS_side_loop_spec st tile cells Hcells) as Hspec.
  rewrite Hrun in Hspec. destruct Hspec as (? & ? & _). done.
Qed.

Lemma ThirdS_first_move_playable tiles st pos tile port :
  ThirdS.generate_first_move tiles st = Ok (pos, tile, port) ->
  tiles !! 2%nat = Some tile /\ playable st pos port.
Proof.
  unfold ThirdS.generate_first_move.
  destruct (tiles !! 2%nat) as [tile'|]; [|done].
  unfold ThirdS._first_legal_posn_on_vertical_side,
    ThirdS._first_legal_posn_on_horizontal_side,
    MIN_BOARD_COORDINATE, MAX_BOARD_COORDINATE.
  set (left := (fun y => (0, y)) <$> range (0 + 1) 9).
  set (bottom := (fun x => (x, 9)) <$> range 0 (9 + 1)).
  set (right := (fun y => (9, y)) <$> reverse (range 0 9)).
  set (top := (fun x => (x, 0)) <$> reverse (range (0 + 1) 9)).
  assert (Forall on_board left) as Hleft.
  { apply Forall_on_board_fmap. intros z Hz%elem_of_range. unfold on_board. simpl. lia. }
  assert (Forall on_board bottom) as Hbottom.
  { apply Forall_on_board_fmap. intros z Hz%elem_of_range. unfold on_board. simpl. lia. }
  assert (Forall on_board right) as Hright.
  { apply Forall_on_board_fmap. intros z Hz%elem_of_reverse%elem_of_range.
    unfold on_board. simpl. lia. }
  assert (Forall on_board top) as Htop.
  { apply Forall_on_board_fmap. intros z Hz%elem_of_reverse%elem_of_range.
    unfold on_board. simpl. lia. }
  destruct (ThirdS.side_loop st tile' left) as [[[[p t] q]|]| |] eqn:H1; [| |done..];
    cbn [mbind Res_bind].
  { intros [= <- <- <-].
    destruct (ThirdS_side_loop_playable _ _ _ _ _ _ Hleft H1) as [-> ?]. done. }
  destruct (ThirdS.side_loop st tile' bottom) as [[[[p t] q]|]| |] eqn:H2; [| |done..];
    cbn [mbind Res_bind].
  { intros [= <- <- <-].
    destruct (ThirdS_side_loop_playable _ _ _ _ _ _ Hbottom H2) as [-> ?]. done. }
  destruct (ThirdS.side_loop st tile' right) as [[[[p t] q]|]| |] eqn:H3; [| |done..];
    cbn [mbind Res_bind].
  { intros [= <- <- <-].
    destruct (ThirdS_side_loop_playable _ _ _ _ _ _ Hright H3) as [-> ?]. done. }
  destruct (ThirdS.side_loop st tile' top) as [[[[p t] q]|]| |] eqn:H4; [| |done..];
    cbn [mbind Res_bind].
  { intros [= <- <- <-].
    destruct (ThirdS_side_loop_playable _ _ _ _ _ _ Htop H4) as [-> ?]. done. }
  done.
Qed.

(** the rule checker accepts a playable first move with one of the three
    offered tiles *)
Lemma playable_validated st tiles pos tile port player :
  Forall Tile.valid tiles -> length tiles = 3%nat -> tile ∈ tiles ->
  playable st pos port -> BoardState.live_players st !! player = None ->
  RuleChecker.validate_initial_move st tiles (InitialMove.mk pos tile port player)
  = Ok tt.
Proof.
  intros Hvalid Hlen Hin Hplay Hlive.
  unfold RuleChecker.validate_initial_move, RuleChecker.check_valid_move_params,
    EXPECTED_TILE_COUNT_INITIAL_MOVE.
  rewrite decide_False by (by intros Hne; apply Hne).
  cbn [InitialMove.tile].
  rewrite (tile_in_alternative tiles tile Hvalid).
  2: { assert (Tile.valid tile) as Hvt by (rewrite Forall_forall in Hvalid; auto).
       destruct (valid_rotations tile Hvt) as (t1 & t2 & t3 & _ & _ & _ & _ & Hall & _).
       exists tile, [tile; t1; t2; t3]. split; [done|]. split; [done|].
       apply elem_of_cons. by left. }
  cbn [mbind Res_bind negb]. by apply playable_accepted.
Qed.

(** X22: the rule checker accepts the first move of [FirstS], [SecondS]
    and [ThirdS]: when three valid tiles are offered to an agent that is
    not live and [generate_first_move] returns a cell, a tile and a port,
    the constructor of [InitialMove] accepts them and
    [RuleChecker.validate_initial_move] accepts the move. *)
Theorem first_move_passes_rule_checker (tiles : list Tile.t) (st : BoardState.t)
    (player : ColorString) (pos : BoardPosition.t) (tile : Tile.t) (port : PortID) :
  Forall Tile.valid tiles -> length tiles = 3%nat ->
  BoardState.live_players st !! player = None ->
  FirstS.generate_first_move tiles st = Ok (pos, tile, port) \/
  ThirdS.generate_first_move tiles st = Ok (pos, tile, port) ->
  InitialMove.new pos tile port player = Ok (InitialMove.mk pos tile port player) /\
  RuleChecker.validate_initial_move st tiles (InitialMove.mk pos tile port player)
  = Ok tt.
Proof.
  intros Hvalid Hlen Hlive Hrun.
  assert (tiles !! 2%nat = Some tile /\ playable st pos port) as [Htile Hplay].
  { destruct Hrun as [Hrun|Hrun].
    - by destruct (FirstS_first_move_playable _ _ _ _ _ Hrun) as (_ & ? & ?).
    - by apply ThirdS_first_move_playable. }
  assert (tile ∈ tiles) as Hin by (by eapply list_elem_of_lookup_2).
  split; [|by apply playable_validated].
  assert (Tile.valid tile) as Hvt by (rewrite Forall_forall in Hvalid; auto).
  destruct Hplay as (Hv & Hport & _).
  unfold InitialMove.new.
  rewrite decide_False by (by intros Hn; apply Hn).
  rewrite decide_False by (by intros Hn; apply Hn).
  rewrite decide_False by (by intros Hn; apply Hn). done.
Qed.

Lemma first_move_passes_rule_checker_witness :
  Forall Tile.valid sample_tiles /\ length sample_tiles = 3%nat /\
  BoardState.live_players corner_state !! black = None /\
  ThirdS.generate_first_move sample_tiles corner_state
  = Ok (BoardPosition.mk 0 2, bend_tile, Port.TopLeft) /\
  RuleChecker.validate_initial_move corner_state sample_tiles
    (InitialMove.mk (BoardPosition.mk 0 2) bend_tile Port.TopLeft black) = Ok tt.
Proof.
  assert (Forall Tile.valid sample_tiles) as Hvalid by (repeat constructor).
  assert (ThirdS.generate_first_move sample_tiles corner_state
          = Ok (BoardPosition.mk 0 2, bend_tile, Port.TopLeft)) as Hrun
    by (vm_compute; reflexivity).
  split; [exact Hvalid|]. split; [reflexivity|]. split; [reflexivity|].
  split; [exact Hrun|].
  apply (first_move_passes_rule_checker sample_tiles corner_state black
           (BoardPosition.mk 0 2) bend_tile Port.TopLeft Hvalid eq_refl eq_refl).
  by right.
Defined.

(** ** Results of a tournament *)

Lemma color_to_pid_loop_missing player_ids colors idx color :
  color ∉ colors -> color_to_pid_loop player_ids colors idx color = Raise ValueError.
Proof.
  revert idx. induction colors as [|c colors IH]; intros idx Hout; [done|].
  apply not_elem_of_cons in Hout as [Hne Hout]. cbn [color_to_pid_loop].
  rewrite decide_False by done. by apply IH.
Qed.

Lemma color_to_pid_loop_found player_ids colors idx k color pid :
  NoDup colors -> colors !! k = Some color -> player_ids !! (idx + k)%nat = Some pid ->
  color_to_pid_loop player_ids colors idx color = Ok pid.
Proof.
  revert idx k. induction colors as [|c colors IH]; intros idx k Hnd Hk Hpid; [done|].
  apply NoDup_cons in Hnd as [Hc Hnd]. cbn [color_to_pid_loop].
  destruct k as [|k].
  - injection Hk as ->. rewrite decide_True by done.
    rewrite Nat.add_0_r in Hpid. by rewrite Hpid.
  - cbn in Hk. rewrite decide_False.
    2: { intros ->. apply Hc. by eapply list_elem_of_lookup_2. }
    apply (IH (S idx) k); [done|done|].
    by replace (S idx + k)%nat with (idx + S k)%nat by lia.
Qed.

(** the players of a game: colors and identifiers in the same order,
    without repetition *)
Definition paired (player_ids : list PlayerID) (colors : list ColorString) : Prop :=
  length player_ids = length colors /\ NoDup colors /\ NoDup player_ids.

Lemma color_to_pid_known player_ids colors color :
  paired player_ids colors -> color ∈ colors ->
  exists k pid,
    colors !! k = Some color /\ player_ids !! k = Some pid /\
    color_to_pid player_ids colors color = Ok pid.
Proof.
  intros (Hlen & Hnd & _) [k Hk]%list_elem_of_lookup_1.
  destruct (lookup_lt_is_Some_2 player_ids k) as [pid Hpid].
  { rewrite Hlen. by eapply lookup_lt_Some. }
  exists k, pid. split; [done|]. split; [done|].
  by apply (color_to_pid_loop_found player_ids colors 0 k).
Qed.

Lemma color_to_pid_loop_total player_ids colors idx color :
  color ∈ colors -> (idx + length colors <= length player_ids)%nat ->
  exists pid,
    color_to_pid_loop player_ids colors idx color = Ok pid /\ pid ∈ player_ids.
Proof.
  revert idx. induction colors as [|c colors IH]; intros idx Hin Hlen.
  { by apply elem_of_nil in Hin. }
  cbn [color_to_pid_loop length] in *. case_decide as Hc.
  - destruct (lookup_lt_is_Some_2 player_ids idx) as [pid Hpid]; [lia|].
    rewrite Hpid. exists pid. split; [done|]. by eapply list_elem_of_lookup_2.
  - apply IH; [|lia]. apply elem_of_cons in Hin as [->|Hin]; done.
Qed.

Lemma pids_of_loop_missing player_ids colors item acc :
  length player_ids = length colors ->
  (exists color, color ∈ item /\ color ∉ colors) ->
  pids_of_loop player_ids colors item acc = Raise ValueError.
Proof.
  intros Hlen. revert acc. induction item as [|c item IH]; intros acc (color & Hin & Hout).
  { by apply elem_of_nil in Hin. }
  cbn [pids_of_loop]. unfold color_to_pid.
  destruct (decide (c ∈ colors)) as [Hc|Hc].
  2: { by rewrite color_to_pid_loop_missing. }
  destruct (color_to_pid_loop_total player_ids colors 0 c Hc) as (pid & -> & _); [lia|].
  cbn [mbind Res_bind]. apply IH. exists color. split; [|done].
  apply elem_of_cons in Hin as [->|Hin]; done.
Qed.

Lemma pids_of_loop_known player_ids colors item acc :
  length player_ids = length colors ->
  (forall color, color ∈ item -> color ∈ colors) ->
  exists new_item,
    pids_of_loop player_ids colors item acc = Ok new_item /\
    forall pid,
      pid ∈ new_item <->
      pid ∈ acc \/
      exists color, color ∈ item /\ color_to_pid player_ids colors color = Ok pid.
Proof.
  intros Hlen. revert acc. induction item as [|c item IH]; intros acc Hknown.
  { exists acc. split; [done|]. intros pid. split; [by left|].
    intros [?|(color & Hin & _)]; [done|by apply elem_of_nil in Hin]. }
  cbn [pids_of_loop].
  destruct (color_to_pid_loop_total player_ids colors 0 c) as (pid & Hpid & _);
    [apply Hknown; by left|lia|].
  unfold color_to_pid at 1. rewrite Hpid. cbn [mbind Res_bind].
  destruct (IH (acc ∪ {[ pid ]})) as (new_item & -> & Hnew).
  { intros color Hin. apply Hknown. by right. }
  exists new_item. split; [done|]. intros pid'. rewrite Hnew, elem_of_union,
    elem_of_singleton. split.
  - intros [[Hacc| ->]|(color & Hin & Hc)].
    + by left.
    + right. exists c. split; [by left|done].
    + right. exists color. split; [by right|done].
  - intros [Hacc|(color & [->|Hin]%elem_of_cons & Hc)].
    + left. by left.
    + left. right. unfold color_to_pid in Hc. rewrite Hpid in Hc. by injection Hc.
    + right. by exists color.
Qed.

(** what the translation of one set of colors holds, for paired players *)
Definition translated (player_ids : list PlayerID) (colors : list ColorString)
    (item : gset ColorString) (new_item : gset PlayerID) : Prop :=
  (forall k color pid,
     colors !! k = Some color -> player_ids !! k = Some pid ->
     pid ∈ new_item <-> color ∈ item) /\
  (forall pid, pid ∈ new_item -> pid ∈ player_ids).

Lemma pids_of_translated player_ids colors item :
  paired player_ids colors ->
  (forall color, color ∈ item -> color ∈ colors) ->
  exists new_item,
    pids_of player_ids colors item = Ok new_item /\
    translated player_ids colors item new_item.
Proof.
  intros Hpaired Hknown. pose proof Hpaired as (Hlen & Hnd & Hndp).
  destruct (pids_of_loop_known player_ids colors (elements item) ∅ Hlen)
    as (new_item & Hrun & Hnew).
  { intros color Hin. apply Hknown. by apply elem_of_elements. }
  exists new_item. split; [done|]. split.
  - intros k color pid Hk Hpid. rewrite Hnew. split.
    + intros [Hin|(color' & Hin & Hc)]; [by apply elem_of_empty in Hin|].
      apply elem_of_elements in Hin.
      destruct (color_to_pid_known player_ids colors color' Hpaired (Hknown _ Hin))
        as (k' & pid' & Hk' & Hpid' & Hc').
      rewrite Hc in Hc'. injection Hc' as <-.
      assert (k' = k) as -> by (by eapply NoDup_lookup).
      rewrite Hk in Hk'. by injection Hk' as <-.
    + intros Hin. right. exists color. split; [by apply elem_of_elements|].
      by apply (color_to_pid_loop_found player_ids colors 0 k).
  - intros pid. rewrite Hnew. intros [Hin|(color & Hin & Hc)];
      [by apply elem_of_empty in Hin|].
    apply elem_of_elements in Hin.
    destruct (color_to_pid_known player_ids colors color Hpaired (Hknown _ Hin))
      as (k & pid' & _ & Hpid' & Hc').
    rewrite Hc in Hc'. injection Hc' as <-. by eapply list_elem_of_lookup_2.
Qed.

Lemma new_winners_loop_translated player_ids colors winners : forall new_winners,
  paired player_ids colors ->
  (forall item color, item ∈ winners -> color ∈ item -> color ∈ colors) ->
  exists added,
    new_winners_loop player_ids colors winners new_winners = Ok (new_winners ++ added) /\
    Forall2 (translated player_ids colors) winners added.
Proof.
  induction winners as [|item winners IH]; intros new_winners Hpaired Hknown.
  { exists []. split; [by rewrite app_nil_r|constructor]. }
  cbn [new_winners_loop].
  destruct (pids_of_translated player_ids colors item Hpaired)
    as (new_item & -> & Hitem).
  { intros color. apply Hknown. by left. }
  cbn [mbind Res_bind].
  destruct (IH (new_winners ++ [new_item]) Hpaired) as (added & -> & Hadded).
  { intros item' color Hin. apply Hknown. by right. }
  exists (new_item :: added). split; [by rewrite <- app_assoc|by constructor].
Qed.

Lemma new_winners_loop_missing player_ids colors winners : forall new_winners,
  length player_ids = length colors ->
  (exists item color, item ∈ winners /\ color ∈ item /\ color ∉ colors) ->
  new_winners_loop player_ids colors winners new_winners = Raise ValueError.
Proof.
  induction winners as [|item winners IH];
    intros new_winners Hlen (item' & color & Hin & Hc & Hout).
  { by apply elem_of_nil in Hin. }
  cbn [new_winners_loop].
  destruct (decide (Forall (fun c => c ∈ colors) (elements item))) as [Hall|Hsome].
  - destruct (pids_of_loop_known player_ids colors (elements item) ∅ Hlen)
      as (new_item & Hrun & _).
    { intros c. rewrite Forall_forall in Hall. apply Hall. }
    unfold pids_of. rewrite Hrun. cbn [mbind Res_bind].
    apply IH; [done|]. exists item', color. split; [|done].
    apply elem_of_cons in Hin as [->|Hin]; [|done].
    exfalso. apply Hout. rewrite Forall_forall in Hall. apply Hall.
    by apply elem_of_elements.
  - apply not_Forall_Exists in Hsome; [|apply _].
    apply Exists_exists in Hsome as (c & Hcin & Hcout).
    unfold pids_of. rewrite (pids_of_loop_missing player_ids colors); [done|done|].
    by exists c.
Qed.

(** X23: [translate_color_to_pids] fails with an assertion error when the
    two lists are not of the same length, and raises [ValueError] when, the
    lengths being equal, the game result names a color that is not in the
    list of colors.  For colors and identifiers without repetition and a
    game result over these colors it returns a result with as many sets of
    winners, where the identifier at an index of the list is among the
    cheaters, or in a set of winners, exactly when the color at this index
    is among the cheaters, or in the set of winners at the same place, of
    the game result, and which names no other identifier. *)
Theorem translate_color_to_pids_spec (winners : list (gset ColorString))
    (cheaters : gset ColorString) (player_ids : list PlayerID)
    (colors : list ColorString) :
  (length player_ids <> length colors ->
   translate_color_to_pids (winners, cheaters) player_ids colors
   = Raise AssertionError) /\
  (length player_ids = length colors ->
   (exists color,
      (color ∈ cheaters \/ exists item, item ∈ winners /\ color ∈ item) /\
      color ∉ colors) ->
   translate_color_to_pids (winners, cheaters) player_ids colors = Raise ValueError) /\
  (paired player_ids colors ->
   (forall color,
      color ∈ cheaters \/ (exists item, item ∈ winners /\ color ∈ item) ->
      color ∈ colors) ->
   exists new_winners new_cheaters,
     translate_color_to_pids (winners, cheaters) player_ids colors
     = Ok (new_winners, new_cheaters) /\
     translated player_ids colors cheaters new_cheaters /\
     Forall2 (translated player_ids colors) winners new_winners).
Proof.
  unfold translate_color_to_pids. split; [|split].
  - intros Hlen. by rewrite decide_True.
  - intros Hlen (color & Hin & Hout). rewrite decide_False by (by intros Hne; apply Hne).
    destruct (decide (Forall (fun c => c ∈ colors) (elements cheaters))) as [Hall|Hsome].
    + destruct (pids_of_loop_known player_ids colors (elements cheaters) ∅ Hlen)
        as (new_cheaters & Hrun & _).
      { intros c. rewrite Forall_forall in Hall. apply Hall. }
      unfold pids_of at 1. rewrite Hrun. cbn [mbind Res_bind].
      rewrite new_winners_loop_missing; [done|done|].
      destruct Hin as [Hin|(item & Hitem & Hin)]; [|by exists item, color].
      exfalso. apply Hout. rewrite Forall_forall in Hall. apply Hall.
      by apply elem_of_elements.
    + apply not_Forall_Exists in Hsome; [|apply _].
      apply Exists_exists in Hsome as (c & Hcin & Hcout).
      unfold pids_of at 1.
      rewrite (pids_of_loop_missing player_ids colors); [done|done|]. by exists c.
  - intros Hpaired Hknown. pose proof Hpaired as (Hlen & _).
    rewrite decide_False by (by intros Hne; apply Hne).
    destruct (pids_of_translated player_ids colors cheaters Hpaired)
      as (new_cheaters & -> & Hcheaters).
    { intros color Hin. apply Hknown. by left. }
    cbn [mbind Res_bind].
    destruct (new_winners_loop_translated player_ids colors winners [] Hpaired)
      as (new_winners & -> & Hwinners).
    { intros item color Hitem Hin. apply Hknown. right. by exists item. }
    cbn [mbind Res_bind app]. by exists new_winners, new_cheaters.
Qed.

Lemma translate_color_to_pids_spec_witness :
  paired ["p1"; "p2"; "p3"] [white; black; red] /\
  exists new_winners new_cheaters,
    translate_color_to_pids ([{[ black ]}; {[ white ]}], {[ red ]})
      ["p1"; "p2"; "p3"] [white; black; red]
    = Ok (new_winners, new_cheaters) /\
    translated ["p1"; "p2"; "p3"] [white; black; red] {[ red ]} new_cheaters.
Proof.
  assert (paired ["p1"; "p2"; "p3"] [white; black; red]) as Hpaired.
  { split; [reflexivity|]. split; apply (bool_decide_unpack _); by vm_compute. }
  split; [exact Hpaired|].
  destruct (translate_color_to_pids_spec [{[ black ]}; {[ white ]}] {[ red ]}
              ["p1"; "p2"; "p3"] [white; black; red]) as (_ & _ & Hok).
  destruct (Hok Hpaired) as (new_winners & new_cheaters & Hrun & Hcheaters & _).
  { intros color [Hin|(item & Hitem & Hin)].
    - apply elem_of_singleton in Hin as ->. set_solver.
    - rewrite !elem_of_cons, elem_of_nil in Hitem.
      destruct Hitem as [->|[->|[]]]; apply elem_of_singleton in Hin as ->; set_solver. }
  by exists new_winners, new_cheaters.
Defined.
